(** * Event ingestion core of the plugin server

    A shallow embedding of [src/worker/ingestion/process-event.ts]
    (class [EventsProcessor]) and of the person store it drives
    ([utils/db/db.ts], class [DB]), followed by the properties the
    specification states about them.

    Layout of the development:
    - JavaScript values and property maps ([value], [Properties]);
    - errors, the world the code runs in and the monad [M] of effectful code;
    - the luxon instants used by the timestamp reconciler;
    - the collaborators whose source is not part of the two files ([Collaborators]);
    - the person store ([DB] methods), then the event processor;
    - a reference instance of the collaborators and a few concrete worlds;
    - the theorems. *)

From stdpp Require Import gmap strings list fin_maps pretty sorting.
From Stdlib Require Import ZArith Lia Ascii.

Set Warnings "-register-all".
Local Open Scope string_scope.
Local Open Scope Z_scope.

(** ** JavaScript values *)

(** The JSON-like values stored in property maps ([Properties = Record<string, any>]).
    Objects are finite maps, so two objects with the same entries are equal,
    which is the equality [fast-deep-equal] decides. *)
Inductive value : Type :=
  | VNull
  | VBool (b : bool)
  | VNum (z : Z)
  | VStr (s : string)
  | VArr (l : list value)
  | VObj (o : gmap string value).

Abbreviation Properties := (gmap string value).

Fixpoint value_eq_dec (x y : value) : Decision (x = y).
Proof.
  refine
    match x, y with
    | VNull, VNull => left _
    | VBool a, VBool b => cast_if (decide (a = b))
    | VNum a, VNum b => cast_if (decide (a = b))
    | VStr a, VStr b => cast_if (decide (a = b))
    | VArr a, VArr b => cast_if (@decide (a = b) (@list_eq_dec _ value_eq_dec a b))
    | VObj a, VObj b =>
        cast_if (@decide (a = b) (@gmap_eq_dec _ _ _ _ value_eq_dec a b))
    | _, _ => right _
    end; abstract congruence.
Defined.

#[global] Instance value_eq : EqDecision value := value_eq_dec.

(** [equal] of fast-deep-equal on property maps. *)
Definition equal (a b : Properties) : bool := bool_decide (a = b).

(** Truthiness, as [if (x)] and [x || y] test it. [None] is [undefined]. *)
Definition truthy_str (s : string) : bool := negb (String.eqb s "").

Definition truthy (v : value) : bool :=
  match v with
  | VNull => false
  | VBool b => b
  | VNum z => negb (Z.eqb z 0)
  | VStr s => truthy_str s
  | VArr _ | VObj _ => true
  end.

Definition truthy_opt (o : option value) : bool :=
  match o with Some v => truthy v | None => false end.

Definition truthy_ostr (o : option string) : bool :=
  match o with Some s => truthy_str s | None => false end.

(** [{ ...a, ...b }]: the entries of [a] overridden by those of [b]. *)
Definition spread2 (a b : Properties) : Properties := b ∪ a.

Infix "⊕" := spread2 (at level 50, left associativity).

Definition chars (s : string) : list value :=
  (λ c, VStr (String c EmptyString)) <$> String.list_ascii_of_string s.

Definition indexed (l : list value) : Properties :=
  list_to_map (imap (λ i v, (pretty i, v)) l).

(** [{ ...v }] for an arbitrary value: own enumerable properties only. *)
Definition spread (v : option value) : Properties :=
  match v with
  | Some (VObj o) => o
  | Some (VArr l) => indexed l
  | Some (VStr s) => indexed (chars s)
  | _ => ∅
  end.

(** The text [s] between double quotes (the character of code 34), as the
    template literals of the error messages print an identifier. *)
Definition double_quote : string := String (ascii_of_nat 34) EmptyString.

Definition quoted (s : string) : string := double_quote +:+ s +:+ double_quote.

(** [v.length] used as a condition. *)
Definition length_truthy (v : value) : bool :=
  match v with
  | VArr l => negb (bool_decide (l = []))
  | VStr s => truthy_str s
  | VObj o => truthy_opt (o !! "length")
  | _ => false
  end.

(** ** Errors and results *)

(** The error classes the code tells apart with [instanceof]. *)
Inductive error : Type :=
  | RaceConditionError (message : string)
  | DatabaseError (code : string)
  | Error (message : string).

#[global] Instance error_eq : EqDecision error.
Proof. solve_decision. Defined.

Definition is_RaceConditionError (e : error) : bool :=
  match e with RaceConditionError _ => true | _ => false end.

Definition is_DatabaseError (e : error) : bool :=
  match e with DatabaseError _ => true | _ => false end.

(** SQLSTATE codes raised by the relational model. *)
Definition unique_violation : string := "23505".
Definition foreign_key_violation : string := "23503".
Definition not_null_violation : string := "23502".
Definition syntax_error : string := "42601".
Definition connection_failure : string := "08006".

(** What a storage adapter can do wrong on its own: the [pg] client raises
    [DatabaseError], the other clients a plain [Error]. *)
Inductive fault : Type :=
  | FaultDatabase
  | FaultError (message : string).

Definition fault_error (f : fault) : error :=
  match f with
  | FaultDatabase => DatabaseError connection_failure
  | FaultError m => Error m
  end.

Inductive result (A : Type) : Type :=
  | Ok (a : A)
  | Throw (e : error)
  | OutOfFuel.

Arguments Ok {A} a.
Arguments Throw {A} e.
Arguments OutOfFuel {A}.

(** ** luxon instants *)

(** A luxon [DateTime] is an instant (milliseconds since the epoch, UTC) or
    the invalid [DateTime]; likewise for [Duration]. *)
Inductive DateTime : Type :=
  | Valid (ms : Z)
  | Invalid.

Inductive Duration : Type :=
  | DValid (ms : Z)
  | DInvalid.

#[global] Instance DateTime_eq : EqDecision DateTime.
Proof. solve_decision. Defined.

Inductive TimestampFormat : Type :=
  | ClickHouseSecondPrecision
  | ClickHouse
  | ISO.

(** ** Rows and messages *)

Module Person.
(** [Person] of [types.ts]; [created_at] is the instant stored in the row. *)
Record t : Type := mk {
  id : Z;
  uuid : string;
  team_id : Z;
  created_at : Z;
  properties : Properties;
  is_user_id : option Z;
  is_identified : bool
}.


Definition with_properties (ps : Properties) (p : t) : t :=
  mk (id p) (uuid p) (team_id p) (created_at p) ps (is_user_id p) (is_identified p).

Definition with_is_identified (b : bool) (p : t) : t :=
  mk (id p) (uuid p) (team_id p) (created_at p) (properties p) (is_user_id p) b.
End Person.

Module PersonDistinctId.
Record t : Type := mk {
  id : Z;
  person_id : Z;
  distinct_id : string;
  team_id : Z
}.

Definition with_person_id (p : Z) (d : t) : t :=
  mk (id d) p (distinct_id d) (team_id d).
End PersonDistinctId.

Module CohortPeople.
Record t : Type := mk { id : Z; cohort_id : Z; person_id : Z }.

Definition with_person_id (p : Z) (c : t) : t := mk (id c) (cohort_id c) p.
End CohortPeople.

Module Team.
Record t : Type := mk { id : Z; anonymize_ips : bool }.
End Team.

Module RawOrganization.
Record t : Type := mk { id : string; name : string }.
End RawOrganization.

(** An [Element] is kept as the open object it is in the source. *)
Abbreviation Element := (gmap string value).

Module ElementGroup.
Record t : Type := mk { id : Z; hash : string; team_id : Z }.
End ElementGroup.

Module IEvent.
(** The canonical event ([IEvent] of the protobuf definitions). *)
Record t : Type := mk {
  uuid : string;
  event : string;
  properties : string;
  timestamp : string;
  teamId : Z;
  distinctId : string;
  elementsChain : string;
  createdAt : string
}.
End IEvent.

Module Event.
(** A row of [posthog_event]. *)
Record t : Type := mk {
  id : Z;
  created_at : string;
  event : string;
  distinct_id : string;
  properties : string;
  team_id : Z;
  timestamp : string;
  elements : string;
  elements_hash : string
}.
End Event.

Module SessionRecordingEvent.
(** [session_id] and [snapshot_data] are [None] when the field of the object
    is [undefined]. *)
Record t : Type := mk {
  uuid : string;
  team_id : Z;
  distinct_id : string;
  session_id : option value;
  snapshot_data : option string;
  timestamp : string;
  created_at : string
}.
End SessionRecordingEvent.

Module PostgresSessionRecordingEvent.
(** A row of [posthog_sessionrecordingevent]. *)
Record t : Type := mk {
  id : Z;
  created_at : string;
  team_id : Z;
  distinct_id : string;
  session_id : option value;
  timestamp : string;
  snapshot_data : string
}.
End PostgresSessionRecordingEvent.

Module PluginEvent.
(** The fields of the incoming event that the processor reads. *)
Record t : Type := mk {
  distinct_id : string;
  ip : option string;
  site_url : string;
  team_id : Z;
  event : string;
  properties : option Properties;
  timestamp : option string;
  offset : option Z;
  set : option Properties;
  set_once : option Properties
}.

Definition with_properties (ps : Properties) (d : t) : t :=
  mk (distinct_id d) (ip d) (site_url d) (team_id d) (event d) (Some ps)
     (timestamp d) (offset d) (set d) (set_once d).
End PluginEvent.

(** Kafka topics ([config/kafka-topics]). *)
Inductive topic : Type :=
  | KAFKA_EVENTS
  | KAFKA_SESSION_RECORDING_EVENTS
  | KAFKA_PERSON
  | KAFKA_PERSON_UNIQUE_ID
  | KAFKA_PLUGIN_LOG_ENTRIES.

#[global] Instance topic_eq : EqDecision topic.
Proof. solve_decision. Defined.

(** The bytes of a message: [Buffer.from(JSON.stringify(obj))] is kept as the
    object that was serialised, a protobuf-encoded event as the event. *)
Inductive Buffer : Type :=
  | BufferJSON (obj : Properties)
  | BufferProto (e : IEvent.t).

Module Message.
Record t : Type := mk { key : option string; value : Buffer }.
End Message.

Module ProducerRecord.
Record t : Type := mk { topic_of : topic; messages : list Message.t }.
End ProducerRecord.

(** Mutations sent to ClickHouse by [deletePerson]. *)
Inductive ClickHouseQuery : Type :=
  | AlterTablePersonDelete (uuid : string)
  | AlterTablePersonDistinctIdDelete (uuid : string).

(** What [Sentry.captureException] is given beside the exception. *)
Inductive SentryExtra : Type :=
  | NoExtra
  | ExtraEvent (data : PluginEvent.t)
  | ExtraTimestamp (data : PluginEvent.t) (now : DateTime) (sentAt : option DateTime)
  | ExtraMerge (mergeInto : Person.t) (mergeIntoDistinctId : string)
      (otherPerson : Person.t) (otherPersonDistinctId : option string)
  | ExtraNewPerson (teamId : Z) (distinctId : string) (sentAt : DateTime)
      (personUuid : string).

Module SentryReport.
Record t : Type := mk { exception : error; extra : SentryExtra }.
End SentryReport.

(** Lines written by [console.error] and [status.error]. *)
Inductive LogLine : Type :=
  | ConsoleError (message : string) (e : error) (data : PluginEvent.t)
  | StatusError (message : string) (e : error).

(** ** The world *)

(** The relational tables. Rows are kept in insertion order. *)
Record Tables : Type := mkTables {
  posthog_person : list Person.t;
  posthog_persondistinctid : list PersonDistinctId.t;
  posthog_cohortpeople : list CohortPeople.t;
  posthog_event : list Event.t;
  posthog_sessionrecordingevent : list PostgresSessionRecordingEvent.t;
  posthog_elementgroup : list ElementGroup.t;
  posthog_element : list Element;
  posthog_organization : list RawOrganization.t
}.

(** Everything the code can read or change: the tables, the id sequence,
    the messages queued on the producer, the ClickHouse mutations, the error
    sink, the logs, the clock, the number of UUIDs generated so far, and the
    environment: [faults n] says whether the [n]-th call to a storage adapter
    fails on its own, [tick] counts those calls. *)
Record World : Type := mkWorld {
  tables : Tables;
  sequence : Z;
  kafka : list ProducerRecord.t;
  clickhouse_mutations : list ClickHouseQuery;
  sentry : list SentryReport.t;
  logs : list LogLine;
  clock : Z;
  uuids : nat;
  tick : nat;
  faults : nat → option fault
}.

Definition set_tables (t : Tables) (w : World) : World :=
  mkWorld t (sequence w) (kafka w) (clickhouse_mutations w) (sentry w) (logs w)
    (clock w) (uuids w) (tick w) (faults w).

Definition set_sequence (n : Z) (w : World) : World :=
  mkWorld (tables w) n (kafka w) (clickhouse_mutations w) (sentry w) (logs w)
    (clock w) (uuids w) (tick w) (faults w).

Definition set_kafka (k : list ProducerRecord.t) (w : World) : World :=
  mkWorld (tables w) (sequence w) k (clickhouse_mutations w) (sentry w) (logs w)
    (clock w) (uuids w) (tick w) (faults w).

Definition set_clickhouse_mutations (c : list ClickHouseQuery) (w : World) : World :=
  mkWorld (tables w) (sequence w) (kafka w) c (sentry w) (logs w)
    (clock w) (uuids w) (tick w) (faults w).

Definition set_sentry (s : list SentryReport.t) (w : World) : World :=
  mkWorld (tables w) (sequence w) (kafka w) (clickhouse_mutations w) s (logs w)
    (clock w) (uuids w) (tick w) (faults w).

Definition set_logs (l : list LogLine) (w : World) : World :=
  mkWorld (tables w) (sequence w) (kafka w) (clickhouse_mutations w) (sentry w) l
    (clock w) (uuids w) (tick w) (faults w).

Definition set_uuids (n : nat) (w : World) : World :=
  mkWorld (tables w) (sequence w) (kafka w) (clickhouse_mutations w) (sentry w) (logs w)
    (clock w) n (tick w) (faults w).

Definition set_tick (n : nat) (w : World) : World :=
  mkWorld (tables w) (sequence w) (kafka w) (clickhouse_mutations w) (sentry w) (logs w)
    (clock w) (uuids w) n (faults w).

Definition set_posthog_person (l : list Person.t) (t : Tables) : Tables :=
  mkTables l (posthog_persondistinctid t) (posthog_cohortpeople t) (posthog_event t)
    (posthog_sessionrecordingevent t) (posthog_elementgroup t) (posthog_element t)
    (posthog_organization t).

Definition set_posthog_persondistinctid (l : list PersonDistinctId.t) (t : Tables) : Tables :=
  mkTables (posthog_person t) l (posthog_cohortpeople t) (posthog_event t)
    (posthog_sessionrecordingevent t) (posthog_elementgroup t) (posthog_element t)
    (posthog_organization t).

Definition set_posthog_cohortpeople (l : list CohortPeople.t) (t : Tables) : Tables :=
  mkTables (posthog_person t) (posthog_persondistinctid t) l (posthog_event t)
    (posthog_sessionrecordingevent t) (posthog_elementgroup t) (posthog_element t)
    (posthog_organization t).

Definition set_posthog_event (l : list Event.t) (t : Tables) : Tables :=
  mkTables (posthog_person t) (posthog_persondistinctid t) (posthog_cohortpeople t) l
    (posthog_sessionrecordingevent t) (posthog_elementgroup t) (posthog_element t)
    (posthog_organization t).

Definition set_posthog_sessionrecordingevent
    (l : list PostgresSessionRecordingEvent.t) (t : Tables) : Tables :=
  mkTables (posthog_person t) (posthog_persondistinctid t) (posthog_cohortpeople t)
    (posthog_event t) l (posthog_elementgroup t) (posthog_element t)
    (posthog_organization t).

Definition set_posthog_elementgroup (l : list ElementGroup.t) (t : Tables) : Tables :=
  mkTables (posthog_person t) (posthog_persondistinctid t) (posthog_cohortpeople t)
    (posthog_event t) (posthog_sessionrecordingevent t) l (posthog_element t)
    (posthog_organization t).

Definition set_posthog_element (l : list Element) (t : Tables) : Tables :=
  mkTables (posthog_person t) (posthog_persondistinctid t) (posthog_cohortpeople t)
    (posthog_event t) (posthog_sessionrecordingevent t) (posthog_elementgroup t) l
    (posthog_organization t).

(** ** The monad of effectful code *)

(** An [async] method is a function of the world that returns a value or
    throws, and leaves a new world either way. *)
Definition M (A : Type) : Type := World → result A * World.

Definition ret {A} (a : A) : M A := λ w, (Ok a, w).

Definition throw {A} (e : error) : M A := λ w, (Throw e, w).

Definition out_of_fuel {A} : M A := λ w, (OutOfFuel, w).

Definition bind {A B} (m : M A) (k : A → M B) : M B := λ w,
  match m w with
  | (Ok a, w') => k a w'
  | (Throw e, w') => (Throw e, w')
  | (OutOfFuel, w') => (OutOfFuel, w')
  end.

(** [try { m } catch (e) { h e }]. *)
Definition try_catch {A} (m : M A) (h : error → M A) : M A := λ w,
  match m w with
  | (Throw e, w') => h e w'
  | r => r
  end.

(** A fallible computation that does not touch the world. *)
Definition lift {A} (r : result A) : M A := λ w, (r, w).

Definition gets {A} (f : World → A) : M A := λ w, (Ok (f w), w).

Definition modify (f : World → World) : M unit := λ w, (Ok tt, f w).

Notation "x <- m ;; k" := (bind m (λ x, k))
  (at level 100, m at next level, right associativity,
   format "'[v' x  <-  m  ;; '/' k ']'").

Notation "m ;;; k" := (bind m (λ _, k))
  (at level 100, right associativity, format "'[v' m  ;;; '/' k ']'").

(** [for (const x of l) { await f x }]. *)
Fixpoint for_each {A} (f : A → M unit) (l : list A) : M unit :=
  match l with
  | [] => ret tt
  | x :: l' => f x ;;; for_each f l'
  end.

Definition when (b : bool) (m : M unit) : M unit := if b then m else ret tt.

(** One call to a storage adapter (a query, a producer enqueue): it fails on
    its own when the environment says so, before having any effect. *)
Definition storage_call : M unit := λ w,
  let w' := set_tick (S (tick w)) w in
  match faults w (tick w) with
  | Some f => (Throw (fault_error f), w')
  | None => (Ok tt, w')
  end.

(** ** Collaborators *)

(** The parts of the program whose source is outside the two files embedded
    here: the hub configuration, the luxon library, [utils/utils.ts],
    [utils/db/utils.ts], the team and person managers, and the one [DB] method
    the processor calls for increments. They are parameters: every statement
    below holds whatever they do. *)
Class Collaborators : Type := {
  (** whether [this.kafkaProducer] / [this.clickhouse] are configured *)
  kafkaProducer : bool;
  clickhouse : bool;
  (** [new Date(s).getTime()], [None] for [NaN] *)
  Date_parse : string → option Z;
  (** [DateTime.fromISO(s)] *)
  DateTime_fromISO : string → result DateTime;
  (** what luxon does when an operation has no valid result: building an
      invalid [DateTime] or [Duration], adding an invalid [Duration] *)
  invalid_DateTime : result DateTime;
  invalid_Duration : result Duration;
  plus_invalid_Duration : result DateTime;
  (** [UUID.validateString(s, false)] *)
  UUID_validateString : string → bool;
  (** [new UUIDT().toString()], for the [n]-th identifier generated *)
  UUIDT_toString : nat → string;
  (** [castTimestampOrNow(timestamp, format)], given the clock *)
  castTimestampOrNow : option DateTime → TimestampFormat → Z → string;
  filterIncrementProperties : option value → gmap string Z;
  JSON_stringify : value → string;
  (** the text node-postgres sends for a parameter that is neither a string
      nor [null] nor [undefined] ([prepareValue] of [pg/lib/utils]) *)
  prepareValue : value → string;
  sanitizeEventName : string → string;
  extractElements : value → list Element;
  elementsToString : list Element → string;
  hashElements : list Element → string;
  personInitialAndUTMProperties : Properties → Properties;
  (** [teamManager.fetchTeam], [teamManager.updateEventNamesAndProperties] *)
  fetchTeam : Z → M (option Team.t);
  updateEventNamesAndProperties : Z → string → Properties → M unit;
  (** [personManager.isNewPerson(db, teamId, distinctId)] *)
  isNewPerson : Z → string → M bool;
  (** [db.incrementPersonProperties]: the [properties] of the rows it returns *)
  incrementPersonProperties : Person.t → gmap string Z → M (list Properties)
}.

(** luxon arithmetic: fixed on valid operands, left to the library otherwise.
    Instants are read in the UTC zone. *)
Section Luxon.
Context `{Collaborators}.

(** [DateTime.fromJSDate(new Date(s))] *)
Definition DateTime_fromJSDate (d : option Z) : result DateTime :=
  match d with
  | Some ms => Ok (Valid ms)
  | None => invalid_DateTime
  end.

(** [a.diff(b)] *)
Definition DateTime_diff (a b : DateTime) : result Duration :=
  match a, b with
  | Valid x, Valid y => Ok (DValid (x - y))
  | _, _ => invalid_Duration
  end.

(** The instants a [DateTime] holds are those of a JavaScript [Date]:
    8.64e15 milliseconds either side of the epoch. *)
Definition MAX_DATE : Z := 8640000000000000.

Definition in_range (ms : Z) : bool := (- MAX_DATE <=? ms) && (ms <=? MAX_DATE).

(** The [DateTime] luxon builds for a timestamp it has computed: its
    constructor marks the object invalid, without throwing, when the
    timestamp is not an instant of a [Date] (the calendar fields are [NaN]). *)
Definition DateTime_at (ms : Z) : DateTime :=
  if in_range ms then Valid ms else Invalid.

(** [a.plus(d)] *)
Definition DateTime_plus (a : DateTime) (d : Duration) : result DateTime :=
  match a, d with
  | Valid x, DValid y => Ok (DateTime_at (x + y))
  | Invalid, _ => Ok Invalid
  | Valid _, DInvalid => plus_invalid_Duration
  end.

(** [a.minus(d)] *)
Definition DateTime_minus (a : DateTime) (d : Duration) : result DateTime :=
  match a, d with
  | Valid x, DValid y => Ok (DateTime_at (x - y))
  | Invalid, _ => Ok Invalid
  | Valid _, DInvalid => plus_invalid_Duration
  end.

Definition Duration_fromMillis (n : Z) : Duration := DValid n.

(** [DateTime.utc()] *)
Definition DateTime_utc : M DateTime := gets (λ w, Valid (clock w)).

(** [new UUIDT().toString()] *)
Definition new_UUIDT : M string := λ w,
  (Ok (UUIDT_toString (uuids w)), set_uuids (S (uuids w)) w).
End Luxon.

(** [Sentry.captureException(e, { extra })] *)
Definition Sentry_captureException (e : error) (extra : SentryExtra) : M unit :=
  modify (λ w, set_sentry (sentry w ++ [SentryReport.mk e extra]) w).

Definition log (l : LogLine) : M unit :=
  modify (λ w, set_logs (logs w ++ [l]) w).

(** ** Relational statements *)

(** The statements the code sends, as functions of the tables. The schema
    constraints they can violate are those of the data model: [(team_id,
    uuid)] unique on persons, [(team_id, distinct_id)] unique on distinct ids,
    a distinct id references an existing person, [(team_id, hash)] unique on
    element groups. *)

Definition nextval : M Z := λ w,
  (Ok (sequence w), set_sequence (sequence w + 1) w).

Definition modify_tables (f : Tables → Tables) : M unit :=
  modify (λ w, set_tables (f (tables w)) w).

Definition person_exists (pid : Z) (t : Tables) : bool :=
  bool_decide (pid ∈ Person.id <$> posthog_person t).

(** A text parameter of a statement is [None] when node-postgres sends
    NULL for it, which it does for [undefined] and [null]. A comparison with
    NULL holds of no row. *)

(** SELECT ... FROM posthog_person JOIN posthog_persondistinctid ON
    (posthog_persondistinctid.person_id = posthog_person.id) WHERE
    posthog_person.team_id = $1 AND posthog_persondistinctid.team_id = $1 AND
    posthog_persondistinctid.distinct_id = $2 *)
Definition select_person_by_distinct_id (teamId : Z) (distinctId : option string)
    (t : Tables) : list Person.t :=
  p ← posthog_person t;
  d ← posthog_persondistinctid t;
  if bool_decide (PersonDistinctId.person_id d = Person.id p
                  ∧ Person.team_id p = teamId
                  ∧ PersonDistinctId.team_id d = teamId
                  ∧ Some (PersonDistinctId.distinct_id d) = distinctId)
  then [p] else [].

(** INSERT INTO posthog_person (created_at, properties, team_id, is_user_id,
    is_identified, uuid) VALUES (...) RETURNING *. An invalid [DateTime] has a
    null [toISO()], which the column refuses. *)
Definition insert_person (createdAt : DateTime) (properties : Properties)
    (teamId : Z) (isUserId : option Z) (isIdentified : bool) (uuid : string)
    : M Person.t :=
  match createdAt with
  | Invalid => throw (DatabaseError not_null_violation)
  | Valid ms =>
      id <- nextval ;;
      t <- gets tables ;;
      if bool_decide (Exists (λ p, Person.team_id p = teamId ∧ Person.uuid p = uuid)
                        (posthog_person t))
      then throw (DatabaseError unique_violation)
      else
        let row := Person.mk id uuid teamId ms properties isUserId isIdentified in
        modify_tables (λ t, set_posthog_person (posthog_person t ++ [row]) t) ;;;
        ret row
  end.

(** INSERT INTO posthog_persondistinctid (distinct_id, person_id, team_id)
    VALUES ($1, $2, $3) RETURNING *. The column [distinct_id] refuses a
    NULL, before the other constraints are looked at. *)
Definition insert_persondistinctid (distinctId : option string) (personId teamId : Z)
    : M PersonDistinctId.t :=
  id <- nextval ;;
  t <- gets tables ;;
  match distinctId with
  | None => throw (DatabaseError not_null_violation)
  | Some distinctId =>
      if bool_decide (Exists (λ d, PersonDistinctId.team_id d = teamId
                                   ∧ PersonDistinctId.distinct_id d = distinctId)
                        (posthog_persondistinctid t))
      then throw (DatabaseError unique_violation)
      else if negb (person_exists personId t)
      then throw (DatabaseError foreign_key_violation)
      else
        let row := PersonDistinctId.mk id personId distinctId teamId in
        modify_tables
          (λ t, set_posthog_persondistinctid (posthog_persondistinctid t ++ [row]) t) ;;;
        ret row
  end.

Module PersonUpdate.
(** [Partial<Person>], for the columns the callers update. *)
Record t : Type := mk {
  created_at : option Z;
  properties : option Properties;
  is_identified : option bool
}.

(** [{ ...person, ...update }] *)
Definition apply (u : t) (p : Person.t) : Person.t :=
  Person.mk (Person.id p) (Person.uuid p) (Person.team_id p)
    (default (Person.created_at p) (created_at u))
    (default (Person.properties p) (properties u))
    (Person.is_user_id p)
    (default (Person.is_identified p) (is_identified u)).

(** [Object.keys(update).length === 0] *)
Definition is_empty (u : t) : bool :=
  match created_at u, properties u, is_identified u with
  | None, None, None => true
  | _, _, _ => false
  end.
End PersonUpdate.

(** UPDATE posthog_person SET <the keys of update> WHERE id = $n. With no key
    the text is not a statement. *)
Definition update_person_where_id (update : PersonUpdate.t) (pid : Z) : M unit :=
  if PersonUpdate.is_empty update
  then throw (DatabaseError syntax_error)
  else
    modify_tables (λ t,
      set_posthog_person
        ((λ p, if bool_decide (Person.id p = pid) then PersonUpdate.apply update p else p)
           <$> posthog_person t) t).

(** UPDATE posthog_cohortpeople SET person_id = $1 WHERE person_id = $2 *)
Definition update_cohortpeople_person (newId oldId : Z) : M unit :=
  modify_tables (λ t,
    set_posthog_cohortpeople
      ((λ c, if bool_decide (CohortPeople.person_id c = oldId)
             then CohortPeople.with_person_id newId c else c)
         <$> posthog_cohortpeople t) t).

(** UPDATE posthog_persondistinctid SET person_id = $1 WHERE id = $2 *)
Definition update_persondistinctid_person (personId rowId : Z) : M unit :=
  t <- gets tables ;;
  if bool_decide (rowId ∈ PersonDistinctId.id <$> posthog_persondistinctid t)
     && negb (person_exists personId t)
  then throw (DatabaseError foreign_key_violation)
  else
    modify_tables (λ t,
      set_posthog_persondistinctid
        ((λ d, if bool_decide (PersonDistinctId.id d = rowId)
               then PersonDistinctId.with_person_id personId d else d)
           <$> posthog_persondistinctid t) t).

(** DELETE FROM posthog_persondistinctid WHERE person_id = $1 *)
Definition delete_persondistinctid_where_person (pid : Z) : M unit :=
  modify_tables (λ t,
    set_posthog_persondistinctid
      (filter (λ d, PersonDistinctId.person_id d ≠ pid) (posthog_persondistinctid t)) t).

(** DELETE FROM posthog_person WHERE id = $1 *)
Definition delete_person_where_id (pid : Z) : M unit :=
  t <- gets tables ;;
  if bool_decide (pid ∈ Person.id <$> posthog_person t)
     && bool_decide (pid ∈ PersonDistinctId.person_id <$> posthog_persondistinctid t)
  then throw (DatabaseError foreign_key_violation)
  else
    modify_tables (λ t,
      set_posthog_person (filter (λ p, Person.id p ≠ pid) (posthog_person t)) t).

(** SELECT * FROM posthog_persondistinctid WHERE person_id=$1 and team_id=$2
    ORDER BY id *)
Definition by_id (a b : PersonDistinctId.t) : Prop :=
  PersonDistinctId.id a ≤ PersonDistinctId.id b.

#[global] Instance by_id_dec : RelDecision by_id.
Proof. intros a b. unfold by_id. apply _. Defined.

Definition select_distinct_ids (pid teamId : Z) (t : Tables) : list PersonDistinctId.t :=
  merge_sort by_id
    (filter (λ d, PersonDistinctId.person_id d = pid ∧ PersonDistinctId.team_id d = teamId)
       (posthog_persondistinctid t)).

(** INSERT INTO posthog_elementgroup (hash, team_id) VALUES ($1, $2) RETURNING * *)
Definition insert_elementgroup (hash : string) (teamId : Z) : M ElementGroup.t :=
  id <- nextval ;;
  t <- gets tables ;;
  if bool_decide (Exists (λ g, ElementGroup.team_id g = teamId ∧ ElementGroup.hash g = hash)
                    (posthog_elementgroup t))
  then throw (DatabaseError unique_violation)
  else
    let row := ElementGroup.mk id hash teamId in
    modify_tables (λ t, set_posthog_elementgroup (posthog_elementgroup t ++ [row]) t) ;;;
    ret row.

Definition element_columns : list string :=
  ["text"; "tag_name"; "href"; "attr_id"; "nth_child"; "nth_of_type"; "attributes";
   "order"; "event_id"; "attr_class"].

(** INSERT INTO posthog_element (text, tag_name, ..., group_id) VALUES (...),
    with [element.attributes || '{}'] for the attributes. *)
Definition insert_element (element : Element) (groupId : Z) : M unit :=
  let attributes :=
    match element !! "attributes" with
    | Some a => if truthy a then a else VStr "{}"
    | None => VStr "{}"
    end in
  let row : Element :=
    <["group_id" := VNum groupId]>
      (<["attributes" := attributes]>
         (filter (λ kv, kv.1 ∈ element_columns) element)) in
  modify_tables (λ t, set_posthog_element (posthog_element t ++ [row]) t).

(** INSERT INTO posthog_event (created_at, event, distinct_id, properties,
    team_id, timestamp, elements, elements_hash) VALUES (...) RETURNING * *)
Definition insert_event (created_at event distinct_id properties : string) (team_id : Z)
    (timestamp elements elements_hash : string) : M Event.t :=
  id <- nextval ;;
  let row :=
    Event.mk id created_at event distinct_id properties team_id timestamp elements
      elements_hash in
  modify_tables (λ t, set_posthog_event (posthog_event t ++ [row]) t) ;;;
  ret row.

(** A parameter that node-postgres sends as NULL: [undefined] or [null]. *)
Definition sql_null (v : option value) : bool :=
  match v with
  | None | Some VNull => true
  | Some _ => false
  end.

(** INSERT INTO posthog_sessionrecordingevent (created_at, team_id,
    distinct_id, session_id, timestamp, snapshot_data) VALUES (...) RETURNING *.
    [session_id] and [snapshot_data] are columns the data model does not mark
    optional: a NULL is refused. *)
Definition insert_sessionrecordingevent (created_at : string) (team_id : Z)
    (distinct_id : string) (session_id : option value) (timestamp : string)
    (snapshot_data : option string) : M PostgresSessionRecordingEvent.t :=
  match snapshot_data with
  | Some snapshot =>
      if sql_null session_id
      then throw (DatabaseError not_null_violation)
      else
        id <- nextval ;;
        let row :=
          PostgresSessionRecordingEvent.mk id created_at team_id distinct_id session_id
            timestamp snapshot in
        modify_tables
          (λ t, set_posthog_sessionrecordingevent
                  (posthog_sessionrecordingevent t ++ [row]) t) ;;;
        ret row
  | None => throw (DatabaseError not_null_violation)
  end.

(** The one statement of [fetchOrganization]. The server accepts the text
    only if its predicate is a comparison of the [id] column with the
    parameter. *)
Definition select_organization (text : string) (organizationId : string)
    : M (list RawOrganization.t) :=
  match String.words text with
  | ["SELECT"; "*"; "FROM"; "posthog_organization"; "WHERE"; "id"; "="; "$1"] =>
      gets (λ w, filter (λ o, RawOrganization.id o = organizationId)
                   (posthog_organization (tables w)))
  | _ => throw (DatabaseError syntax_error)
  end.

(** ** The person store ([DB]) *)

Section DB.
Context `{Collaborators}.

(** [postgresQuery]: [instrumentQuery] and the slow-query watchdog only
    measure and log, so a query is one call to the pool. *)
Definition postgresQuery {A} (statement : M A) : M A :=
  storage_call ;;; statement.

(** [client.query] on a pool or transaction client. *)
Definition client_query {A} (statement : M A) : M A :=
  storage_call ;;; statement.

(** [postgresTransaction]: connect, BEGIN, the body, COMMIT; on any error
    ROLLBACK, which restores the tables, and rethrow. *)
Definition postgresTransaction {A} (transaction : M A) : M A :=
  snapshot <- gets tables ;;
  storage_call ;;;
  try_catch
    (storage_call ;;;
     response <- transaction ;;
     storage_call ;;;
     ret response)
    (λ e,
       modify (set_tables snapshot) ;;;
       storage_call ;;;
       throw e).

(** [kafkaProducer.queueMessage] *)
Definition queueMessage (record : ProducerRecord.t) : M unit :=
  storage_call ;;;
  modify (λ w, set_kafka (kafka w ++ [record]) w).

Definition clickhouseQuery (query : ClickHouseQuery) : M unit :=
  if clickhouse
  then
    storage_call ;;;
    modify (λ w, set_clickhouse_mutations (clickhouse_mutations w ++ [query]) w)
  else
    throw (Error "ClickHouse connection has not been provided to this DB instance!").

Definition fetchPerson (teamId : Z) (distinctId : option string)
    : M (option Person.t) :=
  selectResult <-
    postgresQuery
      (gets (λ w, select_person_by_distinct_id teamId distinctId (tables w))) ;;
  ret (head selectResult).

(** The value of the message [createPerson] and [updatePerson] publish. *)
Definition person_json (created_at : string) (properties : Properties) (team_id : Z)
    (is_identified : bool) (id : string) : Properties :=
  <["created_at" := VStr created_at]>
    (<["properties" := VStr (JSON_stringify (VObj properties))]>
       (<["team_id" := VNum team_id]>
          (<["is_identified" := VBool is_identified]>
             (<["id" := VStr id]> ∅)))).

Definition persondistinctid_json (d : PersonDistinctId.t) : Properties :=
  <["id" := VNum (PersonDistinctId.id d)]>
    (<["person_id" := VNum (PersonDistinctId.person_id d)]>
       (<["distinct_id" := VStr (PersonDistinctId.distinct_id d)]>
          (<["team_id" := VNum (PersonDistinctId.team_id d)]> ∅))).

(** [addDistinctIdPooled(client, person, distinctId)]; the client is the
    pool or the client of the enclosing transaction. *)
Definition addDistinctIdPooled (person : Person.t) (distinctId : option string)
    : M (option ProducerRecord.t) :=
  personDistinctIdCreated <-
    client_query
      (insert_persondistinctid distinctId (Person.id person) (Person.team_id person)) ;;
  if kafkaProducer
  then
    ret (Some (ProducerRecord.mk KAFKA_PERSON_UNIQUE_ID
                 [Message.mk None
                    (BufferJSON
                       (<["person_id" := VStr (Person.uuid person)]>
                          (persondistinctid_json personDistinctIdCreated)))]))
  else ret None.

(** The loop of [createPerson] over [distinctIds || []]. *)
Fixpoint createPerson_distinctIds (person : Person.t)
    (distinctIds : list (option string)) (kafkaMessages : list ProducerRecord.t)
    : M (list ProducerRecord.t) :=
  match distinctIds with
  | [] => ret kafkaMessages
  | distinctId :: rest =>
      kafkaMessage <- addDistinctIdPooled person distinctId ;;
      createPerson_distinctIds person rest
        (match kafkaMessage with
         | Some m => kafkaMessages ++ [m]
         | None => kafkaMessages
         end)
  end.

Definition createPerson (createdAt : DateTime) (properties : Properties) (teamId : Z)
    (isUserId : option Z) (isIdentified : bool) (uuid : string)
    (distinctIds : list (option string)) : M Person.t :=
  created <-
    postgresTransaction
      (person <-
         client_query
           (insert_person createdAt properties teamId isUserId isIdentified uuid) ;;
       now <- gets clock ;;
       let kafkaMessages :=
         if kafkaProducer
         then [ProducerRecord.mk KAFKA_PERSON
                 [Message.mk None
                    (BufferJSON
                       (person_json (castTimestampOrNow (Some createdAt) ClickHouse now)
                          properties teamId isIdentified uuid))]]
         else [] in
       kafkaMessages <- createPerson_distinctIds person distinctIds kafkaMessages ;;
       ret (person, kafkaMessages)) ;;
  when kafkaProducer (for_each queueMessage created.2) ;;;
  ret created.1.

Definition updatePerson (person : Person.t) (update : PersonUpdate.t) : M Person.t :=
  let updatedPerson := PersonUpdate.apply update person in
  postgresQuery (update_person_where_id update (Person.id person)) ;;;
  now <- gets clock ;;
  when kafkaProducer
    (queueMessage
       (ProducerRecord.mk KAFKA_PERSON
          [Message.mk None
             (BufferJSON
                (person_json
                   (castTimestampOrNow (Some (Valid (Person.created_at updatedPerson)))
                      ClickHouseSecondPrecision now)
                   (Person.properties updatedPerson)
                   (Person.team_id updatedPerson)
                   (Person.is_identified updatedPerson)
                   (Person.uuid updatedPerson)))])) ;;;
  ret updatedPerson.

Definition deletePerson (person : Person.t) : M unit :=
  postgresTransaction
    (client_query (delete_persondistinctid_where_person (Person.id person)) ;;;
     client_query (delete_person_where_id (Person.id person))) ;;;
  when clickhouse
    (clickhouseQuery (AlterTablePersonDelete (Person.uuid person)) ;;;
     clickhouseQuery (AlterTablePersonDistinctIdDelete (Person.uuid person))).

(** [fetchDistinctIds(person)], on the default database (Postgres). *)
Definition fetchDistinctIds (person : Person.t) : M (list PersonDistinctId.t) :=
  postgresQuery
    (gets (λ w, select_distinct_ids (Person.id person) (Person.team_id person) (tables w))).

(** [fetchDistinctIdValues(person)], on the default database (Postgres). *)
Definition fetchDistinctIdValues (person : Person.t) : M (list string) :=
  personDistinctIds <- fetchDistinctIds person ;;
  ret (PersonDistinctId.distinct_id <$> personDistinctIds).

Definition addDistinctId (person : Person.t) (distinctId : option string) : M unit :=
  kafkaMessage <- addDistinctIdPooled person distinctId ;;
  match kafkaMessage with
  | Some m => when kafkaProducer (queueMessage m)
  | None => ret tt
  end.

Definition moveDistinctId (person : Person.t) (personDistinctId : PersonDistinctId.t)
    (moveToPerson : Person.t) : M unit :=
  postgresQuery
    (update_persondistinctid_person (Person.id moveToPerson)
       (PersonDistinctId.id personDistinctId)) ;;;
  when kafkaProducer
    (queueMessage
       (ProducerRecord.mk KAFKA_PERSON_UNIQUE_ID
          [Message.mk None
             (BufferJSON
                (<["person_id" := VStr (Person.uuid moveToPerson)]>
                   (persondistinctid_json personDistinctId)))])).

(** Modelled from the spec: [DB.moveDistinctIds], which [mergePeople] calls,
    is not in the source files. The spec (4.2, 4.3) has
    [move_distinct_ids(other -> into)] reassign the distinct ids of [other]
    to [into] and raise RaceConditionError when a peer changed the persons
    between fetch and move; the comment at the call site says the function
    works on the distinct ids fetched for [otherPerson] and that the race is
    a person deleted in between. Hence: the rows [fetchDistinctIds] returns
    are moved one by one with [moveDistinctId], and a foreign-key violation
    (the target no longer exists) surfaces as RaceConditionError. *)
Definition moveDistinctIds (source target : Person.t) : M unit :=
  try_catch
    (otherPersonDistinctIds <- fetchDistinctIds source ;;
     for_each (λ personDistinctId, moveDistinctId source personDistinctId target)
       otherPersonDistinctIds)
    (λ error,
       if bool_decide (error = DatabaseError foreign_key_violation)
       then throw (RaceConditionError
                     "Failed trying to move distinct IDs because a person no longer exists.")
       else throw error).

Definition fetchOrganization_text : string :=
  "SELECT * FROM posthog_organization WHERE id $1".

Definition fetchOrganization (organizationId : string) : M (option RawOrganization.t) :=
  selectResult <-
    postgresQuery (select_organization fetchOrganization_text organizationId) ;;
  ret (head selectResult).

Definition createElementGroup (elements : list Element) (teamId : Z) : M string :=
  let cleanedElements :=
    imap (λ index element, <["order" := VNum (Z.of_nat index)]> element) elements in
  let hash := hashElements cleanedElements in
  try_catch
    (postgresTransaction
       (elementGroup <- client_query (insert_elementgroup hash teamId) ;;
        for_each
          (λ element, client_query (insert_element element (ElementGroup.id elementGroup)))
          cleanedElements))
    (λ error,
       if bool_decide (error = DatabaseError unique_violation)
       then ret tt
       else throw error) ;;;
  ret hash.
End DB.

(** ** The event processor ([EventsProcessor]) *)

Definition MAX_FAILED_PERSON_MERGE_ATTEMPTS : Z := 3.

Definition EVENTS_WITHOUT_EVENT_DEFINITION : list string := ["$$plugin_metrics"].

(** Sequencing of fallible library calls. *)
Definition and_then {A B} (r : result A) (k : A → result B) : result B :=
  match r with
  | Ok a => k a
  | Throw e => Throw e
  | OutOfFuel => OutOfFuel
  end.

(** The outcome of an awaited call, as a value. *)
Definition attempt {A} (m : M A) : M (result A) := λ w,
  let (r, w') := m w in (Ok r, w').

(** How the retry loop of [mergePeople] is left. *)
Inductive loop_exit : Type :=
  | LoopDone
  | LoopRetryAlias
  | LoopThrow (e : error)
  | LoopOutOfFuel.

Module MergeArgs.
Record t : Type := mk {
  mergeInto : Person.t;
  mergeIntoDistinctId : string;
  otherPerson : Person.t;
  otherPersonDistinctId : option string;
  totalMergeAttempts : Z
}.
End MergeArgs.

Module EventProcessingResult.
Record t : Type := mk {
  event : IEvent.t;
  eventId : option Z;
  elements : list Element
}.
End EventProcessingResult.

Section EventsProcessor.
Context `{Collaborators}.

(** A distinct id read from a property, as the statements of the person
    store receive it. The declared type is [string], the value is whatever
    the event holds: [undefined] and [null] reach the database as NULL
    ([None]), any other value that is not a string as the text node-postgres
    makes of it. *)
Definition as_distinct_id (v : option value) : option string :=
  match v with
  | None | Some VNull => None
  | Some (VStr s) => Some s
  | Some v => Some (prepareValue v)
  end.

(** [JSON.stringify] of a possibly missing value: [undefined] for
    [undefined]. *)
Definition stringify (v : option value) : option string :=
  match v with
  | Some v => Some (JSON_stringify v)
  | None => None
  end.

(** Line 173: [now.plus(DateTime.fromJSDate(new Date(timestamp)).diff(sentAt))]. *)
Definition handleTimestamp_skew (timestamp : string) (now sentAt : DateTime)
    : result DateTime :=
  and_then (DateTime_fromJSDate (Date_parse timestamp)) (λ t,
  and_then (DateTime_diff t sentAt) (λ d,
  DateTime_plus now d)).

(** [handleTimestamp], lines 165-185. *)
Definition handleTimestamp (data : PluginEvent.t) (now : DateTime)
    (sentAt : option DateTime) : M DateTime :=
  if truthy_ostr (PluginEvent.timestamp data)
  then
    let timestamp := default "" (PluginEvent.timestamp data) in
    match sentAt with
    | Some sentAt' =>
        try_catch
          (lift (handleTimestamp_skew timestamp now sentAt'))
          (λ error,
             log (StatusError "Error when handling timestamp:" error) ;;;
             Sentry_captureException error (ExtraTimestamp data now sentAt) ;;;
             lift (DateTime_fromISO timestamp))
    | None => lift (DateTime_fromISO timestamp)
    end
  else
    match PluginEvent.offset data with
    | Some offset =>
        if negb (Z.eqb offset 0)
        then lift (DateTime_minus now (Duration_fromMillis offset))
        else ret now
    | None => ret now
    end.

(** [setIsIdentified(teamId, distinctId, isIdentified = true)]. *)
Definition setIsIdentified (teamId : Z) (distinctId : string) (isIdentified : bool)
    : M unit :=
  personFound <- fetchPerson teamId (Some distinctId) ;;
  personFound <-
    match personFound with
    | Some p => ret (Some p)
    | None =>
        try_catch
          (now <- DateTime_utc ;;
           uuid <- new_UUIDT ;;
           created <- createPerson now ∅ teamId None true uuid [Some distinctId] ;;
           ret (Some created))
          (λ _, fetchPerson teamId (Some distinctId))
    end ;;
  match personFound with
  | Some p =>
      if negb (Person.is_identified p)
      then
        updatePerson p (PersonUpdate.mk None None (Some isIdentified)) ;;;
        ret tt
      else ret tt
  | None => ret tt
  end.

(** Lines 234-256 of [updatePersonProperties]: the person is fetched, or
    created with the [$set] properties when absent, or fetched again when
    the creation lost a race. *)
Definition updatePersonProperties_find (teamId : Z) (distinctId : string)
    (properties : Properties) : M Person.t :=
  personFound <- fetchPerson teamId (Some distinctId) ;;
  personFound <-
    match personFound with
    | Some p => ret (Some p)
    | None =>
        try_catch
          (now <- DateTime_utc ;;
           uuid <- new_UUIDT ;;
           created <- createPerson now properties teamId None false uuid [Some distinctId] ;;
           ret (Some created))
          (λ _, fetchPerson teamId (Some distinctId))
    end ;;
  match personFound with
  | Some p => ret p
  | None =>
      throw (Error ("Could not find person with distinct id " +:+ quoted distinctId
                    +:+ " in team " +:+ quoted (pretty teamId)
                    +:+ ", even after trying to insert them"))
  end.

(** [updatePersonProperties], lines 227-280. *)
Definition updatePersonProperties (teamId : Z) (distinctId : string)
    (properties propertiesOnce : Properties) (incrementProperties : gmap string Z)
    : M Person.t :=
  personFound <- updatePersonProperties_find teamId distinctId properties ;;
  let updatedProperties : Properties :=
    propertiesOnce ⊕ Person.properties personFound ⊕ properties in
  let areTherePropsToIncrement := negb (bool_decide (incrementProperties = ∅)) in
  incrementedPropertiesQueryResult <-
    (if areTherePropsToIncrement
     then
       rows <- incrementPersonProperties personFound incrementProperties ;;
       ret (Some rows)
     else ret None) ;;
  let arePersonsEqualExcludingIncrement :=
    equal (Person.properties personFound) updatedProperties in
  if arePersonsEqualExcludingIncrement
     && (negb kafkaProducer || negb areTherePropsToIncrement)
  then ret personFound
  else
    let updatedProperties :=
      match incrementedPropertiesQueryResult with
      | Some (row :: _) => updatedProperties ⊕ row
      | _ => updatedProperties
      end in
    updatePerson personFound (PersonUpdate.mk None (Some updatedProperties) None).

(** The [while (true)] loop of [mergePeople], lines 396-428. It returns how
    it was left together with the final [failedAttempts]. *)
Fixpoint mergePeople_loop (fuel : nat) (mergeInto : Person.t)
    (mergeIntoDistinctId : string) (otherPerson : Person.t)
    (otherPersonDistinctId : option string) (failedAttempts : Z) : M (loop_exit * Z) :=
  match fuel with
  | O => ret (LoopOutOfFuel, failedAttempts)
  | S fuel' =>
      moved <- attempt (moveDistinctIds otherPerson mergeInto) ;;
      match moved with
      | Throw error =>
          Sentry_captureException error
            (ExtraMerge mergeInto mergeIntoDistinctId otherPerson otherPersonDistinctId) ;;;
          let failedAttempts := failedAttempts + 1 in
          if is_RaceConditionError error
             && (failedAttempts <? MAX_FAILED_PERSON_MERGE_ATTEMPTS)
          then ret (LoopRetryAlias, failedAttempts)
          else ret (LoopThrow error, failedAttempts)
      | OutOfFuel => ret (LoopOutOfFuel, failedAttempts)
      | Ok _ =>
          deleted <- attempt (deletePerson otherPerson) ;;
          match deleted with
          | Ok _ => ret (LoopDone, failedAttempts)
          | Throw error =>
              if negb (is_DatabaseError error)
              then ret (LoopThrow error, failedAttempts)
              else
                let failedAttempts := failedAttempts + 1 in
                if failedAttempts =? MAX_FAILED_PERSON_MERGE_ATTEMPTS
                then ret (LoopThrow error, failedAttempts)
                else
                  mergePeople_loop fuel' mergeInto mergeIntoDistinctId otherPerson
                    otherPersonDistinctId failedAttempts
          | OutOfFuel => ret (LoopOutOfFuel, failedAttempts)
          end
      end
  end.

(** [mergePeople], lines 351-433, with the recursive call to [alias] as a
    parameter; [fuel] bounds the iterations of the loop. The assignment to
    [mergeInto.properties] is the rebinding of [mergeInto]. *)
Definition mergePeople_with (alias : option string → string → Z → bool → Z → M unit)
    (fuel : nat) (args : MergeArgs.t) : M unit :=
  let mergeInto := MergeArgs.mergeInto args in
  let otherPerson := MergeArgs.otherPerson args in
  let teamId := Person.team_id mergeInto in
  let firstSeen := Person.created_at mergeInto in
  let mergeInto :=
    Person.with_properties
      (Person.properties otherPerson ⊕ Person.properties mergeInto) mergeInto in
  let firstSeen :=
    if Person.created_at otherPerson <? firstSeen
    then Person.created_at otherPerson
    else firstSeen in
  updatePerson mergeInto
    (PersonUpdate.mk (Some firstSeen) (Some (Person.properties mergeInto)) None) ;;;
  postgresQuery (update_cohortpeople_person (Person.id mergeInto) (Person.id otherPerson)) ;;;
  left <-
    mergePeople_loop fuel mergeInto (MergeArgs.mergeIntoDistinctId args) otherPerson
      (MergeArgs.otherPersonDistinctId args) (MergeArgs.totalMergeAttempts args) ;;
  match left with
  | (LoopDone, _) => ret tt
  | (LoopThrow error, _) => throw error
  | (LoopOutOfFuel, _) => out_of_fuel
  | (LoopRetryAlias, failedAttempts) =>
      alias (MergeArgs.otherPersonDistinctId args) (MergeArgs.mergeIntoDistinctId args)
        teamId false failedAttempts
  end.

(** [alias], lines 282-349. [fuel] bounds the depth of the calls between
    [alias] and [mergePeople]. [previousDistinctId] is read from a property
    of the event, so it can be missing ([None], see [as_distinct_id]);
    [distinctId] is the distinct id of the event. *)
Fixpoint alias (fuel : nat) (previousDistinctId : option string) (distinctId : string)
    (teamId : Z) (retryIfFailed : bool) (totalMergeAttempts : Z) : M unit :=
  match fuel with
  | O => out_of_fuel
  | S fuel' =>
      let retry (error : error) : M unit :=
        Sentry_captureException error NoExtra ;;;
        when retryIfFailed (alias fuel' previousDistinctId distinctId teamId false 0) in
      oldPerson <- fetchPerson teamId previousDistinctId ;;
      newPerson <- fetchPerson teamId (Some distinctId) ;;
      match oldPerson, newPerson with
      | Some oldPerson, None =>
          try_catch (addDistinctId oldPerson (Some distinctId)) retry
      | None, Some newPerson =>
          try_catch (addDistinctId newPerson previousDistinctId) retry
      | None, None =>
          try_catch
            (now <- DateTime_utc ;;
             uuid <- new_UUIDT ;;
             createPerson now ∅ teamId None false uuid
               [Some distinctId; previousDistinctId] ;;;
             ret tt)
            retry
      | Some oldPerson, Some newPerson =>
          if bool_decide (Person.id oldPerson ≠ Person.id newPerson)
          then
            mergePeople_with (alias fuel') (S fuel')
              (MergeArgs.mk newPerson distinctId oldPerson previousDistinctId
                 totalMergeAttempts)
          else ret tt
      end
  end.

Definition mergePeople (fuel : nat) (args : MergeArgs.t) : M unit :=
  mergePeople_with (alias fuel) (S fuel) args.

(** [handleIdentifyOrAlias], lines 187-201. *)
Definition handleIdentifyOrAlias (fuel : nat) (event : string) (properties : Properties)
    (distinctId : string) (teamId : Z) : M unit :=
  if String.eqb event "$create_alias"
  then alias fuel (as_distinct_id (properties !! "alias")) distinctId teamId true 0
  else if String.eqb event "$identify"
  then
    when (truthy_opt (properties !! "$anon_distinct_id"))
      (alias fuel (as_distinct_id (properties !! "$anon_distinct_id")) distinctId teamId
         true 0) ;;;
    setIsIdentified teamId distinctId true
  else ret tt.

(** [createPersonIfDistinctIdIsNew], lines 608-623. *)
Definition createPersonIfDistinctIdIsNew (teamId : Z) (distinctId : string)
    (sentAt : DateTime) (personUuid : string) : M unit :=
  isNew <- isNewPerson teamId distinctId ;;
  when isNew
    (try_catch
       (createPerson sentAt ∅ teamId None false personUuid [Some distinctId] ;;; ret tt)
       (λ error,
          Sentry_captureException error
            (ExtraNewPerson teamId distinctId sentAt personUuid))).

(** [createEvent], lines 498-562. *)
Definition createEvent (uuid event : string) (teamId : Z) (distinctId : string)
    (properties : option Properties) (timestamp : option DateTime)
    (elements : list Element) (siteUrl : string)
    : M (IEvent.t * option Z * list Element) :=
  now <- gets clock ;;
  let timestampString :=
    castTimestampOrNow timestamp (if kafkaProducer then ClickHouse else ISO) now in
  let elementsChain :=
    if negb (bool_decide (elements = [])) then elementsToString elements else "" in
  let eventPayload :=
    IEvent.mk uuid event (JSON_stringify (VObj (default ∅ properties))) timestampString
      teamId distinctId elementsChain timestampString in
  if kafkaProducer
  then
    queueMessage
      (ProducerRecord.mk KAFKA_EVENTS [Message.mk (Some uuid) (BufferProto eventPayload)]) ;;;
    ret (eventPayload, None, elements)
  else
    elementsHash <-
      (if negb (bool_decide (elements = []))
       then createElementGroup elements teamId
       else ret "") ;;
    row <-
      postgresQuery
        (insert_event (IEvent.createdAt eventPayload) (IEvent.event eventPayload)
           distinctId (IEvent.properties eventPayload) (IEvent.teamId eventPayload)
           (IEvent.timestamp eventPayload) (JSON_stringify (VArr (VObj <$> elements)))
           elementsHash) ;;
    ret (eventPayload, Some (Event.id row), elements).

(** The object [JSON.stringify(data)] serialises: a field that is
    [undefined] is left out. *)
Definition SessionRecordingEvent_json (d : SessionRecordingEvent.t) : Properties :=
  let session :=
    match SessionRecordingEvent.session_id d with
    | Some v => <["session_id" := v]> ∅
    | None => ∅
    end in
  let snapshot :=
    match SessionRecordingEvent.snapshot_data d with
    | Some text => <["snapshot_data" := VStr text]> session
    | None => session
    end in
  <["uuid" := VStr (SessionRecordingEvent.uuid d)]>
    (<["team_id" := VNum (SessionRecordingEvent.team_id d)]>
       (<["distinct_id" := VStr (SessionRecordingEvent.distinct_id d)]>
          (<["timestamp" := VStr (SessionRecordingEvent.timestamp d)]>
             (<["created_at" := VStr (SessionRecordingEvent.created_at d)]> snapshot)))).

(** [createSessionRecordingEvent], lines 564-606. *)
Definition createSessionRecordingEvent (uuid : string) (team_id : Z)
    (distinct_id : string) (session_id : option value) (timestamp : DateTime)
    (snapshot_data : option value) (personUuid : string)
    : M (SessionRecordingEvent.t + PostgresSessionRecordingEvent.t) :=
  now <- gets clock ;;
  let timestampString :=
    castTimestampOrNow (Some timestamp) (if kafkaProducer then ClickHouse else ISO) now in
  utc <- DateTime_utc ;;
  createPersonIfDistinctIdIsNew team_id distinct_id utc personUuid ;;;
  let data :=
    SessionRecordingEvent.mk uuid team_id distinct_id session_id (stringify snapshot_data)
      timestampString timestampString in
  if kafkaProducer
  then
    queueMessage
      (ProducerRecord.mk KAFKA_SESSION_RECORDING_EVENTS
         [Message.mk (Some uuid) (BufferJSON (SessionRecordingEvent_json data))]) ;;;
    ret (inl data)
  else
    eventCreated <-
      postgresQuery
        (insert_sessionrecordingevent (SessionRecordingEvent.created_at data)
           (SessionRecordingEvent.team_id data) (SessionRecordingEvent.distinct_id data)
           (SessionRecordingEvent.session_id data) (SessionRecordingEvent.timestamp data)
           (SessionRecordingEvent.snapshot_data data)) ;;
    ret (inr eventCreated).

(** Lines 462-464 of [capture]: the [$ip] property. *)
Definition capture_ip (ip : option string) (team : Team.t) (properties : Properties)
    : Properties :=
  if truthy_ostr ip
     && negb (Team.anonymize_ips team)
     && negb (bool_decide (is_Some (properties !! "$ip")))
  then <["$ip" := VStr (default "" ip)]> properties
  else properties.

(** [properties['$set'] || {}], read as a property map. *)
Definition or_empty (v : option value) : Properties :=
  if truthy_opt v then spread v else ∅.

(** [capture], lines 435-496. *)
Definition capture (eventUuid personUuid : string) (ip : option string)
    (siteUrl : string) (teamId : Z) (event distinctId : string)
    (properties : Properties) (timestamp : DateTime) (sentAt : option DateTime)
    : M (IEvent.t * option Z * list Element) :=
  let event := sanitizeEventName event in
  let elements := properties !! "$elements" in
  let has_elements :=
    match elements with
    | Some v => truthy v && length_truthy v
    | None => false
    end in
  let elementsList :=
    match elements with
    | Some v => if has_elements then extractElements v else []
    | None => []
    end in
  let properties := if has_elements then delete "$elements" properties else properties in
  team <- fetchTeam teamId ;;
  match team with
  | None =>
      throw (Error ("No team found with ID " +:+ pretty teamId +:+ ". Can't ingest event."))
  | Some team =>
      let properties := capture_ip ip team properties in
      when (negb (bool_decide (event ∈ EVENTS_WITHOUT_EVENT_DEFINITION)))
        (updateEventNamesAndProperties teamId event properties) ;;;
      utc <- DateTime_utc ;;
      createPersonIfDistinctIdIsNew teamId distinctId (default utc sentAt) personUuid ;;;
      let properties := personInitialAndUTMProperties properties in
      when (truthy_opt (properties !! "$set")
            || truthy_opt (properties !! "$set_once")
            || truthy_opt (properties !! "$increment"))
        (updatePersonProperties teamId distinctId
           (or_empty (properties !! "$set"))
           (or_empty (properties !! "$set_once"))
           (filterIncrementProperties (properties !! "$increment")) ;;;
         ret tt) ;;;
      createEvent eventUuid event teamId distinctId (Some properties) (Some timestamp)
        elementsList siteUrl
  end.

(** Lines 87-93 of [processEvent]: the top-level [$set] and [$set_once] of
    the event are merged into its properties. *)
Definition sanitize_properties (data : PluginEvent.t) : Properties :=
  let properties := default ∅ (PluginEvent.properties data) in
  let properties :=
    match PluginEvent.set data with
    | Some s => <["$set" := VObj (spread (properties !! "$set") ⊕ s)]> properties
    | None => properties
    end in
  match PluginEvent.set_once data with
  | Some s => <["$set_once" := VObj (spread (properties !! "$set_once") ⊕ s)]> properties
  | None => properties
  end.

(** The event as the error sink sees it: [properties] is the object of the
    event itself when it has one, so it carries the merged entries. *)
Definition data_seen (data : PluginEvent.t) (properties : Properties) : PluginEvent.t :=
  match PluginEvent.properties data with
  | Some _ => PluginEvent.with_properties properties data
  | None => data
  end.

(** Lines 98-108: the identity step under its [try]/[catch]. *)
Definition processEvent_identify (fuel : nat) (data : PluginEvent.t)
    (properties : Properties) (distinctId : string) (teamId : Z) : M unit :=
  try_catch
    (handleIdentifyOrAlias fuel (PluginEvent.event data) properties distinctId teamId)
    (λ e,
       log (ConsoleError "handleIdentifyOrAlias failed" e (data_seen data properties)) ;;;
       Sentry_captureException e (ExtraEvent (data_seen data properties))).

(** Lines 110-158: the session-recording branch or the capture branch. *)
Definition processEvent_emit (distinctId : string) (ip : option string) (siteUrl : string)
    (data : PluginEvent.t) (teamId : Z) (sentAt : option DateTime) (eventUuid : string)
    (properties : Properties) (personUuid : string) (ts : DateTime)
    : M (option EventProcessingResult.t) :=
  if String.eqb (PluginEvent.event data) "$snapshot"
  then
    createSessionRecordingEvent eventUuid teamId distinctId (properties !! "$session_id")
      ts (properties !! "$snapshot_data") personUuid ;;;
    ret None
  else
    captured <-
      capture eventUuid personUuid ip siteUrl teamId (PluginEvent.event data) distinctId
        properties ts sentAt ;;
    ret (Some (EventProcessingResult.mk captured.1.1 captured.1.2 captured.2)).

(** Lines 79-162: what [processEvent] does once the identifier is accepted.
    The watchdogs ([timeoutGuard]) and the timing metric only log and
    measure; they are not part of the world. *)
Definition processEvent_body (fuel : nat) (distinctId : string) (ip : option string)
    (siteUrl : string) (data : PluginEvent.t) (teamId : Z) (now : DateTime)
    (sentAt : option DateTime) (eventUuid : string)
    : M (option EventProcessingResult.t) :=
  let properties := sanitize_properties data in
  personUuid <- new_UUIDT ;;
  ts <- handleTimestamp (data_seen data properties) now sentAt ;;
  processEvent_identify fuel data properties distinctId teamId ;;;
  processEvent_emit distinctId ip siteUrl data teamId sentAt eventUuid properties
    personUuid ts.

(** [processEvent], lines 66-163. *)
Definition processEvent (fuel : nat) (distinctId : string) (ip : option string)
    (siteUrl : string) (data : PluginEvent.t) (teamId : Z) (now : DateTime)
    (sentAt : option DateTime) (eventUuid : string)
    : M (option EventProcessingResult.t) :=
  if negb (UUID_validateString eventUuid)
  then throw (Error ("Not a valid UUID: " +:+ quoted eventUuid))
  else
    processEvent_body fuel distinctId ip siteUrl data teamId now sentAt eventUuid.
End EventsProcessor.

(** ** A reference instance of the collaborators *)

(** Concrete collaborators, used to run the model on the scenarios of the
    specification. Dates are read in the format [YYYY-MM-DDTHH:MM:SSZ] and
    printed as their millisecond count; identifiers are checked against the
    textual form of a UUID. *)
Module Reference.
Definition digit (c : ascii) : option Z :=
  let n := Z.of_nat (nat_of_ascii c) in
  if (48 <=? n) && (n <=? 57) then Some (n - 48) else None.

Fixpoint number (cs : list ascii) (acc : Z) : option Z :=
  match cs with
  | [] => Some acc
  | c :: cs' => d ← digit c; number cs' (10 * acc + d)
  end.

Definition field (s : string) (start len : nat) : option Z :=
  let part := String.substring start len s in
  if bool_decide (String.length part = len)
  then number (String.list_ascii_of_string part) 0
  else None.

Definition separator (s : string) (i : nat) (c : string) : bool :=
  bool_decide (String.substring i 1 s = c).

(** Days between 1970-01-01 and a date of the proleptic Gregorian calendar. *)
Definition days_from_civil (y m d : Z) : Z :=
  let y' := if m <=? 2 then y - 1 else y in
  let era := y' / 400 in
  let yoe := y' - era * 400 in
  let doy := (153 * (if 2 <? m then m - 3 else m + 9) + 2) / 5 + d - 1 in
  let doe := yoe * 365 + yoe / 4 - yoe / 100 + doy in
  era * 146097 + doe - 719468.

Definition iso_parse (s : string) : option Z :=
  if bool_decide (String.length s = 20%nat)
     && separator s 4 "-" && separator s 7 "-" && separator s 10 "T"
     && separator s 13 ":" && separator s 16 ":" && separator s 19 "Z"
  then
    y ← field s 0 4;
    mo ← field s 5 2;
    d ← field s 8 2;
    h ← field s 11 2;
    mi ← field s 14 2;
    se ← field s 17 2;
    if (1 <=? mo) && (mo <=? 12) && (1 <=? d) && (d <=? 31)
       && (h <? 24) && (mi <? 60) && (se <? 60)
    then Some ((((days_from_civil y mo d * 24 + h) * 60 + mi) * 60 + se) * 1000)
    else None
  else None.

Definition is_hex (c : ascii) : bool :=
  let n := Z.of_nat (nat_of_ascii c) in
  ((48 <=? n) && (n <=? 57)) || ((97 <=? n) && (n <=? 102)) || ((65 <=? n) && (n <=? 70)).

Fixpoint uuid_shape (i : nat) (cs : list ascii) : bool :=
  match cs with
  | [] => bool_decide (i = 36%nat)
  | c :: cs' =>
      (if bool_decide (i ∈ [8; 13; 18; 23]%nat)
       then bool_decide (c = "-"%char)
       else is_hex c)
      && uuid_shape (S i) cs'
  end.

Definition validateString (s : string) : bool :=
  uuid_shape 0 (String.list_ascii_of_string s).

Fixpoint to_json (v : value) : string :=
  match v with
  | VNull => "null"
  | VBool b => if b then "true" else "false"
  | VNum z => pretty z
  | VStr s => "<" +:+ s +:+ ">"
  | VArr l => "[" +:+ foldr (λ x acc, to_json x +:+ "," +:+ acc) "" l +:+ "]"
  | VObj o =>
      "{" +:+ map_fold (λ k x acc, k +:+ ":" +:+ to_json x +:+ "," +:+ acc) "" o +:+ "}"
  end.

Definition cast (timestamp : option DateTime) (format : TimestampFormat) (now : Z)
    : string :=
  let prefix :=
    match format with
    | ClickHouseSecondPrecision => "ch-s:"
    | ClickHouse => "ch:"
    | ISO => "iso:"
    end in
  match timestamp with
  | Some (Valid ms) => prefix +:+ pretty ms
  | Some Invalid => prefix +:+ "invalid"
  | None => prefix +:+ pretty now
  end.

Definition numeric (v : option value) : gmap string Z :=
  match v with
  | Some (VObj o) => omap (λ x, match x with VNum z => Some z | _ => None end) o
  | _ => ∅
  end.

Definition elements_of (v : value) : list Element :=
  match v with
  | VArr l => omap (λ x, match x with VObj o => Some o | _ => None end) l
  | _ => []
  end.

(** The team manager knows team 2, which keeps IP addresses, and team 3,
    which anonymises them. The person manager asks the person table. *)
Definition team (teamId : Z) : M (option Team.t) :=
  ret (if teamId =? 2 then Some (Team.mk 2 false)
       else if teamId =? 3 then Some (Team.mk 3 true)
       else None).

Definition is_new (teamId : Z) (distinctId : string) : M bool :=
  gets (λ w,
    bool_decide (select_person_by_distinct_id teamId (Some distinctId) (tables w) = [])).

Definition collaborators (kafka ch : bool) : Collaborators := {|
  kafkaProducer := kafka;
  clickhouse := ch;
  Date_parse := iso_parse;
  DateTime_fromISO := λ s,
    match iso_parse s with Some ms => Ok (Valid ms) | None => Ok Invalid end;
  invalid_DateTime := Ok Invalid;
  invalid_Duration := Ok DInvalid;
  plus_invalid_Duration := Throw (Error "Invalid unit value NaN");
  UUID_validateString := validateString;
  UUIDT_toString := λ n, "uuidt-" +:+ pretty n;
  castTimestampOrNow := cast;
  filterIncrementProperties := numeric;
  JSON_stringify := to_json;
  prepareValue := to_json;
  sanitizeEventName := λ s, s;
  extractElements := elements_of;
  elementsToString := λ l, to_json (VArr (VObj <$> l));
  hashElements := λ l, to_json (VArr (VObj <$> l));
  personInitialAndUTMProperties := λ p, p;
  fetchTeam := team;
  updateEventNamesAndProperties := λ _ _ _, ret tt;
  isNewPerson := is_new;
  incrementPersonProperties := λ _ _, ret []
|}.
End Reference.

(** ** Concrete worlds *)

Definition no_tables : Tables := mkTables [] [] [] [] [] [] [] [].

Definition no_faults : nat → option fault := λ _, None.

(** A world with the given tables, an idle environment and the clock at
    2024-01-01T00:00:05Z. *)
Definition world_of (t : Tables) (seq : Z) (f : nat → option fault) : World :=
  mkWorld t seq [] [] [] [] 1704067205000 0 0 f.

Definition empty_world : World := world_of no_tables 1 no_faults.

(** * Specification vocabulary *)

(** [spec I m Q E]: started in a world where the invariant [I] holds, [m]
    terminates within its fuel, leaves a world where [I] holds, and either
    returns a value satisfying [Q] or throws an error satisfying [E]. *)
Definition spec {A} (I : World → Prop) (m : M A) (Q : A → Prop) (E : error → Prop) : Prop :=
  ∀ w, I w →
    I (m w).2
    ∧ match (m w).1 with
      | Ok a => Q a
      | Throw e => E e
      | OutOfFuel => False
      end.

Definition any {A} : A → Prop := λ _, True.

(** Invariants and the parts of the world they may ignore: the bookkeeping
    of calls and sequences, and the relational tables. *)
Class Bookkeeping (I : World → Prop) : Prop := {
  stable_tick w n : I w → I (set_tick n w);
  stable_sequence w n : I w → I (set_sequence n w)
}.

Class TablesFree (I : World → Prop) : Prop :=
  stable_tables w t : I w → I (set_tables t w).

(** Invariants that, beside the bookkeeping, ignore the producer, ClickHouse,
    the error sink, the logs and the UUID counter. *)
Class Silent (I : World → Prop) : Prop := {
  silent_bookkeeping :: Bookkeeping I;
  stable_kafka w k : I w → I (set_kafka k w);
  stable_clickhouse w c : I w → I (set_clickhouse_mutations c w);
  stable_sentry w s : I w → I (set_sentry s w);
  stable_logs w l : I w → I (set_logs l w);
  stable_uuids w n : I w → I (set_uuids n w)
}.

(** The records published for a person with the given uuid: one message,
    without a key, whose value names the person by uuid. *)
Definition person_record (uuid : string) (r : ProducerRecord.t) : Prop :=
  ∃ obj, r = ProducerRecord.mk KAFKA_PERSON [Message.mk None (BufferJSON obj)]
         ∧ obj !! "id" = Some (VStr uuid).

Definition distinct_id_record (uuid : string) (r : ProducerRecord.t) : Prop :=
  ∃ obj, r = ProducerRecord.mk KAFKA_PERSON_UNIQUE_ID [Message.mk None (BufferJSON obj)]
         ∧ obj !! "person_id" = Some (VStr uuid).

Definition person_mutation_record (uuid : string) (r : ProducerRecord.t) : Prop :=
  person_record uuid r ∨ distinct_id_record uuid r.

(** The producer log of [w] is that of [w0] followed by records satisfying [P]. *)
Definition published (P : ProducerRecord.t → Prop) (w0 w : World) : Prop :=
  ∃ new, kafka w = (kafka w0 ++ new)%list ∧ Forall P new.

(** The event of scenario S2. *)
Definition s2_event : PluginEvent.t :=
  PluginEvent.mk "d1" None "http://localhost" 2 "pageview" None
    (Some "2023-12-31T23:59:50Z") None None None.


Definition organization_tables : Tables :=
  mkTables [] [] [] [] [] [] [] [RawOrganization.mk "org-1" "Hogflix"].

(** Scenario S6: a person with [color: red] receives [$set_once] with
    [color: blue] and [size: L]. *)
Definition s6_person : Person.t :=
  Person.mk 1 "017dc2cb-9fe0-0000-ceed-ab8b8b89b1ad" 2 1704067200000
    (<["color" := VStr "red"]> ∅) None false.

Definition s6_world : World :=
  world_of
    (mkTables [s6_person] [PersonDistinctId.mk 10 1 "d1" 2] [] [] [] [] [] [])
    20 no_faults.

Definition s6_set_once : Properties :=
  <["color" := VStr "blue"]> (<["size" := VStr "L"]> ∅).





(** Invariants that read the tables only. *)
Definition on_tables (T : Tables → Prop) : World → Prop := λ w, T (tables w).

(** The distinct-id rows of a person, as [fetchDistinctIds] selects them. *)
Definition attached (p : Person.t) (d : PersonDistinctId.t) : Prop :=
  PersonDistinctId.person_id d = Person.id p ∧ PersonDistinctId.team_id d = Person.team_id p.
#[global] Instance attached_dec p d : Decision (attached p d).
Proof. unfold attached. apply _. Defined.

Definition keeps_persons (ps : list Person.t) (t : Tables) : Prop :=
  ∀ p, p ∈ ps → p ∈ posthog_person t.

(** Each of the rows [ds] is in the table, as it was or moved to [target]. *)
Definition moving (ds : list PersonDistinctId.t) (target : Z) (t : Tables) : Prop :=
  ∀ d, d ∈ ds →
    d ∈ posthog_persondistinctid t
    ∨ PersonDistinctId.with_person_id target d ∈ posthog_persondistinctid t.

Definition moved_all (ds : list PersonDistinctId.t) (target : Z) (t : Tables) : Prop :=
  ∀ d, d ∈ ds → PersonDistinctId.with_person_id target d ∈ posthog_persondistinctid t.

(** The state of the tables while [other] is merged into [into]: the rows
    [ps] of [into] are there, and the rows [ds] are there, moved or not. *)
Definition merging (into : Person.t) (ps : list Person.t) (ds : list PersonDistinctId.t)
    (t : Tables) : Prop :=
  keeps_persons ps t ∧ moving ds (Person.id into) t.

(** The same once every row of [ds] is moved. *)
Definition merged (into : Person.t) (ps : list Person.t) (ds : list PersonDistinctId.t)
    (t : Tables) : Prop :=
  keeps_persons ps t ∧ moved_all ds (Person.id into) t.

(** Scenario S3: person A (distinct id [a], created at T0) and person B
    (distinct id [b], created at T0 + 10); the alias event makes [mergePeople]
    merge A into B. *)
Definition s3_A : Person.t :=
  Person.mk 1 "017dc2cb-9fe0-0000-ceed-00000000000a" 2 1704067200000
    (<["plan" := VStr "free"]> (<["city" := VStr "Wien"]> ∅)) None false.

Definition s3_B : Person.t :=
  Person.mk 2 "017dc2cb-9fe0-0000-ceed-00000000000b" 2 1704067200010
    (<["plan" := VStr "paid"]> ∅) None false.


Definition s3_args : MergeArgs.t := MergeArgs.mk s3_B "b" s3_A (Some "a") 0.


(** The reports [mergePeople] sends to the error sink for a failed move,
    those with the two persons attached, and how many of them a world holds. *)
Definition is_merge_report (r : SentryReport.t) : bool :=
  match SentryReport.extra r with
  | ExtraMerge _ _ _ _ => true
  | _ => false
  end.

Definition merge_reports (w : World) : nat :=
  length (filter (λ r, is_merge_report r = true) (sentry w)).

Definition reports_within (n : nat) : World → Prop := λ w, (merge_reports w ≤ n)%nat.

Section Vocabulary.
Context `{Collaborators}.

Definition sink_format : TimestampFormat := if kafkaProducer then ClickHouse else ISO.



End Vocabulary.

(** ** Vocabulary of the further properties *)

(** What one call to a storage adapter yields when the statement itself has
    the outcome [r]: the fault of the environment, if any, comes first. *)
Definition after_fault {A} (w : World) (r : result A) : result A :=
  match faults w (tick w) with
  | Some f => Throw (fault_error f)
  | None => r
  end.

(** The row of [posthog_persondistinctid] and the person of [posthog_person]
    are joined by [fetchPerson] for the team and the distinct id; none is
    when the distinct id is sent as NULL. *)
Definition joined (teamId : Z) (distinctId : option string) (p : Person.t)
    (d : PersonDistinctId.t) : Prop :=
  PersonDistinctId.person_id d = Person.id p
  ∧ Person.team_id p = teamId
  ∧ PersonDistinctId.team_id d = teamId
  ∧ Some (PersonDistinctId.distinct_id d) = distinctId.

(** [keeps I m]: whatever [m] does and however it ends, it leaves a world
    where [I] holds when it starts in one. *)
Definition keeps {A} (I : World → Prop) (m : M A) : Prop :=
  ∀ w, I w → I (m w).2.

(** Invariants by what they are insensitive to: a rollback to tables that
    satisfied them, the rows of persons and distinct ids, the rows of
    cohort memberships, the diagnostics other than the error sink, the error
    sink, a record appended to the producer log when it satisfies [P]. *)
Class Rollback (I : World → Prop) : Prop :=
  stable_rollback w w' : I w → I w' → I (set_tables (tables w) w').

Class PersonWrites (I : World → Prop) : Prop := {
  stable_person w l :
    I w → I (set_tables (set_posthog_person l (tables w)) w);
  stable_persondistinctid w l :
    I w → I (set_tables (set_posthog_persondistinctid l (tables w)) w)
}.

Class CohortWrites (I : World → Prop) : Prop :=
  stable_cohortpeople w l :
    I w → I (set_tables (set_posthog_cohortpeople l (tables w)) w).

Class Quiet (I : World → Prop) : Prop := {
  quiet_logs w l : I w → I (set_logs l w);
  quiet_uuids w n : I w → I (set_uuids n w);
  quiet_clickhouse w c : I w → I (set_clickhouse_mutations c w)
}.

Class Unreported (I : World → Prop) : Prop :=
  quiet_sentry w s : I w → I (set_sentry s w).

Class Publishes (P : ProducerRecord.t → Prop) (I : World → Prop) : Prop :=
  stable_publish w r : P r → I w → I (set_kafka (kafka w ++ [r]) w).

(** The producer log is [k]. *)
Definition kafka_is (k : list ProducerRecord.t) : World → Prop := λ w, kafka w = k.

(** A row of the team with the distinct id exists. *)
Definition distinct_id_taken (teamId : Z) (distinctId : string) (t : Tables) : Prop :=
  Exists (λ d, PersonDistinctId.team_id d = teamId
               ∧ PersonDistinctId.distinct_id d = distinctId)
    (posthog_persondistinctid t).
#[global] Instance distinct_id_taken_dec teamId distinctId t :
  Decision (distinct_id_taken teamId distinctId t).
Proof. unfold distinct_id_taken. apply _. Defined.

(** The tables with one more distinct-id row, for the person, with the next
    identifier of the sequence. *)
Definition with_distinct_id (person : Person.t) (distinctId : string) (w : World)
    : Tables :=
  set_posthog_persondistinctid
    (posthog_persondistinctid (tables w)
     ++ [PersonDistinctId.mk (sequence w) (Person.id person) distinctId
           (Person.team_id person)])
    (tables w).

(** The tables once the distinct-id row [rowId] points to the person [target]. *)
Definition with_moved (rowId target : Z) (t : Tables) : Tables :=
  set_posthog_persondistinctid
    ((λ d, if bool_decide (PersonDistinctId.id d = rowId)
           then PersonDistinctId.with_person_id target d else d)
       <$> posthog_persondistinctid t) t.

(** The tables without the person [pid] and without its distinct ids. *)
Definition without_person (pid : Z) (t : Tables) : Tables :=
  set_posthog_person (filter (λ p, Person.id p ≠ pid) (posthog_person t))
    (set_posthog_persondistinctid
       (filter (λ d, PersonDistinctId.person_id d ≠ pid) (posthog_persondistinctid t)) t).

(** The row [createElementGroup] stores for an element of the group
    [groupId]: the columns of the table, the attributes defaulting to an
    empty object, and the group. *)
Definition element_row (element : Element) (groupId : Z) : Element :=
  <["group_id" := VNum groupId]>
    (<["attributes" :=
         match element !! "attributes" with
         | Some a => if truthy a then a else VStr "{}"
         | None => VStr "{}"
         end]>
       (filter (λ kv, kv.1 ∈ element_columns) element)).

(** [elements.map((element, index) => ({ ...element, order: index }))] *)
Definition with_order (elements : list Element) : list Element :=
  imap (λ index element, <["order" := VNum (Z.of_nat index)]> element) elements.

(** A group of the team with the hash exists. *)
Definition group_known (teamId : Z) (hash : string) (t : Tables) : Prop :=
  Exists (λ g, ElementGroup.team_id g = teamId ∧ ElementGroup.hash g = hash)
    (posthog_elementgroup t).
#[global] Instance group_known_dec teamId hash t : Decision (group_known teamId hash t).
Proof. unfold group_known. apply _. Defined.

(** The tables with one more group, of the next identifier of the sequence,
    and the rows of its elements. *)
Definition with_group (teamId : Z) (hash : string) (elements : list Element)
    (w : World) : Tables :=
  set_posthog_element
    (posthog_element (tables w) ++ ((λ e, element_row e (sequence w)) <$> elements))
    (set_posthog_elementgroup
       (posthog_elementgroup (tables w) ++ [ElementGroup.mk (sequence w) hash teamId])
       (tables w)).

Section MoreVocabulary.
Context `{Collaborators}.

(** The canonical event [createEvent] builds, given the clock. *)
Definition event_payload (uuid event : string) (teamId : Z) (distinctId : string)
    (properties : option Properties) (timestamp : option DateTime)
    (elements : list Element) (now : Z) : IEvent.t :=
  let stamp := castTimestampOrNow timestamp sink_format now in
  IEvent.mk uuid event (JSON_stringify (VObj (default ∅ properties))) stamp teamId
    distinctId
    (if negb (bool_decide (elements = [])) then elementsToString elements else "")
    stamp.

(** The row of [posthog_event] for a canonical event. *)
Definition event_row (id : Z) (payload : IEvent.t) (elements : list Element) : Event.t :=
  Event.mk id (IEvent.createdAt payload) (IEvent.event payload)
    (IEvent.distinctId payload) (IEvent.properties payload) (IEvent.teamId payload)
    (IEvent.timestamp payload) (JSON_stringify (VArr (VObj <$> elements)))
    (if negb (bool_decide (elements = [])) then hashElements (with_order elements) else "").
End MoreVocabulary.

(** The tables once [update] is applied to the person rows with identifier [pid]. *)
Definition with_update (update : PersonUpdate.t) (pid : Z) (t : Tables) : Tables :=
  set_posthog_person
    ((λ p, if bool_decide (Person.id p = pid) then PersonUpdate.apply update p else p)
       <$> posthog_person t) t.

(** The person [fetchPerson] would return on the tables. *)
Definition person_of (teamId : Z) (distinctId : option string) (t : Tables)
    : option Person.t :=
  head (select_person_by_distinct_id teamId distinctId t).

(** No call to a storage adapter fails on its own. *)
Definition reliable (w : World) : Prop := ∀ n, faults w n = None.

(** The producer log, the error sink and the environment are those of [w0]. *)
Definition quiet_since (w0 : World) : World → Prop :=
  λ w, kafka w = kafka w0 ∧ sentry w = sentry w0 ∧ faults w = faults w0.

(** The tables with one more person, created by [alias] for two distinct
    ids that were unknown: the person takes the next identifier of the
    sequence, the rows of its distinct ids the two after it. *)
Definition with_aliased_person (uuid : string) (teamId : Z)
    (distinctId previousDistinctId : string) (w : World) : Tables :=
  set_posthog_persondistinctid
    (posthog_persondistinctid (tables w)
     ++ [PersonDistinctId.mk (sequence w + 1) (sequence w) distinctId teamId;
         PersonDistinctId.mk (sequence w + 1 + 1) (sequence w) previousDistinctId teamId])
    (set_posthog_person
       (posthog_person (tables w)
        ++ [Person.mk (sequence w) uuid teamId (clock w) ∅ None false])
       (tables w)).

(** What the catch block of [createPersonIfDistinctIdIsNew] leaves in the
    world: a report to the error sink with the arguments attached. *)
Definition new_person_failure_reported (teamId : Z) (distinctId : string)
    (sentAt : DateTime) (personUuid : string) (e : error) (w : World) : World :=
  set_sentry
    (sentry w ++ [SentryReport.mk e (ExtraNewPerson teamId distinctId sentAt personUuid)])
    w.

(** The record is on one of the two topics of the person store. *)
Definition person_topics (r : ProducerRecord.t) : Prop :=
  ProducerRecord.topic_of r = KAFKA_PERSON
  ∨ ProducerRecord.topic_of r = KAFKA_PERSON_UNIQUE_ID.

(** What the identity step leaves as [w0] had it: the tables of events,
    session recordings, element groups, elements and organizations; the
    producer log of [w0] is only extended, by records on the person topics. *)
Definition identity_footprint (w0 w : World) : Prop :=
  posthog_event (tables w) = posthog_event (tables w0)
  ∧ posthog_sessionrecordingevent (tables w) = posthog_sessionrecordingevent (tables w0)
  ∧ posthog_elementgroup (tables w) = posthog_elementgroup (tables w0)
  ∧ posthog_element (tables w) = posthog_element (tables w0)
  ∧ posthog_organization (tables w) = posthog_organization (tables w0)
  ∧ published person_topics w0 w.

(** The cohort memberships are [c]. *)
Definition cohortpeople_are (c : list CohortPeople.t) : World → Prop :=
  on_tables (λ t, posthog_cohortpeople t = c).

(** The cohort memberships once those of the person [oldId] are handed to
    the person [newId]. *)
Definition with_memberships_moved (newId oldId : Z) (c : list CohortPeople.t)
    : list CohortPeople.t :=
  (λ m, if bool_decide (CohortPeople.person_id m = oldId)
        then CohortPeople.with_person_id newId m else m) <$> c.

(** Scenario S3 with cohorts: A is a member of the cohorts 7 and 8, B of the
    cohort 8. *)
Definition s3_cohort_world : World :=
  world_of
    (mkTables [s3_A; s3_B]
       [PersonDistinctId.mk 10 1 "a" 2; PersonDistinctId.mk 11 2 "b" 2]
       [CohortPeople.mk 30 7 1; CohortPeople.mk 31 8 1; CohortPeople.mk 32 8 2]
       [] [] [] [] [])
    40 no_faults.

(** * Properties *)

(** ** Running the monad *)

Lemma bind_run {A B} (m : M A) (k : A → M B) w r w' :
  bind m k w = (r, w') →
  (∃ a w1, m w = (Ok a, w1) ∧ k a w1 = (r, w'))
  ∨ (∃ e, m w = (Throw e, w') ∧ r = Throw e)
  ∨ (m w = (OutOfFuel, w') ∧ r = OutOfFuel).
Proof.
  unfold bind. destruct (m w) as [[a|e|] w1]; intros Hr.
  - left. eauto.
  - right. left. exists e. by simplify_eq.
  - right. right. by simplify_eq.
Qed.

Lemma bind_ok {A B} (m : M A) (k : A → M B) w b w' :
  bind m k w = (Ok b, w') →
  ∃ a w1, m w = (Ok a, w1) ∧ k a w1 = (Ok b, w').
Proof.
  intros Hr. apply bind_run in Hr as [(a & w1 & ? & ?)|[(e & ? & ?)|[? ?]]];
    [eauto | discriminate | discriminate].
Qed.

Lemma try_catch_run {A} (m : M A) (h : error → M A) w r w' :
  try_catch m h w = (r, w') →
  (∃ e w1, m w = (Throw e, w1) ∧ h e w1 = (r, w'))
  ∨ (m w = (r, w') ∧ ∀ e, r ≠ Throw e).
Proof.
  unfold try_catch. destruct (m w) as [[a|e|] w1]; intros Hr.
  - right. by simplify_eq.
  - left. eauto.
  - right. by simplify_eq.
Qed.

Lemma storage_call_run w r w' :
  storage_call w = (r, w') →
  w' = set_tick (S (tick w)) w ∧ (r = Ok tt ∨ ∃ f, r = Throw (fault_error f)).
Proof.
  unfold storage_call. destruct (faults w (tick w)) as [f|]; intros Hr; simplify_eq; eauto.
Qed.

(** ** The timestamp reconciler *)

Section Timestamp.
Context `{Collaborators}.


Lemma DateTime_at_in_range ms : in_range ms = true → DateTime_at ms = Valid ms.
Proof. unfold DateTime_at. by intros ->. Qed.

Lemma DateTime_at_out_of_range ms : in_range ms = false → DateTime_at ms = Invalid.
Proof. unfold DateTime_at. by intros ->. Qed.

End Timestamp.




(** ** The [$ip] property *)

Lemma capture_ip_guard (ip : option string) (team : Team.t) (properties : Properties) :
  truthy_ostr ip && negb (Team.anonymize_ips team)
    && negb (bool_decide (is_Some (properties !! "$ip"))) = true
  ↔ ∃ s, ip = Some s ∧ s ≠ "" ∧ Team.anonymize_ips team = false
         ∧ properties !! "$ip" = None.
Proof.
  rewrite !andb_true_iff, !negb_true_iff, bool_decide_eq_false.
  rewrite <-eq_None_not_Some. split.
  - intros [[Hip Hanon] Habsent]. destruct ip as [s|]; [|done].
    exists s. repeat split; try done.
    intros ->. discriminate Hip.
  - intros (s & -> & Hs & Hanon & Habsent). repeat split; try done.
    simpl. unfold truthy_str. apply negb_true_iff.
    by apply String.eqb_neq.
Qed.

(** C7 (as stated). Non-null [ip], a team that keeps addresses and no [$ip]
    yet: the claim has [$ip] injected, the code leaves an empty address out. *)
Lemma capture_ip_empty_address :
  let ip := Some "" in
  let team := Team.mk 2 false in
  let properties : Properties := ∅ in
  (ip ≠ None ∧ Team.anonymize_ips team = false ∧ properties !! "$ip" = None)
  ∧ capture_ip ip team properties !! "$ip" = None.
Proof. repeat split; done. Qed.

(** C7 (amended). [capture] sets [$ip] to the address exactly when the
    address is non-null and non-empty, the team does not anonymise addresses
    and the properties have no [$ip]; in every other case the properties are
    left as they are, and no other entry is ever touched. *)
Theorem capture_ip_rule (ip : option string) (team : Team.t) (properties : Properties) :
  (capture_ip ip team properties ≠ properties
   ↔ ∃ s, ip = Some s ∧ s ≠ "" ∧ Team.anonymize_ips team = false
          ∧ properties !! "$ip" = None)
  ∧ (∀ s, ip = Some s → s ≠ "" → Team.anonymize_ips team = false →
       properties !! "$ip" = None →
       capture_ip ip team properties = <["$ip" := VStr s]> properties)
  ∧ (∀ k, k ≠ "$ip" → capture_ip ip team properties !! k = properties !! k).
Proof.
  pose proof (capture_ip_guard ip team properties) as Hguard.
  unfold capture_ip.
  destruct (truthy_ostr ip && negb (Team.anonymize_ips team)
            && negb (bool_decide (is_Some (properties !! "$ip")))) eqn:Hg.
  - destruct (proj1 Hguard eq_refl) as (s & -> & Hs & Hanon & Habsent).
    repeat split.
    + intros _. eauto.
    + intros _ Heq. apply (f_equal (λ m, m !! "$ip")) in Heq.
      rewrite lookup_insert_eq, Habsent in Heq. discriminate.
    + intros s' [= <-] _ _ _. done.
    + intros k Hk. by rewrite lookup_insert_ne.
  - repeat split.
    + intros Hne. done.
    + intros Hex. apply Hguard in Hex. discriminate.
    + intros s -> Hs Hanon Habsent.
      assert (false = true) as Hf by (apply Hguard; eauto). discriminate.
Qed.

Lemma capture_ip_rule_witness :
  capture_ip (Some "127.0.0.1") (Team.mk 2 false) ∅
  = <["$ip" := VStr "127.0.0.1"]> (∅ : Properties).
Proof.
  destruct (capture_ip_rule (Some "127.0.0.1") (Team.mk 2 false) ∅) as (_ & Hinject & _).
  apply Hinject; done.
Defined.

(** ** The identifier check *)

(** C8. With an [eventUuid] that is not a valid UUID string, [processEvent]
    throws the invalid-UUID error and leaves the whole world (tables,
    producer, error sink, logs, counters) as it was; with a valid one the
    check passes and the rest of the method runs. *)
Theorem processEvent_validates_uuid `{Collaborators} (fuel : nat) (distinctId : string)
    (ip : option string) (siteUrl : string) (data : PluginEvent.t) (teamId : Z)
    (now : DateTime) (sentAt : option DateTime) (eventUuid : string) (w : World) :
  (UUID_validateString eventUuid = false →
     processEvent fuel distinctId ip siteUrl data teamId now sentAt eventUuid w
     = (Throw (Error ("Not a valid UUID: " +:+ quoted eventUuid)), w))
  ∧ (UUID_validateString eventUuid = true →
     processEvent fuel distinctId ip siteUrl data teamId now sentAt eventUuid w
     = processEvent_body fuel distinctId ip siteUrl data teamId now sentAt eventUuid w).
Proof.
  unfold processEvent. split; intros ->; reflexivity.
Qed.

Lemma processEvent_validates_uuid_witness :
  @processEvent (Reference.collaborators true false) 4 "d1" None "http://localhost"
    s2_event 2 (Valid 1704067205000) None "not-a-uuid" empty_world
  = (Throw (Error ("Not a valid UUID: " +:+ quoted "not-a-uuid")), empty_world).
Proof.
  apply (@processEvent_validates_uuid (Reference.collaborators true false)).
  reflexivity.
Defined.

(** ** Canonical events *)

Lemma when_run (b : bool) (m : M unit) w r w' :
  when b m w = (r, w') →
  (b = true ∧ m w = (r, w')) ∨ (b = false ∧ r = Ok tt ∧ w' = w).
Proof. destruct b; simpl; intros Hr; [by left | right]. by inversion Hr. Qed.

Lemma queueMessage_ok record w w' :
  queueMessage record w = (Ok tt, w') →
  kafka w' = (kafka w ++ [record])%list ∧ tables w' = tables w.
Proof.
  unfold queueMessage. intros Hr.
  apply bind_ok in Hr as ([] & w1 & Hcall & Hr).
  destruct (storage_call_run _ _ _ Hcall) as [Hw1 _]. subst w1.
  by inversion Hr.
Qed.

Lemma postgresQuery_ok {A} (statement : M A) w a w' :
  postgresQuery statement w = (Ok a, w') →
  statement (set_tick (S (tick w)) w) = (Ok a, w').
Proof.
  unfold postgresQuery. intros Hr.
  apply bind_ok in Hr as ([] & w1 & Hcall & Hr).
  destruct (storage_call_run _ _ _ Hcall) as [Hw1 _]. by subst w1.
Qed.

Section CanonicalEvents.
Context `{Collaborators}.

Lemma createEvent_ok uuid event teamId distinctId properties timestamp elements siteUrl
    w ev id els w' :
  createEvent uuid event teamId distinctId properties timestamp elements siteUrl w
  = (Ok (ev, id, els), w') →
  ev = IEvent.mk uuid event (JSON_stringify (VObj (default ∅ properties)))
         (castTimestampOrNow timestamp sink_format (clock w)) teamId distinctId
         (if negb (bool_decide (elements = [])) then elementsToString elements else "")
         (castTimestampOrNow timestamp sink_format (clock w))
  ∧ (kafkaProducer = true →
       kafka w'
       = (kafka w ++ [ProducerRecord.mk KAFKA_EVENTS
                        [Message.mk (Some uuid) (BufferProto ev)]])%list)
  ∧ (kafkaProducer = false →
       ∃ row, id = Some (Event.id row)
              ∧ last (posthog_event (tables w')) = Some row
              ∧ Event.created_at row = IEvent.createdAt ev
              ∧ Event.timestamp row = IEvent.timestamp ev).
Proof.
  unfold createEvent, sink_format. intros Hr.
  apply bind_ok in Hr as (now & w0 & Hnow & Hr).
  unfold gets in Hnow. injection Hnow as <- <-.
  destruct kafkaProducer.
  - apply bind_ok in Hr as ([] & w1 & Hq & Hr).
    apply queueMessage_ok in Hq as [Hk _].
    unfold ret in Hr. injection Hr as <- <- <- <-.
    repeat split; [done | discriminate].
  - apply bind_ok in Hr as (hash & w1 & _ & Hr).
    apply bind_ok in Hr as (row & w2 & Hins & Hr).
    unfold ret in Hr. injection Hr as <- <- <- <-.
    apply postgresQuery_ok in Hins.
    unfold insert_event, bind, nextval, modify_tables, modify, ret in Hins.
    simpl in Hins. injection Hins as <- <-.
    repeat split; [discriminate|]. intros _.
    eexists. repeat split. simpl. by rewrite last_snoc.
Qed.

Lemma createSessionRecordingEvent_ok uuid team_id distinct_id session_id timestamp
    snapshot_data personUuid w r w' :
  createSessionRecordingEvent uuid team_id distinct_id session_id timestamp
    snapshot_data personUuid w = (Ok r, w') →
  let stamp := castTimestampOrNow (Some timestamp) sink_format (clock w) in
  match r with
  | inl data =>
      kafkaProducer = true
      ∧ data = SessionRecordingEvent.mk uuid team_id distinct_id session_id
                 (stringify snapshot_data) stamp stamp
      ∧ last (kafka w')
        = Some (ProducerRecord.mk KAFKA_SESSION_RECORDING_EVENTS
                  [Message.mk (Some uuid) (BufferJSON (SessionRecordingEvent_json data))])
  | inr row =>
      kafkaProducer = false
      ∧ PostgresSessionRecordingEvent.created_at row = stamp
      ∧ PostgresSessionRecordingEvent.timestamp row = stamp
      ∧ last (posthog_sessionrecordingevent (tables w')) = Some row
  end.
Proof.
  unfold createSessionRecordingEvent, sink_format. intros Hr.
  apply bind_ok in Hr as (now & w0 & Hnow & Hr).
  unfold gets in Hnow. injection Hnow as <- <-.
  apply bind_ok in Hr as (utc & w1 & _ & Hr).
  apply bind_ok in Hr as ([] & w2 & _ & Hr).
  destruct kafkaProducer.
  - apply bind_ok in Hr as ([] & w3 & Hq & Hr).
    apply queueMessage_ok in Hq as [Hk _].
    unfold ret in Hr. injection Hr as <- <-.
    repeat split. by rewrite Hk, last_snoc.
  - apply bind_ok in Hr as (row & w3 & Hins & Hr).
    unfold ret in Hr. injection Hr as <- <-.
    apply postgresQuery_ok in Hins.
    unfold insert_sessionrecordingevent in Hins. simpl in Hins.
    destruct (stringify snapshot_data) as [snapshot|]; [|done].
    destruct (sql_null session_id); [done|].
    unfold bind, nextval, modify_tables, modify, ret in Hins.
    simpl in Hins. injection Hins as <- <-.
    repeat split. simpl. by rewrite last_snoc.
Qed.

(** C10. In every canonical event built by [createEvent] and in every
    session-recording record built by [createSessionRecordingEvent], the
    creation time is the timestamp: both fields hold the one string that
    [castTimestampOrNow] made of the canonical timestamp, in the payload
    returned and in what reaches the sink (the message queued on the
    producer, or the row inserted). So the emitted creation time differs
    from any other string, the formatted server time included, as soon as
    the timestamp does. *)
Theorem created_at_is_timestamp :
  (∀ uuid event teamId distinctId properties timestamp elements siteUrl w ev id els w',
     createEvent uuid event teamId distinctId properties timestamp elements siteUrl w
     = (Ok (ev, id, els), w') →
     IEvent.createdAt ev = IEvent.timestamp ev
     ∧ IEvent.timestamp ev = castTimestampOrNow timestamp sink_format (clock w)
     ∧ (kafkaProducer = true →
          ∃ m, last (kafka w') = Some (ProducerRecord.mk KAFKA_EVENTS [m])
               ∧ Message.value m = BufferProto ev)
     ∧ (kafkaProducer = false →
          ∃ row, last (posthog_event (tables w')) = Some row
                 ∧ Event.created_at row = Event.timestamp row
                 ∧ Event.timestamp row = IEvent.timestamp ev)
     ∧ (∀ server_time, IEvent.timestamp ev ≠ server_time →
          IEvent.createdAt ev ≠ server_time))
  ∧ (∀ uuid team_id distinct_id session_id timestamp snapshot_data personUuid w r w',
       createSessionRecordingEvent uuid team_id distinct_id session_id timestamp
         snapshot_data personUuid w = (Ok r, w') →
       let stamp := castTimestampOrNow (Some timestamp) sink_format (clock w) in
       match r with
       | inl data =>
           SessionRecordingEvent.created_at data = SessionRecordingEvent.timestamp data
           ∧ SessionRecordingEvent.timestamp data = stamp
           ∧ ∃ m, last (kafka w')
                  = Some (ProducerRecord.mk KAFKA_SESSION_RECORDING_EVENTS [m])
                  ∧ Message.value m = BufferJSON (SessionRecordingEvent_json data)
       | inr row =>
           PostgresSessionRecordingEvent.created_at row
           = PostgresSessionRecordingEvent.timestamp row
           ∧ PostgresSessionRecordingEvent.timestamp row = stamp
           ∧ last (posthog_sessionrecordingevent (tables w')) = Some row
       end).
Proof.
  split.
  - intros uuid event teamId distinctId properties timestamp elements siteUrl
      w ev id els w' Hr.
    apply createEvent_ok in Hr as (-> & Hkafka & Hrow). simpl.
    repeat split; try done.
    + intros Hk. rewrite (Hkafka Hk), last_snoc. by eexists.
    + intros Hk. destruct (Hrow Hk) as (row & _ & Hlast & Hc & Ht).
      exists row. simpl in Hc, Ht. repeat split; [done| |done]. by rewrite Hc, Ht.
  - intros uuid team_id distinct_id session_id timestamp snapshot_data personUuid
      w r w' Hr.
    apply createSessionRecordingEvent_ok in Hr. simpl in Hr.
    destruct r as [data|row].
    + destruct Hr as (_ & -> & Hlast). simpl. repeat split.
      rewrite Hlast. by eexists.
    + destruct Hr as (_ & Hc & Ht & Hlast). repeat split; [|done|done].
      by rewrite Hc, Ht.
Qed.
End CanonicalEvents.

(** Scenario S1 on the reference collaborators with a producer: the event
    emitted carries the same creation time and timestamp. *)
Lemma created_at_is_timestamp_witness :
  ∃ ev id els w',
    @createEvent (Reference.collaborators true false)
      "017dc2cb-9fe0-0000-ceed-ab8b8b89b1ad" "pageview" 2 "d1" None
      (Some (Valid 1704067200000)) [] "http://localhost" empty_world
    = (Ok (ev, id, els), w')
    ∧ IEvent.createdAt ev = IEvent.timestamp ev.
Proof.
  assert (∃ ev id els w',
            @createEvent (Reference.collaborators true false)
              "017dc2cb-9fe0-0000-ceed-ab8b8b89b1ad" "pageview" 2 "d1" None
              (Some (Valid 1704067200000)) [] "http://localhost" empty_world
            = (Ok (ev, id, els), w')) as (ev & id & els & w' & Hrun).
  { vm_compute. eexists _, _, _, _. reflexivity. }
  exists ev, id, els, w'. split; [exact Hrun|].
  eapply (proj1 (@created_at_is_timestamp (Reference.collaborators true false))).
  exact Hrun.
Defined.

(** ** A program logic for [M] *)

Section Spec.
Context {A B : Type} (I : World → Prop).

Lemma spec_ret (a : A) (Q : A → Prop) E : Q a → spec I (ret a) Q E.
Proof. by intros Ha w Hw. Qed.

Lemma spec_throw (e : error) (Q : A → Prop) (E : error → Prop) :
  E e → spec I (throw e) Q E.
Proof. by intros He w Hw. Qed.

Lemma spec_lift (r : result A) (Q : A → Prop) (E : error → Prop) :
  match r with Ok a => Q a | Throw e => E e | OutOfFuel => False end →
  spec I (lift r) Q E.
Proof. by intros Hr w Hw. Qed.

Lemma spec_bind (m : M A) (k : A → M B) Q1 Q E :
  spec I m Q1 E → (∀ a, Q1 a → spec I (k a) Q E) → spec I (bind m k) Q E.
Proof.
  intros Hm Hk w Hw. unfold bind.
  destruct (Hm w Hw) as [Hi Hr]. destruct (m w) as [[a|e|] w1]; simpl in *; try done.
  by apply Hk.
Qed.

Lemma spec_try_catch (m : M A) (h : error → M A) Q E1 E :
  spec I m Q E1 → (∀ e, E1 e → spec I (h e) Q E) → spec I (try_catch m h) Q E.
Proof.
  intros Hm Hh w Hw. unfold try_catch.
  destruct (Hm w Hw) as [Hi Hr]. destruct (m w) as [[a|e|] w1]; simpl in *; try done.
  by apply Hh.
Qed.

Lemma spec_attempt (m : M A) Q E :
  spec I m Q E →
  spec I (attempt m)
    (λ r, match r with Ok a => Q a | Throw e => E e | OutOfFuel => False end) any.
Proof.
  intros Hm w Hw. unfold attempt.
  destruct (Hm w Hw) as [Hi Hr]. by destruct (m w) as [r w1].
Qed.

Lemma spec_weaken (m : M A) (Q Q' : A → Prop) (E E' : error → Prop) :
  spec I m Q E → (∀ a, Q a → Q' a) → (∀ e, E e → E' e) → spec I m Q' E'.
Proof.
  intros Hm HQ HE w Hw. destruct (Hm w Hw) as [Hi Hr]. split; [done|].
  destruct (m w).1; auto.
Qed.

Lemma spec_gets (f : World → A) (Q : A → Prop) E :
  (∀ w, I w → Q (f w)) → spec I (gets f) Q E.
Proof. intros Hf w Hw. split; [done|]. by apply Hf. Qed.

Lemma spec_modify (f : World → World) E :
  (∀ w, I w → I (f w)) → spec I (modify f) any E.
Proof. intros Hf w Hw. split; [by apply Hf | done]. Qed.

Lemma spec_storage_call (E : error → Prop) :
  (∀ w n, I w → I (set_tick n w)) → (∀ f, E (fault_error f)) →
  spec I storage_call any E.
Proof.
  intros Hi He w Hw. unfold storage_call.
  destruct (faults w (tick w)); simpl; split; auto. done.
Qed.
End Spec.

Lemma spec_when (I : World → Prop) (b : bool) (m : M unit) E :
  (b = true → spec I m any E) → spec I (when b m) any E.
Proof. destruct b; simpl; intros Hm; [by apply Hm | by apply spec_ret]. Qed.

Lemma spec_for_each {A} (I : World → Prop) (f : A → M unit) (l : list A) E :
  (∀ x, x ∈ l → spec I (f x) any E) → spec I (for_each f l) any E.
Proof.
  induction l as [|x l IH]; intros Hf; simpl.
  - by apply spec_ret.
  - eapply spec_bind; [apply Hf; by left|]. intros _ _.
    apply IH. intros y Hy. apply Hf. by right.
Qed.

(** Discharges the class premises a lemma of this development leaves. *)
Ltac inst :=
  lazymatch goal with
  | |- Bookkeeping _ => apply _
  | |- TablesFree _ => apply _
  | |- Silent _ => apply _
  | _ => idtac
  end.

Section Storage.
Context (I : World → Prop) `{!Bookkeeping I} `{!TablesFree I}.

Lemma spec_fault {A} (m : M A) (Q : A → Prop) (E : error → Prop) :
  (∀ f, E (fault_error f)) → spec I m Q E → spec I (storage_call ;;; m) Q E.
Proof.
  intros He Hm. eapply spec_bind; [|intros _ _; exact Hm].
  apply spec_storage_call; [apply stable_tick | done].
Qed.

Lemma spec_postgresQuery {A} (m : M A) (Q : A → Prop) (E : error → Prop) :
  (∀ f, E (fault_error f)) → spec I m Q E → spec I (postgresQuery m) Q E.
Proof. apply spec_fault. Qed.

Lemma spec_client_query {A} (m : M A) (Q : A → Prop) (E : error → Prop) :
  (∀ f, E (fault_error f)) → spec I m Q E → spec I (client_query m) Q E.
Proof. apply spec_fault. Qed.

Lemma spec_nextval E : spec I nextval any E.
Proof. intros w Hw. split; [by apply stable_sequence | done]. Qed.

Lemma spec_modify_tables f E : spec I (modify_tables f) any E.
Proof. apply spec_modify. intros w Hw. by apply stable_tables. Qed.

Lemma spec_postgresTransaction {A} (m : M A) (Q : A → Prop) (E : error → Prop) :
  (∀ f, E (fault_error f)) → spec I m Q E → spec I (postgresTransaction m) Q E.
Proof.
  intros He Hm. unfold postgresTransaction.
  eapply spec_bind; [by apply (spec_gets _ _ any)|]. intros snapshot _.
  apply spec_fault; [done|].
  eapply spec_try_catch.
  - apply spec_fault; [done|].
    eapply spec_bind; [exact Hm|]. intros a Ha.
    apply spec_fault; [done|]. by apply spec_ret.
  - intros e Hfail. simpl in Hfail.
    eapply spec_bind.
    { apply spec_modify. intros w Hw. by apply stable_tables. }
    intros _ _. apply spec_fault; [done|]. by apply spec_throw.
Qed.

Lemma spec_insert_person createdAt properties teamId isUserId isIdentified uuid :
  spec I (insert_person createdAt properties teamId isUserId isIdentified uuid)
    (λ p, Person.uuid p = uuid ∧ Person.team_id p = teamId
          ∧ Person.properties p = properties)
    any.
Proof.
  unfold insert_person. destruct createdAt as [ms|]; [|by apply spec_throw].
  eapply spec_bind; [apply spec_nextval|]. intros id _.
  eapply spec_bind; [by apply (spec_gets _ _ any)|]. intros t _.
  case_bool_decide; [by apply spec_throw|].
  eapply spec_bind; [apply spec_modify_tables|]. intros _ _.
  by apply spec_ret.
Qed.

Lemma spec_insert_persondistinctid distinctId personId teamId :
  spec I (insert_persondistinctid distinctId personId teamId) any any.
Proof.
  unfold insert_persondistinctid.
  eapply spec_bind; [apply spec_nextval|]. intros id _.
  eapply spec_bind; [by apply (spec_gets _ _ any)|]. intros t _.
  destruct distinctId as [distinctId|]; [|by apply spec_throw].
  case_bool_decide; [by apply spec_throw|].
  destruct (negb _); [by apply spec_throw|].
  eapply spec_bind; [apply spec_modify_tables|]. intros _ _.
  by apply spec_ret.
Qed.

Lemma spec_update_person_where_id update pid :
  spec I (update_person_where_id update pid) any any.
Proof.
  unfold update_person_where_id.
  destruct (PersonUpdate.is_empty update); [by apply spec_throw|].
  apply spec_modify_tables.
Qed.

Lemma spec_update_persondistinctid_person personId rowId :
  spec I (update_persondistinctid_person personId rowId) any any.
Proof.
  unfold update_persondistinctid_person.
  eapply spec_bind; [by apply (spec_gets _ _ any)|]. intros t _.
  destruct (_ && _); [by apply spec_throw | apply spec_modify_tables].
Qed.
End Storage.

(** ** Message keys *)

#[global] Instance published_bookkeeping P w0 : Bookkeeping (published P w0).
Proof. split; intros; assumption. Qed.

#[global] Instance published_tables_free P w0 : TablesFree (published P w0).
Proof. intros w t Hw. exact Hw. Qed.

Lemma published_refl P w : published P w w.
Proof. exists []. by rewrite app_nil_r. Qed.

Section MessageKeys.
Context `{Collaborators}.

Lemma spec_queueMessage P w0 record :
  P record → spec (published P w0) (queueMessage record) any any.
Proof.
  intros Hrec. unfold queueMessage. apply spec_fault; inst; [done|].
  apply spec_modify. intros w (new & Hk & Hnew).
  exists (new ++ [record])%list. simpl. rewrite Hk, app_assoc. split; [done|].
  apply Forall_app. by split; [|apply Forall_singleton].
Qed.

Lemma spec_addDistinctIdPooled I `{!Bookkeeping I} `{!TablesFree I} person distinctId :
  spec I (addDistinctIdPooled person distinctId)
    (λ o, ∀ m, o = Some m → distinct_id_record (Person.uuid person) m) any.
Proof.
  unfold addDistinctIdPooled.
  eapply spec_bind.
  { apply spec_client_query; inst; [done | by apply spec_insert_persondistinctid; inst]. }
  intros row _. destruct kafkaProducer; apply spec_ret; [|done].
  intros m [= <-]. eexists. split; [reflexivity|]. by rewrite lookup_insert_eq.
Qed.

Lemma spec_createPerson_distinctIds I `{!Bookkeeping I} `{!TablesFree I} person
    distinctIds kafkaMessages :
  Forall (person_mutation_record (Person.uuid person)) kafkaMessages →
  spec I (createPerson_distinctIds person distinctIds kafkaMessages)
    (Forall (person_mutation_record (Person.uuid person))) any.
Proof.
  revert kafkaMessages.
  induction distinctIds as [|d ds IH]; intros kafkaMessages Hall; simpl.
  - by apply spec_ret.
  - eapply spec_bind; [by apply spec_addDistinctIdPooled|].
    intros [m|] Hm; apply IH; [|done].
    apply Forall_app. split; [done|]. apply Forall_singleton. right. by apply Hm.
Qed.

Lemma spec_createPerson w0 createdAt properties teamId isUserId isIdentified uuid
    distinctIds :
  spec (published (person_mutation_record uuid) w0)
    (createPerson createdAt properties teamId isUserId isIdentified uuid distinctIds)
    any any.
Proof.
  unfold createPerson.
  eapply spec_bind with (Q1 := λ created, Forall (person_mutation_record uuid) created.2).
  - apply spec_postgresTransaction; inst; [done|].
    eapply spec_bind.
    { apply spec_client_query; inst; [done | by apply spec_insert_person; inst]. }
    intros person (Huuid & _ & _).
    eapply spec_bind; [by apply (spec_gets _ _ any)|]. intros now _.
    eapply spec_bind with (Q1 := Forall (person_mutation_record uuid)).
    + rewrite <-Huuid. apply spec_createPerson_distinctIds; inst.
      destruct kafkaProducer; [|done]. apply Forall_singleton. left.
      eexists. split; [reflexivity|]. unfold person_json.
      rewrite Huuid. by rewrite !lookup_insert_ne, lookup_insert_eq by done.
    + intros msgs Hmsgs. by apply spec_ret.
  - intros [person msgs] Hmsgs. simpl in *.
    eapply spec_bind; [|intros _ _; by apply spec_ret].
    apply spec_when. intros _. apply spec_for_each.
    intros r Hr. apply spec_queueMessage.
    by eapply Forall_forall in Hmsgs.
Qed.

Lemma spec_addDistinctId w0 person distinctId :
  spec (published (distinct_id_record (Person.uuid person)) w0)
    (addDistinctId person distinctId) any any.
Proof.
  unfold addDistinctId.
  eapply spec_bind; [apply spec_addDistinctIdPooled; inst|].
  intros [m|] Hm; [|by apply spec_ret].
  apply spec_when. intros _. apply spec_queueMessage. by apply Hm.
Qed.

Lemma spec_updatePerson w0 person update :
  spec (published (person_record (Person.uuid person)) w0)
    (updatePerson person update) any any.
Proof.
  unfold updatePerson.
  eapply spec_bind.
  { apply spec_postgresQuery; inst; [done|].
    apply spec_update_person_where_id; inst. }
  intros _ _. eapply spec_bind; [by apply (spec_gets _ _ any)|]. intros now _.
  eapply spec_bind; [|intros _ _; by apply spec_ret].
  apply spec_when. intros _. apply spec_queueMessage.
  eexists. split; [reflexivity|]. unfold person_json.
  by rewrite !lookup_insert_ne, lookup_insert_eq by done.
Qed.

Lemma spec_moveDistinctId w0 person personDistinctId moveToPerson :
  spec (published (distinct_id_record (Person.uuid moveToPerson)) w0)
    (moveDistinctId person personDistinctId moveToPerson) any any.
Proof.
  unfold moveDistinctId.
  eapply spec_bind.
  { apply spec_postgresQuery; inst; [done|].
    apply spec_update_persondistinctid_person; inst. }
  intros _ _. apply spec_when. intros _. apply spec_queueMessage.
  eexists. split; [reflexivity|]. by rewrite lookup_insert_eq.
Qed.

(** C6 (amended). The messages the person store publishes for a person
    mutation carry no key. [createPerson] queues records on the person topic
    and the distinct-id topic, [updatePerson] on the person topic,
    [addDistinctId] and [moveDistinctId] on the distinct-id topic; each
    record holds one message whose key is absent and whose value names the
    person by uuid (field [id] on the person topic, [person_id] on the
    distinct-id topic). Nothing else is added to the producer log, whether
    the call returns or throws. *)
Theorem person_messages_have_no_key (w : World) :
  (∀ createdAt properties teamId isUserId isIdentified uuid distinctIds,
     published (person_mutation_record uuid) w
       (createPerson createdAt properties teamId isUserId isIdentified uuid
          distinctIds w).2)
  ∧ (∀ person update,
       published (person_record (Person.uuid person)) w (updatePerson person update w).2)
  ∧ (∀ person distinctId,
       published (distinct_id_record (Person.uuid person)) w
         (addDistinctId person distinctId w).2)
  ∧ (∀ person personDistinctId moveToPerson,
       published (distinct_id_record (Person.uuid moveToPerson)) w
         (moveDistinctId person personDistinctId moveToPerson w).2)
  ∧ (∀ uuid r m, person_mutation_record uuid r → m ∈ ProducerRecord.messages r →
       Message.key m = None).
Proof.
  repeat split.
  - intros. by apply (spec_createPerson w), published_refl.
  - intros. by apply (spec_updatePerson w), published_refl.
  - intros. by apply (spec_addDistinctId w), published_refl.
  - intros. by apply (spec_moveDistinctId w), published_refl.
  - intros uuid r m [(obj & -> & _)|(obj & -> & _)] Hm;
      apply list_elem_of_singleton in Hm; by subst m.
Qed.
End MessageKeys.

(** C6 (as stated). [createPerson] with a producer: the message on the
    person topic has no key, so it is not keyed by the uuid of the person;
    neither is the message on the distinct-id topic keyed by anything. *)
Lemma createPerson_message_without_key :
  let w' :=
    (@createPerson (Reference.collaborators true false) (Valid 1704067200000) ∅ 2 None
       false "017dc2cb-9fe0-0000-ceed-ab8b8b89b1ad" [Some "d1"] empty_world).2 in
  ∃ r1 r2 m1 m2,
    kafka w' = [r1; r2]
    ∧ ProducerRecord.topic_of r1 = KAFKA_PERSON ∧ ProducerRecord.messages r1 = [m1]
    ∧ ProducerRecord.topic_of r2 = KAFKA_PERSON_UNIQUE_ID
    ∧ ProducerRecord.messages r2 = [m2]
    ∧ Message.key m1 ≠ Some "017dc2cb-9fe0-0000-ceed-ab8b8b89b1ad"
    ∧ Message.key m1 = None ∧ Message.key m2 = None.
Proof. vm_compute. eexists _, _, _, _. repeat split. discriminate. Qed.

(** ** Malformed query of [fetchOrganization] *)

(** C9 (the code at the failing input). The text [fetchOrganization] sends has
    no comparison operator, so the server rejects it whatever the identifier:
    the call never returns a row. The text with [id = $1] returns the row. *)
Theorem fetchOrganization_malformed :
  (∀ organizationId w, ∃ e, (fetchOrganization organizationId w).1 = Throw e)
  ∧ (let w := world_of organization_tables 1 no_faults in
     (fetchOrganization "org-1" w).1 = Throw (DatabaseError syntax_error)
     ∧ (postgresQuery
          (select_organization "SELECT * FROM posthog_organization WHERE id = $1" "org-1")
          w).1
       = Ok [RawOrganization.mk "org-1" "Hogflix"]).
Proof.
  split; [|by vm_compute].
  intros organizationId w.
  unfold fetchOrganization, postgresQuery, bind, storage_call.
  destruct (faults w (tick w)) as [f|]; simpl; eauto.
Qed.

(** ** Person properties *)

Lemma gets_run {A} (f : World → A) w r w' :
  gets f w = (r, w') → r = Ok (f w) ∧ w' = w.
Proof. unfold gets. by intros [= <- <-]. Qed.

Lemma ret_run {A} (a : A) w r w' : ret a w = (r, w') → r = Ok a ∧ w' = w.
Proof. unfold ret. by intros [= <- <-]. Qed.

Lemma try_catch_ok {A} (m : M A) (h : error → M A) w a w' :
  try_catch m h w = (Ok a, w') →
  m w = (Ok a, w') ∨ ∃ e w1, m w = (Throw e, w1) ∧ h e w1 = (Ok a, w').
Proof.
  intros Hr. apply try_catch_run in Hr as [(e & w1 & ? & ?)|[? _]]; eauto.
Qed.

Lemma client_query_ok {A} (statement : M A) w a w' :
  client_query statement w = (Ok a, w') →
  statement (set_tick (S (tick w)) w) = (Ok a, w').
Proof. apply postgresQuery_ok. Qed.

Lemma postgresTransaction_ok {A} (transaction : M A) w a w' :
  postgresTransaction transaction w = (Ok a, w') →
  ∃ w1 w2, tables w1 = tables w ∧ transaction w1 = (Ok a, w2) ∧ tables w' = tables w2.
Proof.
  unfold postgresTransaction. intros Hr.
  apply bind_ok in Hr as (snapshot & w0 & Hs & Hr).
  apply gets_run in Hs as [[= ->] ->].
  apply bind_ok in Hr as ([] & w1 & Hconnect & Hr).
  destruct (storage_call_run _ _ _ Hconnect) as [-> _].
  apply try_catch_ok in Hr as [Hr|(e & w2 & _ & Hr)].
  - apply bind_ok in Hr as ([] & w2 & Hbegin & Hr).
    destruct (storage_call_run _ _ _ Hbegin) as [-> _].
    apply bind_ok in Hr as (response & w3 & Hbody & Hr).
    apply bind_ok in Hr as ([] & w4 & Hcommit & Hr).
    destruct (storage_call_run _ _ _ Hcommit) as [-> _].
    apply ret_run in Hr as [[= ->] ->].
    eexists _, w3. split; [|split; [exact Hbody|]]; done.
  - apply bind_ok in Hr as ([] & w3 & _ & Hr).
    apply bind_ok in Hr as ([] & w4 & _ & Hr). discriminate.
Qed.

Lemma select_person_by_distinct_id_row teamId distinctId t p :
  p ∈ select_person_by_distinct_id teamId distinctId t → p ∈ posthog_person t.
Proof.
  unfold select_person_by_distinct_id. intros Hp.
  apply list_elem_of_bind in Hp as (q & Hq & Hin).
  apply list_elem_of_bind in Hq as (d & Hd & _).
  case_bool_decide; [|by apply elem_of_nil in Hd].
  apply list_elem_of_singleton in Hd. by subst.
Qed.

Section PersonProperties.
Context `{Collaborators}.

Lemma fetchPerson_run teamId distinctId w r w' :
  fetchPerson teamId distinctId w = (r, w') →
  tables w' = tables w
  ∧ r ≠ OutOfFuel
  ∧ ∀ p, r = Ok (Some p) → p ∈ posthog_person (tables w).
Proof.
  unfold fetchPerson, postgresQuery, bind, storage_call, gets, ret.
  destruct (faults w (tick w)) as [f|]; simpl; intros [= <- <-];
    (split; [done|]); (split; [done|]); intros p [= Hp].
  apply head_Some_elem_of in Hp.
  by eapply select_person_by_distinct_id_row.
Qed.

Lemma addDistinctIdPooled_ok person distinctId w o w' :
  addDistinctIdPooled person distinctId w = (Ok o, w') →
  posthog_person (tables w') = posthog_person (tables w).
Proof.
  unfold addDistinctIdPooled. intros Hr.
  apply bind_ok in Hr as (row & w1 & Hins & Hr).
  apply client_query_ok in Hins.
  assert (w' = w1) as -> by (destruct kafkaProducer; by apply ret_run in Hr as [_ ->]).
  unfold insert_persondistinctid, bind, nextval, gets, throw in Hins. simpl in Hins.
  destruct distinctId as [distinctId|]; [|done].
  case_bool_decide; [done|]. destruct (negb _); [done|].
  unfold modify_tables, modify, ret in Hins. by injection Hins as <- <-.
Qed.

Lemma createPerson_distinctIds_ok person distinctIds kafkaMessages w msgs w' :
  createPerson_distinctIds person distinctIds kafkaMessages w = (Ok msgs, w') →
  posthog_person (tables w') = posthog_person (tables w).
Proof.
  revert kafkaMessages w.
  induction distinctIds as [|d ds IH]; intros kafkaMessages w; simpl.
  - intros Hr. by apply ret_run in Hr as [_ ->].
  - intros Hr. apply bind_ok in Hr as (o & w1 & Hadd & Hr).
    apply addDistinctIdPooled_ok in Hadd. apply IH in Hr. congruence.
Qed.

Lemma queueMessages_tables (t : Tables) (records : list ProducerRecord.t) :
  spec (λ w, tables w = t) (for_each queueMessage records) any any.
Proof.
  apply spec_for_each. intros r _. unfold queueMessage.
  eapply spec_bind; [by apply spec_storage_call|]. intros _ _.
  by apply spec_modify.
Qed.

Lemma insert_person_ok createdAt properties teamId isUserId isIdentified uuid w p w' :
  insert_person createdAt properties teamId isUserId isIdentified uuid w = (Ok p, w') →
  p ∈ posthog_person (tables w') ∧ Person.properties p = properties.
Proof.
  unfold insert_person, bind, nextval, gets, modify_tables, modify, ret.
  destruct createdAt as [ms|]; [|done]. simpl.
  case_bool_decide; [done|]. intros [= <- <-]. simpl. split; [|done].
  apply elem_of_app. right. by apply list_elem_of_singleton.
Qed.

Lemma createPerson_ok createdAt properties teamId isUserId isIdentified uuid distinctIds
    w p w' :
  createPerson createdAt properties teamId isUserId isIdentified uuid distinctIds w
  = (Ok p, w') →
  p ∈ posthog_person (tables w') ∧ Person.properties p = properties.
Proof.
  unfold createPerson. intros Hr.
  apply bind_ok in Hr as ([person msgs] & w1 & Htx & Hr).
  apply bind_ok in Hr as ([] & w2 & Hq & Hr).
  apply ret_run in Hr as [[= ->] ->]. simpl in *.
  assert (tables w2 = tables w1) as ->.
  { apply when_run in Hq as [[_ Hq]|(_ & _ & ->)]; [|done].
    pose proof (queueMessages_tables (tables w1) msgs w1 eq_refl) as [Ht _].
    by rewrite Hq in Ht. }
  apply postgresTransaction_ok in Htx as (wa & wb & _ & Hbody & ->).
  apply bind_ok in Hbody as (person' & wc & Hins & Hbody).
  apply client_query_ok, insert_person_ok in Hins as [Hin Hprops].
  apply bind_ok in Hbody as (now & wd & Hnow & Hbody).
  apply gets_run in Hnow as [[= ->] ->].
  apply bind_ok in Hbody as (msgs' & we & Hids & Hbody).
  apply ret_run in Hbody as [[= -> ->] ->].
  apply createPerson_distinctIds_ok in Hids. by rewrite Hids.
Qed.

Lemma updatePersonProperties_find_ok teamId distinctId properties w found w' :
  updatePersonProperties_find teamId distinctId properties w = (Ok found, w') →
  found ∈ posthog_person (tables w').
Proof.
  unfold updatePersonProperties_find. intros Hr.
  apply bind_ok in Hr as (o & w1 & Hfetch & Hr).
  apply fetchPerson_run in Hfetch as (Ht1 & _ & Hrow).
  apply bind_ok in Hr as (o' & w2 & Hcreate & Hr).
  destruct o' as [p|]; [|discriminate].
  apply ret_run in Hr as [[= ->] ->].
  destruct o as [q|].
  - apply ret_run in Hcreate as [[= ->] ->]. rewrite Ht1. by apply Hrow.
  - apply try_catch_ok in Hcreate as [Hbody|(e & w3 & _ & Hagain)].
    + apply bind_ok in Hbody as (now & wa & _ & Hbody).
      apply bind_ok in Hbody as (uuid & wb & _ & Hbody).
      apply bind_ok in Hbody as (created & wc & Hcreated & Hbody).
      apply ret_run in Hbody as [[= ->] ->].
      by apply createPerson_ok in Hcreated as [? _].
    + apply fetchPerson_run in Hagain as (Ht3 & _ & Hrow3).
      rewrite Ht3. by apply Hrow3.
Qed.

Lemma updatePerson_ok person update w p w' :
  updatePerson person update w = (Ok p, w') →
  p = PersonUpdate.apply update person
  ∧ PersonUpdate.is_empty update = false
  ∧ tables w'
    = set_posthog_person
        ((λ q, if bool_decide (Person.id q = Person.id person)
               then PersonUpdate.apply update q else q) <$> posthog_person (tables w))
        (tables w).
Proof.
  unfold updatePerson. intros Hr.
  apply bind_ok in Hr as ([] & w1 & Hup & Hr).
  apply postgresQuery_ok in Hup.
  apply bind_ok in Hr as (now & w2 & Hnow & Hr).
  apply gets_run in Hnow as [[= ->] ->].
  apply bind_ok in Hr as ([] & w3 & Hq & Hr).
  apply ret_run in Hr as [[= ->] ->].
  unfold update_person_where_id in Hup.
  destruct (PersonUpdate.is_empty update) eqn:Hempty; [done|].
  unfold modify_tables, modify in Hup. injection Hup as <-.
  repeat split.
  apply when_run in Hq as [[_ Hq]|(_ & _ & ->)]; [|done].
  apply queueMessage_ok in Hq as [_ ->]. done.
Qed.

(** C5. A person-property update without increments leaves the person with
    the [set_once] entries overridden by the existing ones overridden by the
    [set] ones. The existing properties are those of the person found (or
    just created) for the distinct id; the result is both the person
    returned and the row of the person table. Key by key: [set] wins, then
    the existing value, and [set_once] only fills keys absent from both. *)
Theorem updatePersonProperties_merge (teamId : Z) (distinctId : string)
    (properties propertiesOnce : Properties) (w w1 w' : World) (found p : Person.t) :
  updatePersonProperties_find teamId distinctId properties w = (Ok found, w1) →
  updatePersonProperties teamId distinctId properties propertiesOnce ∅ w = (Ok p, w') →
  Person.properties p = propertiesOnce ⊕ Person.properties found ⊕ properties
  ∧ Person.id p = Person.id found
  ∧ p ∈ posthog_person (tables w')
  ∧ ∀ k, Person.properties p !! k
         = match properties !! k with
           | Some v => Some v
           | None =>
               match Person.properties found !! k with
               | Some v => Some v
               | None => propertiesOnce !! k
               end
           end.
Proof.
  intros Hfind Hr.
  pose proof (updatePersonProperties_find_ok _ _ _ _ _ _ Hfind) as Hrow.
  unfold updatePersonProperties in Hr.
  apply bind_ok in Hr as (found' & w1' & Hfind' & Hr).
  rewrite Hfind in Hfind'. injection Hfind' as <- <-.
  rewrite bool_decide_eq_true_2 in Hr by done. simpl in Hr.
  apply bind_ok in Hr as (inc & w2 & Hinc & Hr).
  apply ret_run in Hinc as [[= ->] ->].
  rewrite orb_true_r, andb_true_r in Hr.
  assert (Hmerged : Person.properties p
                    = propertiesOnce ⊕ Person.properties found ⊕ properties
                    ∧ Person.id p = Person.id found
                    ∧ p ∈ posthog_person (tables w')).
  { unfold equal in Hr. case_bool_decide as Heq.
    - apply ret_run in Hr as [[= ->] ->]. by rewrite <-Heq.
    - apply updatePerson_ok in Hr as (-> & _ & ->). simpl. repeat split.
      apply list_elem_of_fmap. exists found. split; [|done].
      by rewrite bool_decide_eq_true_2. }
  destruct Hmerged as (Hprops & Hid & Hin). repeat split; try done.
  intros k. rewrite Hprops. unfold spread2.
  rewrite !lookup_union.
  destruct (properties !! k), (Person.properties found !! k), (propertiesOnce !! k); done.
Qed.
End PersonProperties.

Lemma updatePersonProperties_merge_witness :
  ∃ p w',
    @updatePersonProperties (Reference.collaborators false false) 2 "d1" ∅ s6_set_once ∅
      s6_world = (Ok p, w')
    ∧ Person.properties p = <["color" := VStr "red"]> (<["size" := VStr "L"]> ∅)
    ∧ p ∈ posthog_person (tables w').
Proof.
  assert (∃ found w1,
            @updatePersonProperties_find (Reference.collaborators false false) 2 "d1" ∅
              s6_world = (Ok found, w1)
            ∧ Person.properties found = <["color" := VStr "red"]> ∅)
    as (found & w1 & Hfind & Hfound).
  { vm_compute. eexists _, _. split; reflexivity. }
  assert (∃ p w',
            @updatePersonProperties (Reference.collaborators false false) 2 "d1" ∅
              s6_set_once ∅ s6_world = (Ok p, w')) as (p & w' & Hrun).
  { vm_compute. eexists _, _. reflexivity. }
  exists p, w'. split; [exact Hrun|].
  destruct (@updatePersonProperties_merge (Reference.collaborators false false)
              2 "d1" ∅ s6_set_once s6_world w1 w' found p Hfind Hrun)
    as (Hprops & _ & Hin & _).
  split; [|exact Hin].
  rewrite Hprops, Hfound. apply (bool_decide_unpack _). by vm_compute.
Defined.

(** ** Termination of the storage layer *)


#[global] Instance True_silent : Silent (λ _, True).
Proof. by repeat split. Qed.

#[global] Instance True_tables_free : TablesFree (λ _, True).
Proof. by intros w t Hw. Qed.

Section Terminates.
Context `{Collaborators} (I : World → Prop) `{!Silent I} `{!TablesFree I}.

Lemma any_queueMessage record : spec I (queueMessage record) any any.
Proof.
  unfold queueMessage. apply spec_fault; inst; [done|].
  apply spec_modify. intros w Hw. by apply stable_kafka.
Qed.

Lemma any_clickhouseQuery query : spec I (clickhouseQuery query) any any.
Proof.
  unfold clickhouseQuery. destruct clickhouse; [|by apply spec_throw].
  apply spec_fault; inst; [done|].
  apply spec_modify. intros w Hw. by apply stable_clickhouse.
Qed.






Lemma any_addDistinctIdPooled person distinctId :
  spec I (addDistinctIdPooled person distinctId) any any.
Proof.
  eapply spec_weaken; [apply spec_addDistinctIdPooled; inst | done | done].
Qed.


Lemma any_createPerson_distinctIds person distinctIds kafkaMessages :
  spec I (createPerson_distinctIds person distinctIds kafkaMessages) any any.
Proof.
  revert kafkaMessages. induction distinctIds as [|d ds IH]; intros msgs; simpl.
  - by apply spec_ret.
  - apply spec_bind with (Q1 := any); [apply any_addDistinctIdPooled|].
    intros o _. apply IH.
Qed.

Lemma any_createPerson createdAt properties teamId isUserId isIdentified uuid
    distinctIds :
  spec I (createPerson createdAt properties teamId isUserId isIdentified uuid distinctIds)
    any any.
Proof.
  unfold createPerson.
  apply spec_bind with (Q1 := any).
  - apply spec_postgresTransaction; inst; [done|].
    apply spec_bind with (Q1 := any).
    { apply spec_client_query; inst; [done|].
      eapply spec_weaken; [apply spec_insert_person; inst | done | done]. }
    intros person _.
    apply spec_bind with (Q1 := any); [by apply spec_gets|]. intros now _.
    apply spec_bind with (Q1 := any); [apply any_createPerson_distinctIds|].
    intros msgs _. by apply spec_ret.
  - intros created _.
    apply spec_bind with (Q1 := any); [|intros _ _; by apply spec_ret].
    apply spec_when. intros _. apply spec_for_each. intros r _.
    apply any_queueMessage.
Qed.






End Terminates.

(** ** The merge retry budget *)

Section MergeBudget.
Context `{Collaborators}.









End MergeBudget.

(** ** Identity resolution is best effort *)

Section BestEffort.
Context `{Collaborators}.



End BestEffort.


(** ** Merging two persons *)

#[global] Instance on_tables_silent T : Silent (on_tables T).
Proof. by repeat split. Qed.

Lemma with_person_id_same target d :
  PersonDistinctId.person_id d = target → PersonDistinctId.with_person_id target d = d.
Proof. destruct d. simpl. by intros ->. Qed.

Lemma with_person_id_twice target d :
  PersonDistinctId.with_person_id target (PersonDistinctId.with_person_id target d)
  = PersonDistinctId.with_person_id target d.
Proof. done. Qed.

Lemma min_as_computed (a b : Z) : (if b <? a then b else a) = Z.min a b.
Proof. destruct (Z.ltb_spec b a); lia. Qed.

Lemma fault_not_a_race f :
  fault_error f ≠ DatabaseError foreign_key_violation
  ∧ is_RaceConditionError (fault_error f) = false.
Proof. by destruct f. Qed.

Lemma select_distinct_ids_attached p t d :
  d ∈ posthog_persondistinctid t → attached p d →
  d ∈ select_distinct_ids (Person.id p) (Person.team_id p) t.
Proof.
  intros Hd Hatt. unfold select_distinct_ids.
  rewrite merge_sort_Permutation. by apply list_elem_of_filter.
Qed.

Section Merge.
Context `{Collaborators}.

Lemma spec_queueMessage_faults I `{!Silent I} record (E : error → Prop) :
  (∀ f, E (fault_error f)) → spec I (queueMessage record) any E.
Proof.
  intros He. unfold queueMessage. apply spec_fault; inst; [done|].
  apply spec_modify. intros w Hw. by apply stable_kafka.
Qed.

Lemma spec_postgresTransaction_tables {A} (T : Tables → Prop) (m : M A) Q E :
  (∀ f, E (fault_error f)) →
  spec (on_tables T) m Q E → spec (on_tables T) (postgresTransaction m) Q E.
Proof.
  intros He Hm. unfold postgresTransaction.
  apply spec_bind with (Q1 := T); [by apply spec_gets|]. intros snapshot Hsnapshot.
  apply spec_fault; inst; [done|].
  apply spec_try_catch with (E1 := E).
  - apply spec_fault; inst; [done|].
    eapply spec_bind; [exact Hm|]. intros a Ha.
    apply spec_fault; inst; [done|]. by apply spec_ret.
  - intros e Hfail. apply spec_bind with (Q1 := any).
    { apply spec_modify. by intros w Hw. }
    intros _ _. apply spec_fault; inst; [done|]. by apply spec_throw.
Qed.

Section Persons.
Context (into other : Person.t) (ps : list Person.t) (ds : list PersonDistinctId.t).
Context (Hdistinct : Person.id into ≠ Person.id other).
Context (Hps : ∀ p, p ∈ ps → Person.id p = Person.id into).
Context (Hinto : ∃ p, p ∈ ps).

Lemma merged_merging t : merged into ps ds t → merging into ps ds t.
Proof. intros [Hp Hd]. split; [done|]. intros d Hin. right. by apply Hd. Qed.

Lemma merging_person_exists t : merging into ps ds t → person_exists (Person.id into) t = true.
Proof.
  intros [Hp _]. destruct Hinto as [p Hin]. apply bool_decide_eq_true.
  apply list_elem_of_fmap. exists p. split; [by rewrite (Hps p)|]. by apply Hp.
Qed.

(** The update of one row to the target keeps the invariant and never
    meets a missing target. *)
Lemma update_persondistinctid_person_merging rowId (E : error → Prop) :
  spec (on_tables (merging into ps ds))
    (update_persondistinctid_person (Person.id into) rowId) any E.
Proof.
  unfold update_persondistinctid_person.
  apply spec_bind with (Q1 := merging into ps ds); [by apply spec_gets|]. intros t Ht.
  rewrite (merging_person_exists t Ht), andb_false_r.
  apply spec_modify. intros w [Hp Hd]. split; [exact Hp|].
  intros d Hin. unfold on_tables. simpl.
  destruct (Hd d Hin) as [Hold|Hnew].
  - apply (list_elem_of_fmap_2
             (λ d, if bool_decide (PersonDistinctId.id d = rowId)
                   then PersonDistinctId.with_person_id (Person.id into) d else d))
      in Hold.
    case_bool_decide; [by right | by left].
  - right.
    apply (list_elem_of_fmap_2
             (λ d, if bool_decide (PersonDistinctId.id d = rowId)
                   then PersonDistinctId.with_person_id (Person.id into) d else d))
      in Hnew.
    by case_bool_decide.
Qed.

Lemma moveDistinctIds_merging target :
  Person.id target = Person.id into →
  spec (on_tables (merging into ps ds)) (moveDistinctIds other target) any
    (λ e, is_RaceConditionError e = false).
Proof.
  intros Htarget. unfold moveDistinctIds.
  apply spec_try_catch
    with (E1 := λ e, e ≠ DatabaseError foreign_key_violation
                     ∧ is_RaceConditionError e = false).
  - apply spec_bind with (Q1 := any).
    { unfold fetchDistinctIds. apply spec_postgresQuery; inst.
      - apply fault_not_a_race.
      - by apply spec_gets. }
    intros rows _. apply spec_for_each. intros d _. unfold moveDistinctId.
    apply spec_bind with (Q1 := any).
    + apply spec_postgresQuery; inst; [apply fault_not_a_race|].
      rewrite Htarget. apply update_persondistinctid_person_merging.
    + intros _ _. apply spec_when. intros _.
      apply spec_queueMessage_faults; [apply _|]. apply fault_not_a_race.
  - intros e [Hfk Hrace]. rewrite bool_decide_eq_false_2 by done.
    by apply spec_throw.
Qed.



Lemma deletePerson_merged :
  spec (on_tables (merged into ps ds)) (deletePerson other) any any.
Proof.
  unfold deletePerson. apply spec_bind with (Q1 := any).
  - apply spec_postgresTransaction_tables; [done|].
    apply spec_bind with (Q1 := any).
    + apply spec_client_query; inst; [done|].
      apply spec_modify. intros w [Hp Hd]. split; [exact Hp|].
      intros d Hin. unfold on_tables. simpl.
      apply list_elem_of_filter. split; [simpl; congruence | by apply Hd].
    + intros _ _. apply spec_client_query; inst; [done|].
      unfold delete_person_where_id.
      apply spec_bind with (Q1 := any); [by apply spec_gets|]. intros t _.
      destruct (_ && _); [by apply spec_throw|].
      apply spec_modify. intros w [Hp Hd]. split; [|exact Hd].
      intros p Hin. unfold on_tables. simpl.
      apply list_elem_of_filter. split; [|by apply Hp].
      rewrite (Hps p Hin). exact Hdistinct.
  - intros _ _. apply spec_when. intros _.
    apply spec_bind with (Q1 := any); [apply any_clickhouseQuery; apply _|].
    intros _ _. apply any_clickhouseQuery; apply _.
Qed.
End Persons.

Lemma moveDistinctId_ok person personDistinctId moveToPerson w w' :
  moveDistinctId person personDistinctId moveToPerson w = (Ok tt, w') →
  posthog_persondistinctid (tables w')
  = (λ d, if bool_decide (PersonDistinctId.id d = PersonDistinctId.id personDistinctId)
          then PersonDistinctId.with_person_id (Person.id moveToPerson) d else d)
      <$> posthog_persondistinctid (tables w).
Proof.
  unfold moveDistinctId. intros Hr.
  apply bind_ok in Hr as ([] & w1 & Hup & Hq).
  apply postgresQuery_ok in Hup.
  assert (tables w' = tables w1) as ->.
  { apply when_run in Hq as [[_ Hq]|(_ & _ & ->)]; [|done].
    by apply queueMessage_ok in Hq as [_ ->]. }
  unfold update_persondistinctid_person, bind, gets, throw, modify_tables, modify in Hup.
  simpl in Hup. destruct (_ && _); [done|]. by injection Hup as <-.
Qed.

Lemma for_each_moveDistinctId_ok source target rows w w' :
  for_each (λ d, moveDistinctId source d target) rows w = (Ok tt, w') →
  ∀ d, d ∈ posthog_persondistinctid (tables w) →
    PersonDistinctId.id d ∈ PersonDistinctId.id <$> rows
    ∨ PersonDistinctId.person_id d = Person.id target →
    PersonDistinctId.with_person_id (Person.id target) d
    ∈ posthog_persondistinctid (tables w').
Proof.
  revert w. induction rows as [|r rows IH]; intros w Hr d Hin Hd; simpl in Hr.
  - apply ret_run in Hr as [_ ->].
    destruct Hd as [Hd|Hd]; [by apply elem_of_nil in Hd|].
    by rewrite with_person_id_same.
  - apply bind_ok in Hr as ([] & w1 & Hmove & Hr).
    apply moveDistinctId_ok in Hmove.
    apply (list_elem_of_fmap_2
             (λ d, if bool_decide (PersonDistinctId.id d = PersonDistinctId.id r)
                   then PersonDistinctId.with_person_id (Person.id target) d else d))
      in Hin.
    rewrite <-Hmove in Hin. case_bool_decide as Hid.
    + rewrite <-(with_person_id_twice (Person.id target) d).
      apply (IH w1 Hr _ Hin). by right.
    + apply (IH w1 Hr _ Hin). destruct Hd as [Hd|Hd]; [left | by right].
      rewrite fmap_cons in Hd. apply elem_of_cons in Hd as [Hd|Hd]; [done | exact Hd].
Qed.

Lemma moveDistinctIds_ok source target w w' :
  moveDistinctIds source target w = (Ok tt, w') →
  ∀ d, d ∈ posthog_persondistinctid (tables w) →
    attached source d ∨ PersonDistinctId.person_id d = Person.id target →
    PersonDistinctId.with_person_id (Person.id target) d
    ∈ posthog_persondistinctid (tables w').
Proof.
  unfold moveDistinctIds. intros Hr d Hin Hd.
  apply try_catch_ok in Hr as [Hr|(e & w1 & _ & Hr)].
  - apply bind_ok in Hr as (rows & w1 & Hrows & Hr).
    unfold fetchDistinctIds in Hrows. apply postgresQuery_ok in Hrows.
    apply gets_run in Hrows as [[= ->] ->].
    apply (for_each_moveDistinctId_ok _ _ _ _ _ Hr d Hin).
    destruct Hd as [Hd|Hd]; [left | by right].
    apply list_elem_of_fmap_2. by apply select_distinct_ids_attached.
  - case_bool_decide; discriminate.
Qed.

Lemma clickhouse_keeps_tables (t : Tables) (person : Person.t) :
  spec (on_tables (λ t', t' = t))
    (when clickhouse
       (clickhouseQuery (AlterTablePersonDelete (Person.uuid person)) ;;;
        clickhouseQuery (AlterTablePersonDistinctIdDelete (Person.uuid person))))
    any any.
Proof.
  apply spec_when. intros _.
  apply spec_bind with (Q1 := any); [apply any_clickhouseQuery; apply _|].
  intros _ _. apply any_clickhouseQuery; apply _.
Qed.

Lemma deletePerson_ok person w w' :
  deletePerson person w = (Ok tt, w') →
  posthog_person (tables w')
  = filter (λ p, Person.id p ≠ Person.id person) (posthog_person (tables w))
  ∧ posthog_persondistinctid (tables w')
    = filter (λ d, PersonDistinctId.person_id d ≠ Person.id person)
        (posthog_persondistinctid (tables w)).
Proof.
  unfold deletePerson. intros Hr.
  apply bind_ok in Hr as ([] & w1 & Htx & Hch).
  assert (tables w' = tables w1) as ->.
  { pose proof (clickhouse_keeps_tables (tables w1) person w1 eq_refl) as [Ht _].
    by rewrite Hch in Ht. }
  apply postgresTransaction_ok in Htx as (wa & wb & Ha & Hbody & ->).
  apply bind_ok in Hbody as ([] & wc & Hd1 & Hd2).
  apply client_query_ok in Hd1. apply client_query_ok in Hd2.
  unfold delete_persondistinctid_where_person, modify_tables, modify in Hd1.
  injection Hd1 as <-.
  unfold delete_person_where_id, bind, gets, throw, modify_tables, modify in Hd2.
  simpl in Hd2. destruct (_ && _); [done|]. injection Hd2 as <-. simpl.
  by rewrite Ha.
Qed.

(** The retry loop, started where the persons [ps] (rows of the target) are
    in the table and each of the rows [ds] is there, moved or not: it never
    asks for an alias restart, and when it ends normally the rows are all
    moved, the persons [ps] are still there and the other person is gone
    with every row that referred to it. *)
Lemma mergePeople_loop_merges (into other : Person.t) (ps : list Person.t)
    (ds : list PersonDistinctId.t) fuel target mergeIntoDistinctId
    otherPersonDistinctId failedAttempts w left w' :
  Person.id into ≠ Person.id other →
  (∀ p, p ∈ ps → Person.id p = Person.id into) →
  (∃ p, p ∈ ps) →
  (∀ d, d ∈ ds → attached other d) →
  Person.id target = Person.id into →
  merging into ps ds (tables w) →
  mergePeople_loop fuel target mergeIntoDistinctId other otherPersonDistinctId
    failedAttempts w = (Ok left, w') →
  left.1 ≠ LoopRetryAlias
  ∧ (left.1 = LoopDone →
     merged into ps ds (tables w')
     ∧ (Person.id other ∉ Person.id <$> posthog_person (tables w'))
     ∧ (∀ d, d ∈ posthog_persondistinctid (tables w') →
             PersonDistinctId.person_id d ≠ Person.id other)).
Proof.
  intros Hdistinct Hps Hinto Hds Htarget.
  revert failedAttempts w.
  induction fuel as [|fuel IH]; intros failedAttempts w Hmerging Hr; simpl in Hr.
  { apply ret_run in Hr as [[= ->] _]. by split. }
  unfold bind at 1, attempt at 1 in Hr.
  pose proof (moveDistinctIds_merging into other ps ds Hps Hinto target Htarget w
                Hmerging) as [Hmerging1 Hnorace].
  pose proof (moveDistinctIds_ok other target w) as Hmoved.
  destruct (moveDistinctIds other target w) as [[[]|e|] w1]; simpl in *.
  - assert (Hmerged1 : merged into ps ds (tables w1)).
    { destruct Hmerging as [_ Hd], Hmerging1 as [Hp1 _]. split; [exact Hp1|].
      intros d Hin. rewrite <-Htarget.
      destruct (Hd d Hin) as [Hold|Hnew].
      - apply (Hmoved w1 eq_refl d Hold). left. by apply Hds.
      - rewrite <-Htarget in Hnew.
        rewrite <-(with_person_id_twice (Person.id target) d).
        apply (Hmoved w1 eq_refl _ Hnew). by right. }
    unfold bind at 1, attempt at 1 in Hr.
    pose proof (deletePerson_merged into other ps ds Hdistinct Hps w1 Hmerged1)
      as [Hmerged2 _].
    pose proof (deletePerson_ok other w1) as Hdeleted.
    destruct (deletePerson other w1) as [[[]|e|] w2]; simpl in *.
    + apply ret_run in Hr as [[= ->] ->]. split; [done|]. intros _.
      destruct (Hdeleted w2 eq_refl) as [Hpersons Hrows].
      split; [exact Hmerged2|]. split.
      * rewrite Hpersons. intros Hin. apply list_elem_of_fmap in Hin as (p & Hid & Hin).
        by apply list_elem_of_filter in Hin as [Hne _].
      * intros d Hin. rewrite Hrows in Hin.
        by apply list_elem_of_filter in Hin as [Hne _].
    + destruct (is_DatabaseError e); simpl in Hr.
      * destruct (failedAttempts + 1 =? MAX_FAILED_PERSON_MERGE_ATTEMPTS).
        -- apply ret_run in Hr as [[= ->] _]. by split.
        -- eapply IH; [|exact Hr]. by apply merged_merging.
      * apply ret_run in Hr as [[= ->] _]. by split.
    + apply ret_run in Hr as [[= ->] _]. by split.
  - unfold bind at 1 in Hr. simpl in Hr. rewrite Hnorace in Hr. simpl in Hr.
    apply ret_run in Hr as [[= ->] _]. by split.
  - apply ret_run in Hr as [[= ->] _]. by split.
Qed.


End Merge.



(** * Further properties of the person store *)

(** ** One call to the pool *)

Lemma postgresQuery_unfold {A} (statement : M A) w :
  postgresQuery statement w
  = match faults w (tick w) with
    | Some f => (Throw (fault_error f), set_tick (S (tick w)) w)
    | None => statement (set_tick (S (tick w)) w)
    end.
Proof.
  unfold postgresQuery, bind, storage_call. by destruct (faults w (tick w)).
Qed.

Lemma client_query_unfold {A} (statement : M A) w :
  client_query statement w
  = match faults w (tick w) with
    | Some f => (Throw (fault_error f), set_tick (S (tick w)) w)
    | None => statement (set_tick (S (tick w)) w)
    end.
Proof. apply postgresQuery_unfold. Qed.

Lemma select_person_by_distinct_id_spec teamId distinctId t p :
  p ∈ select_person_by_distinct_id teamId distinctId t
  ↔ p ∈ posthog_person t
    ∧ ∃ d, d ∈ posthog_persondistinctid t ∧ joined teamId distinctId p d.
Proof.
  unfold select_person_by_distinct_id, joined. split.
  - intros Hp. apply list_elem_of_bind in Hp as (q & Hq & Hin).
    apply list_elem_of_bind in Hq as (d & Hd & Hrow).
    case_bool_decide as Hjoin; [|by apply elem_of_nil in Hd].
    apply list_elem_of_singleton in Hd. subst. eauto.
  - intros (Hin & d & Hrow & Hjoin).
    apply list_elem_of_bind. exists p. split; [|done].
    apply list_elem_of_bind. exists d. split; [|done].
    rewrite bool_decide_eq_true_2 by done. by apply list_elem_of_singleton.
Qed.

Section Lookup.
Context `{Collaborators}.

(** X1. [fetchPerson] is one read: it changes nothing but the count of calls
    to the pool, and fails only when the pool does. The person it returns is
    a row of the team joined to a distinct-id row of the team with the
    distinct id asked for; it returns [undefined] exactly when no such pair
    of rows exists, which is always so when the distinct id asked for is
    [undefined] or [null]. *)
Theorem fetchPerson_lookup (teamId : Z) (distinctId : option string) (w : World) :
  (fetchPerson teamId distinctId w).2 = set_tick (S (tick w)) w
  ∧ match (fetchPerson teamId distinctId w).1 with
    | Ok (Some p) =>
        faults w (tick w) = None
        ∧ p ∈ posthog_person (tables w)
        ∧ ∃ d, d ∈ posthog_persondistinctid (tables w) ∧ joined teamId distinctId p d
    | Ok None =>
        faults w (tick w) = None
        ∧ ∀ p d, p ∈ posthog_person (tables w) →
                 d ∈ posthog_persondistinctid (tables w) →
                 ¬ joined teamId distinctId p d
    | Throw e => ∃ f, faults w (tick w) = Some f ∧ e = fault_error f
    | OutOfFuel => False
    end.
Proof.
  unfold fetchPerson, bind. rewrite postgresQuery_unfold.
  destruct (faults w (tick w)) as [f|] eqn:Hfault; simpl; [eauto|].
  split; [done|].
  destruct (select_person_by_distinct_id teamId distinctId (tables w)) as [|p l] eqn:Hl;
    simpl.
  - split; [done|]. intros p d Hp Hd Hjoin.
    assert (p ∈ select_person_by_distinct_id teamId distinctId (tables w)) as Hin
      by (apply select_person_by_distinct_id_spec; eauto).
    rewrite Hl in Hin. by apply elem_of_nil in Hin.
  - split; [done|]. apply select_person_by_distinct_id_spec. rewrite Hl. by left.
Qed.
End Lookup.

(** ** Transactions *)

Lemma postgresTransaction_run {A} (transaction : M A) w r w' :
  postgresTransaction transaction w = (r, w') →
  match r with
  | Ok a =>
      ∃ w2, transaction (set_tick (S (S (tick w))) w) = (Ok a, w2)
            ∧ w' = set_tick (S (tick w2)) w2
  | Throw e => tables w' = tables w
  | OutOfFuel => ∃ w2, transaction (set_tick (S (S (tick w))) w) = (OutOfFuel, w2)
  end.
Proof.
  unfold postgresTransaction, bind, gets, try_catch, storage_call, modify, throw, ret.
  simpl. destruct (faults w (tick w)); simpl; [by intros [= <- <-]|].
  destruct (faults w (S (tick w))); simpl.
  { destruct (faults w (S (S (tick w)))); by intros [= <- <-]. }
  destruct (transaction _) as [[a|e|] w2]; simpl.
  - destruct (faults w2 (tick w2)); simpl.
    + destruct (faults w2 (S (tick w2))); by intros [= <- <-].
    + intros [= <- <-]. eauto.
  - destruct (faults w2 (tick w2)); by intros [= <- <-].
  - intros [= <- <-]. eauto.
Qed.

Lemma postgresTransaction_throws {A} (transaction : M A) w e w' :
  postgresTransaction transaction w = (Throw e, w') →
  (∃ f, e = fault_error f)
  ∨ ∃ w2, transaction (set_tick (S (S (tick w))) w) = (Throw e, w2).
Proof.
  unfold postgresTransaction, bind, gets, try_catch, storage_call, modify, throw, ret.
  simpl. destruct (faults w (tick w)); simpl; [intros [= <- <-]; eauto|].
  destruct (faults w (S (tick w))); simpl.
  { destruct (faults w (S (S (tick w)))); intros [= <- <-]; eauto. }
  destruct (transaction _) as [[a|e'|] w2]; simpl.
  - destruct (faults w2 (tick w2)); simpl; [|done].
    destruct (faults w2 (S (tick w2))); intros [= <- <-]; eauto.
  - destruct (faults w2 (tick w2)); intros [= <- <-]; eauto.
  - done.
Qed.

(** X2. [postgresTransaction] is all or nothing on the tables: when it
    throws, whether the body threw or the connection failed at BEGIN, COMMIT
    or ROLLBACK, the tables are those it started with; when it returns, the
    value and the tables are those of the body, run after the connection was
    taken and BEGIN sent. *)
Theorem postgresTransaction_atomic {A} (transaction : M A) (w : World) :
  match (postgresTransaction transaction w).1 with
  | Ok a =>
      ∃ w2, transaction (set_tick (S (S (tick w))) w) = (Ok a, w2)
            ∧ (postgresTransaction transaction w).2 = set_tick (S (tick w2)) w2
  | Throw e => tables (postgresTransaction transaction w).2 = tables w
  | OutOfFuel => ∃ w2, transaction (set_tick (S (S (tick w))) w) = (OutOfFuel, w2)
  end.
Proof.
  apply (postgresTransaction_run transaction w). apply surjective_pairing.
Qed.

(** ** What a computation keeps *)

Section Keeps.
Context {A B : Type} (I : World → Prop).

Lemma keeps_ret (a : A) : keeps I (ret a).
Proof. by intros w Hw. Qed.

Lemma keeps_throw (e : error) : keeps I (@throw A e).
Proof. by intros w Hw. Qed.

Lemma keeps_out_of_fuel : keeps I (@out_of_fuel A).
Proof. by intros w Hw. Qed.

Lemma keeps_lift (r : result A) : keeps I (lift r).
Proof. by intros w Hw. Qed.

Lemma keeps_gets (f : World → A) : keeps I (gets f).
Proof. by intros w Hw. Qed.

Lemma keeps_modify (f : World → World) : (∀ w, I w → I (f w)) → keeps I (modify f).
Proof. intros Hf w Hw. by apply Hf. Qed.

Lemma keeps_bind (m : M A) (k : A → M B) :
  keeps I m → (∀ a, keeps I (k a)) → keeps I (bind m k).
Proof.
  intros Hm Hk w Hw. unfold bind. specialize (Hm w Hw).
  destruct (m w) as [[a|e|] w1]; simpl in *; [by apply Hk|done|done].
Qed.

Lemma keeps_try_catch (m : M A) (h : error → M A) :
  keeps I m → (∀ e, keeps I (h e)) → keeps I (try_catch m h).
Proof.
  intros Hm Hh w Hw. unfold try_catch. specialize (Hm w Hw).
  destruct (m w) as [[a|e|] w1]; simpl in *; [done|by apply Hh|done].
Qed.

Lemma keeps_attempt (m : M A) : keeps I m → keeps I (attempt m).
Proof.
  intros Hm w Hw. unfold attempt. specialize (Hm w Hw). by destruct (m w).
Qed.
End Keeps.

Lemma keeps_when (I : World → Prop) (b : bool) (m : M unit) :
  keeps I m → keeps I (when b m).
Proof. intros Hm. destruct b; [done|]. apply keeps_ret. Qed.

Lemma keeps_for_each {A} (I : World → Prop) (f : A → M unit) (l : list A) :
  (∀ x, x ∈ l → keeps I (f x)) → keeps I (for_each f l).
Proof.
  induction l as [|x l IH]; intros Hf; simpl; [apply keeps_ret|].
  apply keeps_bind; [apply Hf; by left|]. intros _. apply IH.
  intros y Hy. apply Hf. by right.
Qed.

#[global] Instance tables_free_rollback I `{!TablesFree I} : Rollback I.
Proof. intros w w' _ Hw'. by apply stable_tables. Qed.

#[global] Instance tables_free_person_writes I `{!TablesFree I} : PersonWrites I.
Proof. split; intros w l Hw; by apply stable_tables. Qed.

#[global] Instance tables_free_cohort_writes I `{!TablesFree I} : CohortWrites I.
Proof. intros w l Hw. by apply stable_tables. Qed.

#[global] Instance silent_quiet I `{!Silent I} : Quiet I.
Proof.
  split; intros w x Hw;
    [by apply stable_logs | by apply stable_uuids | by apply stable_clickhouse].
Qed.

#[global] Instance silent_unreported I `{!Silent I} : Unreported I.
Proof. intros w x Hw. by apply stable_sentry. Qed.

#[global] Instance silent_publishes P I `{!Silent I} : Publishes P I.
Proof. intros w r _ Hw. by apply stable_kafka. Qed.

#[global] Instance on_tables_rollback T : Rollback (on_tables T).
Proof. by intros w w' Hw _. Qed.

#[global] Instance kafka_is_bookkeeping k : Bookkeeping (kafka_is k).
Proof. by split. Qed.

#[global] Instance kafka_is_tables_free k : TablesFree (kafka_is k).
Proof. by intros w t Hw. Qed.

#[global] Instance kafka_is_quiet k : Quiet (kafka_is k).
Proof. by split. Qed.

#[global] Instance kafka_is_unreported k : Unreported (kafka_is k).
Proof. by intros w s Hw. Qed.

Ltac keeps_go :=
  repeat lazymatch goal with
  | |- keeps _ (bind _ _) => apply keeps_bind; [|intros ?]
  | |- keeps _ (ret _) => apply keeps_ret
  | |- keeps _ (throw _) => apply keeps_throw
  | |- keeps _ out_of_fuel => apply keeps_out_of_fuel
  | |- keeps _ (lift _) => apply keeps_lift
  | |- keeps _ (gets _) => apply keeps_gets
  | |- keeps _ (try_catch _ _) => apply keeps_try_catch; [|intros ?]
  | |- keeps _ (attempt _) => apply keeps_attempt
  | |- keeps _ (when _ _) => apply keeps_when
  | |- keeps _ (for_each _ _) => apply keeps_for_each; intros ? _
  | |- keeps _ (if ?b then _ else _) => destruct b
  | |- keeps _ (match ?x with _ => _ end) => destruct x
  end.

Section KeepsStorage.
Context `{Collaborators} (I : World → Prop) `{!Bookkeeping I}.

Lemma keeps_storage_call : keeps I storage_call.
Proof.
  intros w Hw. unfold storage_call.
  destruct (faults w (tick w)); by apply stable_tick.
Qed.

Lemma keeps_nextval : keeps I nextval.
Proof. intros w Hw. by apply stable_sequence. Qed.

Lemma keeps_postgresQuery {A} (m : M A) : keeps I m → keeps I (postgresQuery m).
Proof. intros Hm. apply keeps_bind; [apply keeps_storage_call | done]. Qed.

Lemma keeps_client_query {A} (m : M A) : keeps I m → keeps I (client_query m).
Proof. apply keeps_postgresQuery. Qed.

Lemma keeps_postgresTransaction `{!Rollback I} {A} (m : M A) :
  keeps I m → keeps I (postgresTransaction m).
Proof.
  intros Hm w Hw. unfold postgresTransaction.
  change (I (bind (gets tables)
               (λ snapshot, storage_call ;;;
                  try_catch (storage_call ;;; response <- m ;; storage_call ;;; ret response)
                    (λ e, modify (set_tables snapshot) ;;; storage_call ;;; throw e)) w).2).
  unfold bind at 1, gets. simpl.
  assert (keeps I
            (storage_call ;;;
             try_catch (storage_call ;;; response <- m ;; storage_call ;;; ret response)
               (λ e, modify (set_tables (tables w)) ;;; storage_call ;;; throw e)))
    as Hrest; [|by apply Hrest].
  keeps_go; try apply keeps_storage_call; try done.
  apply keeps_modify. intros w' Hw'. by apply stable_rollback.
Qed.

Lemma keeps_queueMessage P `{!Publishes P I} record :
  P record → keeps I (queueMessage record).
Proof.
  intros Hrecord. unfold queueMessage.
  apply keeps_bind; [apply keeps_storage_call|]. intros _.
  apply keeps_modify. intros w Hw. by apply stable_publish.
Qed.

Lemma keeps_fetchPerson teamId distinctId : keeps I (fetchPerson teamId distinctId).
Proof. unfold fetchPerson. keeps_go. apply keeps_postgresQuery. apply keeps_gets. Qed.

Lemma keeps_fetchDistinctIds person : keeps I (fetchDistinctIds person).
Proof. apply keeps_postgresQuery. apply keeps_gets. Qed.

Lemma keeps_Sentry_captureException `{!Unreported I} e extra :
  keeps I (Sentry_captureException e extra).
Proof. apply keeps_modify. intros w Hw. by apply quiet_sentry. Qed.

Section Diagnostics.
Context `{!Quiet I}.

Lemma keeps_log line : keeps I (log line).
Proof. apply keeps_modify. intros w Hw. by apply quiet_logs. Qed.

Lemma keeps_DateTime_utc : keeps I DateTime_utc.
Proof. apply keeps_gets. Qed.

Lemma keeps_new_UUIDT : keeps I new_UUIDT.
Proof. intros w Hw. by apply quiet_uuids. Qed.

Lemma keeps_clickhouseQuery query : keeps I (clickhouseQuery query).
Proof.
  unfold clickhouseQuery. keeps_go; [apply keeps_storage_call|].
  apply keeps_modify. intros w Hw. by apply quiet_clickhouse.
Qed.
End Diagnostics.

Section Rows.
Context `{!PersonWrites I}.

Lemma keeps_modify_person (f : list Person.t → list Person.t) :
  keeps I (modify_tables (λ t, set_posthog_person (f (posthog_person t)) t)).
Proof. apply keeps_modify. intros w Hw. by apply stable_person. Qed.

Lemma keeps_modify_persondistinctid
    (f : list PersonDistinctId.t → list PersonDistinctId.t) :
  keeps I (modify_tables
             (λ t, set_posthog_persondistinctid (f (posthog_persondistinctid t)) t)).
Proof. apply keeps_modify. intros w Hw. by apply stable_persondistinctid. Qed.

Lemma keeps_insert_person createdAt properties teamId isUserId isIdentified uuid :
  keeps I (insert_person createdAt properties teamId isUserId isIdentified uuid).
Proof.
  unfold insert_person. keeps_go; try apply keeps_nextval.
  apply (keeps_modify_person (λ l, l ++ [_])%list).
Qed.

Lemma keeps_insert_persondistinctid distinctId personId teamId :
  keeps I (insert_persondistinctid distinctId personId teamId).
Proof.
  unfold insert_persondistinctid. keeps_go; try apply keeps_nextval.
  apply (keeps_modify_persondistinctid (λ l, l ++ [_])%list).
Qed.

Lemma keeps_update_person_where_id update pid :
  keeps I (update_person_where_id update pid).
Proof.
  unfold update_person_where_id. keeps_go.
  apply (keeps_modify_person (fmap _)).
Qed.

Lemma keeps_update_persondistinctid_person personId rowId :
  keeps I (update_persondistinctid_person personId rowId).
Proof.
  unfold update_persondistinctid_person. keeps_go.
  apply (keeps_modify_persondistinctid (fmap _)).
Qed.

Lemma keeps_delete_persondistinctid_where_person pid :
  keeps I (delete_persondistinctid_where_person pid).
Proof. apply (keeps_modify_persondistinctid (filter _)). Qed.

Lemma keeps_delete_person_where_id pid : keeps I (delete_person_where_id pid).
Proof.
  unfold delete_person_where_id. keeps_go. apply (keeps_modify_person (filter _)).
Qed.

Lemma keeps_addDistinctIdPooled person distinctId :
  keeps I (addDistinctIdPooled person distinctId).
Proof.
  unfold addDistinctIdPooled. keeps_go.
  apply keeps_client_query, keeps_insert_persondistinctid.
Qed.

Lemma keeps_createPerson_distinctIds person distinctIds kafkaMessages :
  keeps I (createPerson_distinctIds person distinctIds kafkaMessages).
Proof.
  revert kafkaMessages. induction distinctIds as [|d l IH]; intros msgs; simpl.
  - apply keeps_ret.
  - apply keeps_bind; [apply keeps_addDistinctIdPooled|]. intros m. apply IH.
Qed.
End Rows.
End KeepsStorage.

(** ** Creating a person *)

Lemma insert_persondistinctid_unfold distinctId personId teamId w :
  insert_persondistinctid distinctId personId teamId w
  = let w1 := set_sequence (sequence w + 1) w in
    match distinctId with
    | None => (Throw (DatabaseError not_null_violation), w1)
    | Some distinctId =>
        if bool_decide (distinct_id_taken teamId distinctId (tables w))
        then (Throw (DatabaseError unique_violation), w1)
        else if negb (person_exists personId (tables w))
        then (Throw (DatabaseError foreign_key_violation), w1)
        else
          let row := PersonDistinctId.mk (sequence w) personId distinctId teamId in
          (Ok row,
           set_tables
             (set_posthog_persondistinctid (posthog_persondistinctid (tables w) ++ [row])
                (tables w)) w1)
    end.
Proof.
  unfold insert_persondistinctid, bind, nextval, gets, throw. simpl.
  destruct distinctId as [distinctId|]; [|done].
  destruct (decide (distinct_id_taken teamId distinctId (tables w))) as [Htaken|Hfree].
  - rewrite !bool_decide_eq_true_2; done.
  - rewrite !bool_decide_eq_false_2 by done.
    by destruct (person_exists personId (tables w)).
Qed.

Lemma insert_person_unfold createdAt properties teamId isUserId isIdentified uuid w :
  insert_person createdAt properties teamId isUserId isIdentified uuid w
  = match createdAt with
    | Invalid => (Throw (DatabaseError not_null_violation), w)
    | Valid ms =>
        let w1 := set_sequence (sequence w + 1) w in
        if bool_decide (Exists (λ p, Person.team_id p = teamId ∧ Person.uuid p = uuid)
                          (posthog_person (tables w)))
        then (Throw (DatabaseError unique_violation), w1)
        else
          let row :=
            Person.mk (sequence w) uuid teamId ms properties isUserId isIdentified in
          (Ok row,
           set_tables (set_posthog_person (posthog_person (tables w) ++ [row]) (tables w))
             w1)
    end.
Proof.
  unfold insert_person, bind, nextval, gets, throw. destruct createdAt; [|done]. simpl.
  by case_bool_decide.
Qed.

Lemma distinct_id_taken_app teamId distinctId t rows :
  distinct_id_taken teamId distinctId
    (set_posthog_persondistinctid (posthog_persondistinctid t ++ rows) t)
  ↔ distinct_id_taken teamId distinctId t
    ∨ Exists (λ d, PersonDistinctId.team_id d = teamId
                   ∧ PersonDistinctId.distinct_id d = distinctId) rows.
Proof. unfold distinct_id_taken. simpl. apply Exists_app. Qed.

Section CreatePerson.
Context `{Collaborators}.

(** The record [addDistinctIdPooled] returns for the producer. *)
Lemma addDistinctIdPooled_run person (distinctId : string) w r w' :
  addDistinctIdPooled person (Some distinctId) w = (r, w') →
  kafka w' = kafka w
  ∧ match r with
    | Ok o =>
        ¬ distinct_id_taken (Person.team_id person) distinctId (tables w)
        ∧ person_exists (Person.id person) (tables w) = true
        ∧ tables w'
          = set_posthog_persondistinctid
              (posthog_persondistinctid (tables w)
               ++ [PersonDistinctId.mk (sequence w) (Person.id person) distinctId
                     (Person.team_id person)])
              (tables w)
        ∧ sequence w' = sequence w + 1
        ∧ (kafkaProducer = true ↔ is_Some o)
        ∧ (∀ m, o = Some m → distinct_id_record (Person.uuid person) m)
    | Throw e =>
        tables w' = tables w
        ∧ ((∃ f, e = fault_error f)
           ∨ (e = DatabaseError unique_violation
              ∧ distinct_id_taken (Person.team_id person) distinctId (tables w))
           ∨ (e = DatabaseError foreign_key_violation
              ∧ ¬ distinct_id_taken (Person.team_id person) distinctId (tables w)
              ∧ person_exists (Person.id person) (tables w) = false))
    | OutOfFuel => False
    end.
Proof.
  unfold addDistinctIdPooled, bind. rewrite client_query_unfold.
  destruct (faults w (tick w)) as [f|].
  { intros [= <- <-]. simpl. split_and!; try done. left. by exists f. }
  rewrite insert_persondistinctid_unfold. simpl.
  case_bool_decide as Htaken.
  { intros [= <- <-]. simpl. split_and!; try done. right. left. done. }
  destruct (person_exists (Person.id person) (tables w)) eqn:Hexists; simpl.
  - destruct kafkaProducer; intros [= <- <-]; simpl; split_and!; try done.
    intros m [= <-]. eexists. split; [done|]. by rewrite lookup_insert_eq.
  - intros [= <- <-]. simpl. split_and!; try done. right. right. done.
Qed.

Lemma createPerson_distinctIds_run person (distinctIds : list string) kafkaMessages
    w r w' :
  createPerson_distinctIds person (Some <$> distinctIds) kafkaMessages w = (r, w') →
  kafka w' = kafka w
  ∧ match r with
    | Ok msgs =>
        ∃ rows,
          tables w'
          = set_posthog_persondistinctid (posthog_persondistinctid (tables w) ++ rows)
              (tables w)
          ∧ PersonDistinctId.distinct_id <$> rows = distinctIds
          ∧ Forall (λ d, PersonDistinctId.person_id d = Person.id person
                         ∧ PersonDistinctId.team_id d = Person.team_id person) rows
          ∧ (∀ d, d ∈ distinctIds →
                  ¬ distinct_id_taken (Person.team_id person) d (tables w))
          ∧ length msgs
            = (length kafkaMessages
               + if kafkaProducer then length distinctIds else 0)%nat
    | Throw e => True
    | OutOfFuel => False
    end.
Proof.
  revert kafkaMessages w.
  induction distinctIds as [|d l IH]; intros msgs w Hr; simpl in Hr.
  - apply ret_run in Hr as [-> ->]. split; [done|]. exists []. split_and!.
    + destruct (tables w). simpl. by rewrite app_nil_r.
    + done.
    + done.
    + intros d Hd. by apply elem_of_nil in Hd.
    + destruct kafkaProducer; simpl; lia.
  - apply bind_run in Hr as [(o & w1 & Hadd & Hr)|[(e & Hadd & ->)|[Hadd ->]]].
    + apply addDistinctIdPooled_run in Hadd
        as (Hk1 & Hfree & _ & Ht1 & _ & Hproducer & _).
      apply IH in Hr as (Hk2 & Hr). split; [congruence|].
      destruct r as [msgs'|e|]; [|done|done].
      destruct Hr as (rows & Ht2 & Hids & Hrows & Hfree' & Hlen).
      eexists (_ :: rows). split_and!.
      * rewrite Ht2, Ht1. simpl. by rewrite <-app_assoc.
      * by rewrite fmap_cons, Hids.
      * by constructor.
      * intros d' Hd'. apply elem_of_cons in Hd' as [->|Hd']; [done|].
        intros Htaken. apply (Hfree' d' Hd'). rewrite Ht1.
        apply distinct_id_taken_app. by left.
      * rewrite Hlen. destruct kafkaProducer; simpl.
        -- destruct (proj1 Hproducer eq_refl) as [m ->].
           rewrite length_app. simpl. lia.
        -- destruct o as [m|]; [|lia].
           by specialize (proj2 Hproducer (mk_is_Some _ _ eq_refl)).
    + by apply addDistinctIdPooled_run in Hadd as [Hk _].
    + by apply addDistinctIdPooled_run in Hadd as [_ ?].
Qed.

Lemma queueMessage_run record w r w' :
  queueMessage record w = (r, w') →
  tables w' = tables w
  ∧ ((r = Ok tt ∧ kafka w' = (kafka w ++ [record])%list)
     ∨ (∃ f, r = Throw (fault_error f)) ∧ kafka w' = kafka w).
Proof.
  unfold queueMessage, bind, storage_call, modify.
  destruct (faults w (tick w)); intros [= <- <-]; simpl; eauto.
Qed.

Lemma for_each_queueMessage_run records w r w' :
  for_each queueMessage records w = (r, w') →
  tables w' = tables w
  ∧ ((r = Ok tt ∧ kafka w' = (kafka w ++ records)%list)
     ∨ (∃ f, r = Throw (fault_error f))).
Proof.
  revert w. induction records as [|record l IH]; intros w Hr; simpl in Hr.
  - apply ret_run in Hr as [-> ->]. split; [done|]. left. by rewrite app_nil_r.
  - apply bind_run in Hr as [([] & w1 & Hq & Hr)|[(e & Hq & ->)|[Hq ->]]].
    + apply queueMessage_run in Hq as (Ht1 & [[_ Hk1]|[[f [=]] _]]).
      apply IH in Hr as (Ht2 & Hr). split; [congruence|].
      destruct Hr as [[-> Hk2]|Hfault]; [left|by right].
      split; [done|]. rewrite Hk2, Hk1. by rewrite <-app_assoc.
    + apply queueMessage_run in Hq as (Ht1 & [[[=] _]|[[f [= ->]] _]]). eauto.
    + by apply queueMessage_run in Hq as (_ & [[[=] _]|[[f [=]] _]]).
Qed.

Lemma publish_run {A} (records : list ProducerRecord.t) (a : A) w r w' :
  (when kafkaProducer (for_each queueMessage records) ;;; ret a) w = (r, w') →
  tables w' = tables w
  ∧ ((r = Ok a ∧ kafka w' = (kafka w ++ if kafkaProducer then records else [])%list)
     ∨ (kafkaProducer = true ∧ ∃ f, r = Throw (fault_error f))).
Proof.
  intros Hr.
  apply bind_run in Hr as [([] & w1 & Hq & Hr)|[(e & Hq & ->)|[Hq ->]]].
  - apply ret_run in Hr as [-> ->].
    apply when_run in Hq as [[Hproducer Hq]|(Hproducer & _ & ->)]; rewrite Hproducer.
    + apply for_each_queueMessage_run in Hq as [Ht [[_ Hk]|[f [=]]]]. eauto.
    + split; [done|]. left. by rewrite app_nil_r.
  - apply when_run in Hq as [[Hproducer Hq]|(_ & [=] & _)].
    apply for_each_queueMessage_run in Hq as [Ht [[[=] _]|[f [= ->]]]]. eauto.
  - apply when_run in Hq as [[_ Hq]|(_ & [=] & _)].
    by apply for_each_queueMessage_run in Hq as [_ [[[=] _]|[f [=]]]].
Qed.

(** How [createPerson] ends. *)
Lemma createPerson_run createdAt properties teamId isUserId isIdentified uuid
    (distinctIds : list string) w r w' :
  createPerson createdAt properties teamId isUserId isIdentified uuid
    (Some <$> distinctIds) w
  = (r, w') →
  (∃ e, r = Throw e ∧ tables w' = tables w ∧ kafka w' = kafka w)
  ∨ (∃ ms rows,
       let person :=
         Person.mk (sequence w) uuid teamId ms properties isUserId isIdentified in
       createdAt = Valid ms
       ∧ tables w'
         = set_posthog_persondistinctid
             (posthog_persondistinctid (tables w) ++ rows)
             (set_posthog_person (posthog_person (tables w) ++ [person]) (tables w))
       ∧ PersonDistinctId.distinct_id <$> rows = distinctIds
       ∧ Forall (λ d, PersonDistinctId.person_id d = sequence w
                      ∧ PersonDistinctId.team_id d = teamId) rows
       ∧ (∀ d, d ∈ distinctIds → ¬ distinct_id_taken teamId d (tables w))
       ∧ ((r = Ok person
           ∧ ∃ msgs, kafka w' = (kafka w ++ msgs)%list
                     ∧ length msgs
                       = if kafkaProducer then S (length distinctIds) else 0%nat)
          ∨ (kafkaProducer = true ∧ ∃ f, r = Throw (fault_error f)))).
Proof.
  unfold createPerson. intros Hr.
  set (body := (person <- client_query
                            (insert_person createdAt properties teamId isUserId
                               isIdentified uuid) ;; _)) in Hr.
  assert (Hkafka : keeps (kafka_is (kafka w)) (postgresTransaction body)).
  { apply keeps_postgresTransaction; try apply _. unfold body.
    apply keeps_bind.
    { apply keeps_client_query; try apply _. apply keeps_insert_person; apply _. }
    intros person. apply keeps_bind; [apply keeps_gets|]. intros now.
    apply keeps_bind; [apply keeps_createPerson_distinctIds; apply _|].
    intros msgs. apply keeps_ret. }
  specialize (Hkafka w eq_refl). unfold kafka_is in Hkafka.
  apply bind_run in Hr as [(created & w1 & Htx & Hr)|[(e & Htx & ->)|[Htx ->]]].
  - right. rewrite Htx in Hkafka. simpl in Hkafka.
    apply postgresTransaction_run in Htx as (w2 & Hbody & ->).
    apply publish_run in Hr as [Htables Hr]. simpl in Htables.
    unfold body in Hbody. clear body.
    apply bind_ok in Hbody as (person & wa & Hinsert & Hbody).
    rewrite client_query_unfold in Hinsert. simpl in Hinsert.
    destruct (faults w (S (S (tick w)))); [done|].
    rewrite insert_person_unfold in Hinsert.
    destruct createdAt as [ms|]; [|done]. simpl in Hinsert.
    case_bool_decide; [done|]. injection Hinsert as <- <-.
    apply bind_ok in Hbody as (now & wb & Hnow & Hbody).
    apply gets_run in Hnow as [[= ->] ->].
    apply bind_ok in Hbody as (msgs & wc & Hids & Hbody).
    apply ret_run in Hbody as [[= ->] ->].
    apply createPerson_distinctIds_run in Hids
      as (_ & rows & Ht & Hvalues & Hrows & Hfree & Hlen).
    simpl in Ht, Hrows, Hfree, Hlen, Hr, Hkafka.
    exists ms, rows. split_and!; try done.
    + by rewrite Htables, Ht.
    + destruct Hr as [[-> Hk]|Hfault]; [left|by right]. split; [done|].
      exists (if kafkaProducer then msgs else []). split; [by rewrite Hk, Hkafka|].
      destruct kafkaProducer; [|done]. rewrite Hlen. simpl. lia.
  - left. rewrite Htx in Hkafka. exists e. split; [done|]. split; [|done].
    by apply postgresTransaction_run in Htx.
  - apply postgresTransaction_run in Htx as (w2 & Hbody).
    exfalso. unfold body in Hbody. clear body Hkafka.
    apply bind_run in Hbody as [(person & wa & _ & Hbody)|[(e & _ & [=])|[Hinsert _]]].
    + apply bind_run in Hbody as [(now & wb & _ & Hbody)|[(e & _ & [=])|[Hnow _]]];
        [|by apply gets_run in Hnow as [[=] _]].
      apply bind_run in Hbody as [(msgs & wc & _ & Hbody)|[(e & _ & [=])|[Hids _]]];
        [by apply ret_run in Hbody as [[=] _]|].
      by apply createPerson_distinctIds_run in Hids as [_ ?].
    + rewrite client_query_unfold in Hinsert.
      destruct (faults _ _); [done|]. rewrite insert_person_unfold in Hinsert.
      destruct createdAt; [|done]. simpl in Hinsert. by case_bool_decide.
Qed.

(** X3. [createPerson] is all or nothing. Either it throws with the tables
    and the producer log as they were, or the tables have gained exactly the
    person, with the next identifier of the sequence and the fields given,
    and one distinct-id row per entry of [distinctIds], in order, all of the
    person and of the team. In the second case no entry of [distinctIds] was
    in use in the team, and the call returns the person, after publishing
    one record for the person and one per distinct id when there is a
    producer and none otherwise, unless the producer fails. *)
Theorem createPerson_all_or_nothing (createdAt : DateTime) (properties : Properties)
    (teamId : Z) (isUserId : option Z) (isIdentified : bool) (uuid : string)
    (distinctIds : list string) (w : World) :
  let run :=
    createPerson createdAt properties teamId isUserId isIdentified uuid
      (Some <$> distinctIds) w in
  (∃ e, run.1 = Throw e ∧ tables run.2 = tables w ∧ kafka run.2 = kafka w)
  ∨ (∃ ms rows,
       let person :=
         Person.mk (sequence w) uuid teamId ms properties isUserId isIdentified in
       createdAt = Valid ms
       ∧ tables run.2
         = set_posthog_persondistinctid
             (posthog_persondistinctid (tables w) ++ rows)
             (set_posthog_person (posthog_person (tables w) ++ [person]) (tables w))
       ∧ PersonDistinctId.distinct_id <$> rows = distinctIds
       ∧ Forall (λ d, PersonDistinctId.person_id d = sequence w
                      ∧ PersonDistinctId.team_id d = teamId) rows
       ∧ (∀ d, d ∈ distinctIds → ¬ distinct_id_taken teamId d (tables w))
       ∧ ((run.1 = Ok person
           ∧ ∃ msgs, kafka run.2 = (kafka w ++ msgs)%list
                     ∧ length msgs
                       = if kafkaProducer then S (length distinctIds) else 0%nat)
          ∨ (kafkaProducer = true ∧ ∃ f, run.1 = Throw (fault_error f)))).
Proof.
  intros run. apply (createPerson_run _ _ _ _ _ _ _ w). apply surjective_pairing.
Qed.
End CreatePerson.

Lemma head_select_new teamId distinctId t p rows :
  (∀ q, q ∈ posthog_person t → Person.id q ≠ Person.id p) →
  ¬ distinct_id_taken teamId distinctId t →
  Person.team_id p = teamId →
  Forall (λ d, PersonDistinctId.person_id d = Person.id p
               ∧ PersonDistinctId.team_id d = teamId) rows →
  distinctId ∈ PersonDistinctId.distinct_id <$> rows →
  head (select_person_by_distinct_id teamId (Some distinctId)
          (set_posthog_persondistinctid (posthog_persondistinctid t ++ rows)
             (set_posthog_person (posthog_person t ++ [p]) t)))
  = Some p.
Proof.
  intros Hfresh Hfree Hteam Hrows Hd.
  set (t' := set_posthog_persondistinctid _ _).
  assert (Hin : p ∈ select_person_by_distinct_id teamId (Some distinctId) t').
  { apply select_person_by_distinct_id_spec. split.
    - simpl. apply elem_of_app. right. by apply list_elem_of_singleton.
    - apply list_elem_of_fmap in Hd as (row & -> & Hrow). exists row. split.
      + simpl. apply elem_of_app. by right.
      + rewrite Forall_forall in Hrows. destruct (Hrows row Hrow). by repeat split. }
  assert (Hall : ∀ q, q ∈ select_person_by_distinct_id teamId (Some distinctId) t' →
                      q = p).
  { intros q Hq. apply select_person_by_distinct_id_spec in Hq
      as (Hq & row & Hrow & Hperson & _ & Hrowteam & [= Hvalue]).
    simpl in Hq, Hrow. apply elem_of_app in Hq as [Hq|Hq];
      [|by apply list_elem_of_singleton in Hq].
    exfalso. apply elem_of_app in Hrow as [Hrow|Hrow].
    - apply Hfree. apply Exists_exists. by exists row.
    - rewrite Forall_forall in Hrows. destruct (Hrows row Hrow) as [Hid _].
      apply (Hfresh q Hq). congruence. }
  destruct (select_person_by_distinct_id teamId (Some distinctId) t') as [|x l];
    [by apply elem_of_nil in Hin|].
  simpl. f_equal. apply Hall. by left.
Qed.

Section CreateThenFetch.
Context `{Collaborators}.

(** X4. A person that [createPerson] returned is found by each of its
    distinct ids: right after the call, [fetchPerson] for the team and any
    entry of [distinctIds] returns that person, unless the pool fails on the
    read. The identifier the sequence hands out must not be the id of an
    existing person. *)
Theorem createPerson_then_fetchPerson (createdAt : DateTime) (properties : Properties)
    (teamId : Z) (isUserId : option Z) (isIdentified : bool) (uuid : string)
    (distinctIds : list string) (w w' : World) (person : Person.t)
    (distinctId : string) :
  createPerson createdAt properties teamId isUserId isIdentified uuid
    (Some <$> distinctIds) w
  = (Ok person, w') →
  sequence w ∉ Person.id <$> posthog_person (tables w) →
  distinctId ∈ distinctIds →
  fetchPerson teamId (Some distinctId) w'
  = (after_fault w' (Ok (Some person)), set_tick (S (tick w')) w').
Proof.
  intros Hcreate Hfresh Hd.
  apply createPerson_run in Hcreate as [(e & [=] & _)|Hcreate].
  destruct Hcreate as (ms & rows & _ & Ht & Hvalues & Hrows & Hfree & Hr).
  destruct Hr as [[[= ->] _]|[_ [f [=]]]].
  unfold fetchPerson, bind, after_fault. rewrite postgresQuery_unfold.
  destruct (faults w' (tick w')); [done|]. simpl. rewrite Ht.
  rewrite head_select_new; try done.
  - intros q Hq Hid. apply Hfresh. apply list_elem_of_fmap. exists q. by split.
  - by apply Hfree.
  - by rewrite Hvalues.
Qed.
End CreateThenFetch.

Lemma createPerson_then_fetchPerson_witness :
  ∃ person w',
    @createPerson (Reference.collaborators true false) (Valid 1704067200000) ∅ 2 None
      false "017dc2cb-9fe0-0000-ceed-ab8b8b89b1ad" (Some <$> ["d1"; "d2"]) empty_world
    = (Ok person, w')
    ∧ fetchPerson 2 (Some "d2") w'
      = (Ok (Some person), set_tick (S (tick w')) w').
Proof.
  assert (∃ person w',
            @createPerson (Reference.collaborators true false) (Valid 1704067200000) ∅ 2
              None false "017dc2cb-9fe0-0000-ceed-ab8b8b89b1ad" (Some <$> ["d1"; "d2"])
              empty_world
            = (Ok person, w') ∧ faults w' (tick w') = None)
    as (person & w' & Hrun & Hfault).
  { vm_compute. eexists _, _. split; reflexivity. }
  exists person, w'. split; [exact Hrun|].
  rewrite (@createPerson_then_fetchPerson (Reference.collaborators true false) _ _ _ _ _
             _ _ _ _ _ "d2" Hrun).
  - unfold after_fault. by rewrite Hfault.
  - simpl. apply not_elem_of_nil.
  - apply elem_of_cons. right. by left.
Defined.

(** ** Distinct ids *)

#[global] Instance by_id_total : Total by_id.
Proof. intros a b. unfold by_id. lia. Qed.

Lemma NoDup_fmap_eq {A B} (f : A → B) (l : list A) x y :
  NoDup (f <$> l) → x ∈ l → y ∈ l → f x = f y → x = y.
Proof.
  induction l as [|a l IH]; intros Hnodup Hx Hy Heq; [by apply elem_of_nil in Hx|].
  rewrite fmap_cons in Hnodup. apply NoDup_cons in Hnodup as [Hnotin Hnodup].
  apply elem_of_cons in Hx as [->|Hx]; apply elem_of_cons in Hy as [->|Hy]; try done.
  - exfalso. apply Hnotin. rewrite Heq. by apply list_elem_of_fmap_2.
  - exfalso. apply Hnotin. rewrite <-Heq. by apply list_elem_of_fmap_2.
  - by apply IH.
Qed.

Section DistinctIds.
Context `{Collaborators}.

Lemma addDistinctId_run (person : Person.t) (distinctId : string) (w : World) :
  let run := addDistinctId person (Some distinctId) w in
  let taken := distinct_id_taken (Person.team_id person) distinctId (tables w) in
  match run.1 with
  | Ok _ =>
      ¬ taken
      ∧ person_exists (Person.id person) (tables w) = true
      ∧ tables run.2 = with_distinct_id person distinctId w
      ∧ if kafkaProducer
        then ∃ m, kafka run.2 = (kafka w ++ [m])%list
                  ∧ distinct_id_record (Person.uuid person) m
        else kafka run.2 = kafka w
  | Throw e =>
      kafka run.2 = kafka w
      ∧ ((e = DatabaseError unique_violation ∧ taken ∧ tables run.2 = tables w)
         ∨ (e = DatabaseError foreign_key_violation ∧ ¬ taken
            ∧ person_exists (Person.id person) (tables w) = false
            ∧ tables run.2 = tables w)
         ∨ ((∃ f, e = fault_error f)
            ∧ (tables run.2 = tables w
               ∨ (kafkaProducer = true
                  ∧ tables run.2 = with_distinct_id person distinctId w))))
  | OutOfFuel => False
  end.
Proof.
  intros run taken. unfold run, addDistinctId, bind.
  pose proof (addDistinctIdPooled_run person distinctId w) as Hpooled.
  destruct (addDistinctIdPooled person (Some distinctId) w) as [[o|e|] w1]; simpl.
  - destruct (Hpooled _ _ eq_refl) as (Hk & Hfree & Hexists & Ht & _ & Hproducer & Hm).
    destruct o as [m|].
    + rewrite (proj2 Hproducer (mk_is_Some _ _ eq_refl)). simpl.
      pose proof (queueMessage_run m w1) as Hq.
      destruct (queueMessage m w1) as [[[]|e|] w2]; simpl;
        destruct (Hq _ _ eq_refl) as [Ht2 [[Hr Hk2]|[[f Hr] Hk2]]]; try done.
      * split_and!; try done; [by rewrite Ht2, Ht|].
        exists m. split; [congruence|]. by apply Hm.
      * injection Hr as ->. split; [congruence|]. right. right.
        split; [by exists f|]. right. split; [done|]. by rewrite Ht2, Ht.
    + simpl. split_and!; try done.
      destruct kafkaProducer; [|done].
      by destruct (proj1 Hproducer eq_refl).
  - destruct (Hpooled _ _ eq_refl) as (Hk & Ht & [Hfault|[[-> Htaken]|(-> & ? & ?)]]).
    + split; [done|]. right. right. split; [done|]. by left.
    + split; [done|]. by left.
    + split; [done|]. right. left. done.
  - by destruct (Hpooled _ _ eq_refl).
Qed.

(** X5. The outcomes of [addDistinctId]. It returns only after adding one
    row, for the person and the team, with the next identifier of the
    sequence, and then publishing one record when there is a producer. A
    distinct id already in use in the team is refused with a unique
    violation, a person that does not exist with a foreign-key violation,
    both with the tables and the producer log untouched. When the producer
    fails, the row stays. *)
Theorem addDistinctId_outcome (person : Person.t) (distinctId : string) (w : World) :
  let run := addDistinctId person (Some distinctId) w in
  let taken := distinct_id_taken (Person.team_id person) distinctId (tables w) in
  match run.1 with
  | Ok _ =>
      ¬ taken
      ∧ person_exists (Person.id person) (tables w) = true
      ∧ tables run.2 = with_distinct_id person distinctId w
      ∧ if kafkaProducer
        then ∃ m, kafka run.2 = (kafka w ++ [m])%list
                  ∧ distinct_id_record (Person.uuid person) m
        else kafka run.2 = kafka w
  | Throw e =>
      kafka run.2 = kafka w
      ∧ ((e = DatabaseError unique_violation ∧ taken ∧ tables run.2 = tables w)
         ∨ (e = DatabaseError foreign_key_violation ∧ ¬ taken
            ∧ person_exists (Person.id person) (tables w) = false
            ∧ tables run.2 = tables w)
         ∨ ((∃ f, e = fault_error f)
            ∧ (tables run.2 = tables w
               ∨ (kafkaProducer = true
                  ∧ tables run.2 = with_distinct_id person distinctId w))))
  | OutOfFuel => False
  end.
Proof. apply addDistinctId_run. Qed.

Lemma fetchDistinctIds_unfold person w :
  fetchDistinctIds person w
  = (after_fault w
       (Ok (select_distinct_ids (Person.id person) (Person.team_id person) (tables w))),
     set_tick (S (tick w)) w).
Proof.
  unfold fetchDistinctIds, after_fault. rewrite postgresQuery_unfold.
  by destruct (faults w (tick w)).
Qed.

(** X6. [fetchDistinctIds] and [fetchDistinctIdValues] are one read each:
    nothing changes but the count of calls to the pool, and they fail only
    when the pool does. The rows returned are the rows of the table that
    belong to the person and to its team, each once, by ascending row
    identifier; the values are the distinct ids of those rows, in that
    order. *)
Theorem fetchDistinctIds_sorted (person : Person.t) (w : World) :
  (fetchDistinctIds person w).2 = set_tick (S (tick w)) w
  ∧ (fetchDistinctIdValues person w).2 = set_tick (S (tick w)) w
  ∧ match (fetchDistinctIds person w).1 with
    | Ok rows =>
        faults w (tick w) = None
        ∧ Sorted by_id rows
        ∧ rows ≡ₚ filter (attached person) (posthog_persondistinctid (tables w))
        ∧ (fetchDistinctIdValues person w).1 = Ok (PersonDistinctId.distinct_id <$> rows)
    | Throw e =>
        (∃ f, faults w (tick w) = Some f ∧ e = fault_error f)
        ∧ (fetchDistinctIdValues person w).1 = Throw e
    | OutOfFuel => False
    end.
Proof.
  unfold fetchDistinctIdValues, bind. rewrite fetchDistinctIds_unfold.
  unfold after_fault. destruct (faults w (tick w)) as [f|]; simpl.
  { split_and!; try done. by exists f. }
  split_and!; try done.
  - apply Sorted_merge_sort. apply _.
  - unfold select_distinct_ids. rewrite merge_sort_Permutation.
    by rewrite (list_filter_iff _ (attached person)).
Qed.

(** X7. What [addDistinctId] added is read back. After a successful
    [addDistinctId(person, distinctId)], [fetchDistinctIdValues(person)]
    lists the distinct id together with every value it listed before; and
    when the person is a row of the table and row identifiers of persons
    are unique, [fetchPerson] for the team and the distinct id returns that
    row. Both reads fail only when the pool does. *)
Theorem addDistinctId_then_fetch (person : Person.t) (distinctId : string)
    (w w' : World) :
  addDistinctId person (Some distinctId) w = (Ok tt, w') →
  (∀ values w'', fetchDistinctIdValues person w' = (Ok values, w'') →
     distinctId ∈ values
     ∧ ∀ before w0, fetchDistinctIdValues person w = (Ok before, w0) →
                    before ⊆ values)
  ∧ (person ∈ posthog_person (tables w) →
     NoDup (Person.id <$> posthog_person (tables w)) →
     fetchPerson (Person.team_id person) (Some distinctId) w'
     = (after_fault w' (Ok (Some person)), set_tick (S (tick w')) w')).
Proof.
  intros Hadd.
  pose proof (addDistinctId_run person distinctId w) as Hout.
  rewrite Hadd in Hout. simpl in Hout. destruct Hout as (Hfree & _ & Ht & _).
  set (row := PersonDistinctId.mk (sequence w) (Person.id person) distinctId
                (Person.team_id person)).
  split.
  - intros values w'' Hvalues.
    unfold fetchDistinctIdValues, bind in Hvalues.
    rewrite fetchDistinctIds_unfold in Hvalues. unfold after_fault in Hvalues.
    destruct (faults w' (tick w')); [done|]. injection Hvalues as <- <-.
    split.
    + apply (list_elem_of_fmap_2' _ _ row); [|done].
      apply select_distinct_ids_attached; [|done].
      rewrite Ht. simpl. apply elem_of_app. right. by apply list_elem_of_singleton.
    + intros before w0 Hbefore.
      unfold fetchDistinctIdValues, bind in Hbefore.
      rewrite fetchDistinctIds_unfold in Hbefore. unfold after_fault in Hbefore.
      destruct (faults w (tick w)); [done|]. injection Hbefore as <- <-.
      intros v Hv. apply list_elem_of_fmap in Hv as (d & -> & Hd).
      apply list_elem_of_fmap_2. unfold select_distinct_ids in *.
      rewrite merge_sort_Permutation in Hd. rewrite merge_sort_Permutation.
      apply list_elem_of_filter in Hd as [Hatt Hd]. apply list_elem_of_filter.
      split; [done|]. rewrite Ht. simpl. apply elem_of_app. by left.
  - intros Hperson Hnodup.
    unfold fetchPerson, bind, after_fault. rewrite postgresQuery_unfold.
    destruct (faults w' (tick w')); [done|]. simpl. rewrite Ht.
    set (t' := with_distinct_id person distinctId w).
    assert (Hin : person ∈ select_person_by_distinct_id (Person.team_id person)
                             (Some distinctId) t').
    { apply select_person_by_distinct_id_spec. split; [done|]. exists row. split.
      - simpl. apply elem_of_app. right. by apply list_elem_of_singleton.
      - by repeat split. }
    assert (Hall : ∀ q, q ∈ select_person_by_distinct_id (Person.team_id person)
                              (Some distinctId) t' → q = person).
    { intros q Hq. apply select_person_by_distinct_id_spec in Hq
        as (Hq & d & Hd & Hid & _ & Hteam & [= Hvalue]).
      simpl in Hq, Hd. apply elem_of_app in Hd as [Hd|Hd].
      - exfalso. apply Hfree. apply Exists_exists. by exists d.
      - apply list_elem_of_singleton in Hd as ->. simpl in Hid.
        by apply (NoDup_fmap_eq Person.id (posthog_person (tables w))). }
    destruct (select_person_by_distinct_id _ _ t') as [|x l];
      [by apply elem_of_nil in Hin|].
    assert (x = person) as -> by (apply Hall; by left). done.
Qed.
End DistinctIds.

Lemma addDistinctId_then_fetch_witness :
  ∃ w',
    @addDistinctId (Reference.collaborators true false) s6_person (Some "d9") s6_world
    = (Ok tt, w')
    ∧ @fetchDistinctIdValues s6_person w'
      = (Ok ["d1"; "d9"], set_tick (S (tick w')) w')
    ∧ fetchPerson 2 (Some "d9") w' = (Ok (Some s6_person), set_tick (S (tick w')) w').
Proof.
  assert (∃ w', @addDistinctId (Reference.collaborators true false) s6_person
                  (Some "d9") s6_world = (Ok tt, w')
                ∧ faults w' (tick w') = None
                ∧ @fetchDistinctIdValues s6_person w'
                  = (Ok ["d1"; "d9"], set_tick (S (tick w')) w'))
    as (w' & Hrun & Hfault & Hvalues).
  { vm_compute. eexists. split_and!; reflexivity. }
  exists w'. split; [exact Hrun|]. split; [exact Hvalues|].
  destruct (@addDistinctId_then_fetch (Reference.collaborators true false) s6_person "d9"
              s6_world w' Hrun) as [_ Hfetch].
  change 2 with (Person.team_id s6_person).
  rewrite Hfetch.
  - unfold after_fault. by rewrite Hfault.
  - simpl. by left.
  - simpl. apply NoDup_singleton.
Defined.

Lemma with_moved_absent rowId target t :
  rowId ∉ PersonDistinctId.id <$> posthog_persondistinctid t →
  with_moved rowId target t = t.
Proof.
  intros Habsent. unfold with_moved.
  assert ((λ d, if bool_decide (PersonDistinctId.id d = rowId)
                then PersonDistinctId.with_person_id target d else d)
            <$> posthog_persondistinctid t = posthog_persondistinctid t) as ->.
  { induction (posthog_persondistinctid t) as [|d l IH]; [done|].
    rewrite fmap_cons in Habsent. apply not_elem_of_cons in Habsent as [Hd Hl].
    rewrite fmap_cons, IH by done. by rewrite bool_decide_eq_false_2. }
  by destruct t.
Qed.

Section MoveAndDelete.
Context `{Collaborators}.

(** X8. The outcomes of [moveDistinctId]. It returns only after pointing
    the row with the identifier of [personDistinctId] to [moveToPerson],
    every other row left as it is, and then publishing one record when there
    is a producer. When the row exists and [moveToPerson] does not, it
    throws a foreign-key violation and changes nothing. When no row has the
    identifier the tables are unchanged, and the record is published all the
    same. Its first argument plays no part. *)
Theorem moveDistinctId_outcome (person : Person.t) (personDistinctId : PersonDistinctId.t)
    (moveToPerson : Person.t) (w : World) :
  let run := moveDistinctId person personDistinctId moveToPerson w in
  let rowId := PersonDistinctId.id personDistinctId in
  let found := rowId ∈ PersonDistinctId.id <$> posthog_persondistinctid (tables w) in
  let moved := with_moved rowId (Person.id moveToPerson) (tables w) in
  (¬ found → moved = tables w)
  ∧ (∀ other, run = moveDistinctId other personDistinctId moveToPerson w)
  ∧ match run.1 with
    | Ok _ =>
        (found → person_exists (Person.id moveToPerson) (tables w) = true)
        ∧ tables run.2 = moved
        ∧ if kafkaProducer
          then ∃ m, kafka run.2 = (kafka w ++ [m])%list
                    ∧ distinct_id_record (Person.uuid moveToPerson) m
          else kafka run.2 = kafka w
    | Throw e =>
        kafka run.2 = kafka w
        ∧ ((e = DatabaseError foreign_key_violation ∧ found
            ∧ person_exists (Person.id moveToPerson) (tables w) = false
            ∧ tables run.2 = tables w)
           ∨ ((∃ f, e = fault_error f)
              ∧ (tables run.2 = tables w
                 ∨ (kafkaProducer = true ∧ tables run.2 = moved))))
    | OutOfFuel => False
    end.
Proof.
  intros run rowId found moved. split; [apply with_moved_absent|]. split; [done|].
  unfold run, moveDistinctId, bind. rewrite postgresQuery_unfold.
  destruct (faults w (tick w)) as [f|]; simpl.
  { split; [done|]. right. split; [by exists f|]. by left. }
  unfold update_persondistinctid_person, bind, gets, throw, modify_tables, modify. simpl.
  fold rowId.
  destruct (decide found) as [Hfound|Habsent].
  - rewrite (bool_decide_eq_true_2 _ Hfound). simpl.
    destruct (person_exists (Person.id moveToPerson) (tables w)) eqn:Hexists; simpl.
    + destruct kafkaProducer; simpl; [|done].
      match goal with |- context [queueMessage ?m ?w1] =>
        pose proof (queueMessage_run m w1) as Hq;
        destruct (queueMessage m w1) as [[[]|e|] w2]; simpl;
        destruct (Hq _ _ eq_refl) as [Ht [[Hr Hk]|[[f Hr] Hk]]]; try done
      end.
      * split_and!; try done. eexists. split; [exact Hk|].
        eexists. split; [done|]. by rewrite lookup_insert_eq.
      * injection Hr as ->. split; [done|]. right. split; [by exists f|]. by right.
    + split; [done|]. by left.
  - rewrite (bool_decide_eq_false_2 _ Habsent). simpl.
    destruct kafkaProducer; simpl; [|done].
    match goal with |- context [queueMessage ?m ?w1] =>
      pose proof (queueMessage_run m w1) as Hq;
      destruct (queueMessage m w1) as [[[]|e|] w2]; simpl;
      destruct (Hq _ _ eq_refl) as [Ht [[Hr Hk]|[[f Hr] Hk]]]; try done
    end.
    + split_and!; try done. eexists. split; [exact Hk|].
      eexists. split; [done|]. by rewrite lookup_insert_eq.
    + injection Hr as ->. split; [done|]. right. split; [by exists f|]. by right.
Qed.

Lemma clickhouseQuery_run query w r w' :
  clickhouse = true →
  clickhouseQuery query w = (r, w') →
  tables w' = tables w ∧ kafka w' = kafka w
  ∧ ((r = Ok tt ∧ clickhouse_mutations w' = (clickhouse_mutations w ++ [query])%list)
     ∨ ((∃ f, r = Throw (fault_error f))
        ∧ clickhouse_mutations w' = clickhouse_mutations w)).
Proof.
  intros Hch. unfold clickhouseQuery, bind, storage_call, modify. rewrite Hch.
  destruct (faults w (tick w)); intros [= <- <-]; simpl; eauto 10.
Qed.

Lemma delete_rows_run person w r w' :
  (client_query (delete_persondistinctid_where_person (Person.id person)) ;;;
   client_query (delete_person_where_id (Person.id person))) w = (r, w') →
  kafka w' = kafka w ∧ clickhouse_mutations w' = clickhouse_mutations w
  ∧ match r with
    | Ok _ => tables w' = without_person (Person.id person) (tables w)
    | Throw e => ∃ f, e = fault_error f
    | OutOfFuel => False
    end.
Proof.
  unfold bind. rewrite client_query_unfold.
  destruct (faults w (tick w)) as [f|]; [intros [= <- <-]; simpl; eauto|].
  unfold delete_persondistinctid_where_person, modify_tables, modify.
  rewrite client_query_unfold. simpl.
  destruct (faults w (S (tick w))) as [f|]; [intros [= <- <-]; simpl; eauto|].
  unfold delete_person_where_id, bind, gets, throw, modify_tables, modify. simpl.
  rewrite (bool_decide_eq_false_2
             (Person.id person
              ∈ PersonDistinctId.person_id
                  <$> filter (λ d, PersonDistinctId.person_id d ≠ Person.id person)
                        (posthog_persondistinctid (tables w)))).
  - rewrite andb_false_r. by intros [= <- <-].
  - intros Hin. apply list_elem_of_fmap in Hin as (d & Hid & Hd).
    by apply list_elem_of_filter in Hd as [Hne _].
Qed.

Lemma delete_mutations_run (first second : ClickHouseQuery) w r w' :
  when clickhouse (clickhouseQuery first ;;; clickhouseQuery second) w = (r, w') →
  tables w' = tables w ∧ kafka w' = kafka w
  ∧ match r with
    | Ok _ =>
        clickhouse_mutations w'
        = (clickhouse_mutations w ++ if clickhouse then [first; second] else [])%list
    | Throw e =>
        clickhouse = true ∧ (∃ f, e = fault_error f)
        ∧ (clickhouse_mutations w' = clickhouse_mutations w
           ∨ clickhouse_mutations w' = (clickhouse_mutations w ++ [first])%list)
    | OutOfFuel => False
    end.
Proof.
  intros Hr. apply when_run in Hr as [[Hch Hr]|(Hch & -> & ->)];
    [|rewrite Hch; by rewrite app_nil_r].
  rewrite Hch.
  apply bind_run in Hr as [([] & w1 & Hq1 & Hq2)|[(e & Hq1 & ->)|[Hq1 ->]]].
  - apply (clickhouseQuery_run _ _ _ _ Hch) in Hq1
      as (Ht1 & Hk1 & [[_ Hc1]|[[f [=]] _]]).
    apply (clickhouseQuery_run _ _ _ _ Hch) in Hq2
      as (Ht2 & Hk2 & [[-> Hc2]|[[f ->] Hc2]]).
    + split; [congruence|]. split; [congruence|]. rewrite Hc2, Hc1.
      by rewrite <-app_assoc.
    + split; [congruence|]. split; [congruence|]. split; [done|].
      split; [by exists f|]. right. by rewrite Hc2, Hc1.
  - apply (clickhouseQuery_run _ _ _ _ Hch) in Hq1
      as (Ht1 & Hk1 & [[[=] _]|[[f [= ->]] Hc1]]).
    split; [done|]. split; [done|]. split; [done|]. split; [by exists f|]. by left.
  - by apply (clickhouseQuery_run _ _ _ _ Hch) in Hq1
      as (_ & _ & [[[=] _]|[[f [=]] _]]).
Qed.

Lemma deletePerson_run person w r w' :
  deletePerson person w = (r, w') →
  let deleted := without_person (Person.id person) (tables w) in
  let persons := AlterTablePersonDelete (Person.uuid person) in
  let distinctIds := AlterTablePersonDistinctIdDelete (Person.uuid person) in
  kafka w' = kafka w
  ∧ match r with
    | Ok _ =>
        tables w' = deleted
        ∧ clickhouse_mutations w'
          = (clickhouse_mutations w
             ++ if clickhouse then [persons; distinctIds] else [])%list
    | Throw e =>
        (∃ f, e = fault_error f)
        ∧ ((tables w' = tables w ∧ clickhouse_mutations w' = clickhouse_mutations w)
           ∨ (clickhouse = true ∧ tables w' = deleted
              ∧ (clickhouse_mutations w' = clickhouse_mutations w
                 ∨ clickhouse_mutations w'
                   = (clickhouse_mutations w ++ [persons])%list)))
    | OutOfFuel => False
    end.
Proof.
  intros Hr deleted persons distinctIds. unfold deletePerson in Hr.
  set (body := (client_query (delete_persondistinctid_where_person (Person.id person)) ;;;
                client_query (delete_person_where_id (Person.id person)))) in Hr.
  assert (Hkeeps : keeps (λ w', kafka w' = kafka w
                                ∧ clickhouse_mutations w' = clickhouse_mutations w)
                     (postgresTransaction body)).
  { apply keeps_postgresTransaction.
    - by split.
    - by intros ? ? _ ?.
    - intros w0 [Hk Hc]. destruct (body w0) as [r0 w1] eqn:Hrun.
      destruct (delete_rows_run _ _ _ _ Hrun) as (Hk1 & Hc1 & _).
      simpl. split; congruence. }
  assert (Hspec : spec (λ _, True) (postgresTransaction body) any
                    (λ e, ∃ f, e = fault_error f)).
  { apply spec_postgresTransaction; try apply _.
    { intros f. by exists f. }
    intros w0 _. split; [done|]. destruct (body w0) as [r0 w1] eqn:Hrun.
    destruct (delete_rows_run _ _ _ _ Hrun) as (_ & _ & Hr0). simpl.
    by destruct r0. }
  specialize (Hkeeps w (conj eq_refl eq_refl)). destruct (Hspec w I) as [_ Hthrows].
  apply bind_run in Hr as [([] & w1 & Htx & Hr)|[(e & Htx & ->)|[Htx ->]]];
    rewrite Htx in Hkeeps, Hthrows; simpl in Hkeeps, Hthrows;
    destruct Hkeeps as [Hk Hc]; [| |done].
  - apply postgresTransaction_run in Htx as (w2 & Hrun & ->).
    destruct (delete_rows_run _ _ _ _ Hrun) as (_ & _ & Ht). simpl in Ht, Hk, Hc.
    apply delete_mutations_run in Hr as (Ht' & Hk' & Hr). simpl in Ht', Hk', Hr.
    rewrite Hc in Hr. split; [by rewrite Hk', Hk|]. destruct r as [[]|e|]; [| |done].
    + split; [by rewrite Ht', Ht|done].
    + destruct Hr as (Hch & Hfault & Hr). split; [done|]. right.
      split; [done|]. split; [by rewrite Ht', Ht|done].
  - split; [done|]. split; [done|]. left. split; [|done].
    by apply postgresTransaction_run in Htx.
Qed.

(** X9. The outcomes of [deletePerson]. It returns only after removing, in
    one transaction, every distinct-id row of the person and then every
    person row with its identifier, all other rows kept in order, and after
    sending ClickHouse the two deletions, for the person and for its
    distinct ids, when ClickHouse is configured and nothing otherwise. It
    throws only when the pool or ClickHouse fails: the rows of the person
    are removed first, so its own statements never violate the foreign key.
    A failure inside the transaction leaves the tables as they were; a
    failure of ClickHouse leaves the rows removed. The producer log is never
    touched. *)
Theorem deletePerson_outcome (person : Person.t) (w : World) :
  let run := deletePerson person w in
  let deleted := without_person (Person.id person) (tables w) in
  let person_deletion := AlterTablePersonDelete (Person.uuid person) in
  let distinct_id_deletion := AlterTablePersonDistinctIdDelete (Person.uuid person) in
  kafka run.2 = kafka w
  ∧ match run.1 with
    | Ok _ =>
        tables run.2 = deleted
        ∧ clickhouse_mutations run.2
          = (clickhouse_mutations w
             ++ if clickhouse then [person_deletion; distinct_id_deletion] else [])%list
    | Throw e =>
        (∃ f, e = fault_error f)
        ∧ ((tables run.2 = tables w
            ∧ clickhouse_mutations run.2 = clickhouse_mutations w)
           ∨ (clickhouse = true ∧ tables run.2 = deleted
              ∧ (clickhouse_mutations run.2 = clickhouse_mutations w
                 ∨ clickhouse_mutations run.2
                   = (clickhouse_mutations w ++ [person_deletion])%list)))
    | OutOfFuel => False
    end.
Proof.
  intros run. apply (deletePerson_run person w). apply surjective_pairing.
Qed.
End MoveAndDelete.

(** ** Element groups *)

Lemma element_row_order element groupId :
  element_row element groupId !! "order" = element !! "order".
Proof.
  unfold element_row. rewrite !lookup_insert_ne by done.
  apply option_eq. intros v. rewrite map_lookup_filter_Some. split; [by intros []|].
  intros Hv. split; [done|]. simpl. unfold element_columns.
  repeat (apply elem_of_cons; (by left) || right).
Qed.

Lemma element_row_group_id element groupId :
  element_row element groupId !! "group_id" = Some (VNum groupId).
Proof. unfold element_row. by rewrite lookup_insert_eq. Qed.

Lemma insert_elements_run (elements : list Element) (groupId : Z) w r w' :
  for_each (λ element, client_query (insert_element element groupId)) elements w
  = (r, w') →
  kafka w' = kafka w ∧ sequence w' = sequence w
  ∧ match r with
    | Ok _ =>
        tables w'
        = set_posthog_element
            (posthog_element (tables w) ++ ((λ e, element_row e groupId) <$> elements))
            (tables w)
    | Throw e => ∃ f, e = fault_error f
    | OutOfFuel => False
    end.
Proof.
  revert w. induction elements as [|element l IH]; intros w Hr; simpl in Hr.
  - apply ret_run in Hr as [-> ->]. split_and!; try done.
    destruct (tables w). simpl. by rewrite app_nil_r.
  - unfold bind at 1 in Hr. rewrite client_query_unfold in Hr.
    destruct (faults w (tick w)) as [f|]; [injection Hr as <- <-; simpl; eauto|].
    unfold insert_element, modify_tables, modify in Hr. simpl in Hr.
    apply IH in Hr as (Hk & Hs & Hr). split; [done|]. split; [done|].
    destruct r as [[]|e|]; [|done|done].
    rewrite Hr. simpl. by rewrite <-app_assoc.
Qed.

Section ElementGroups.
Context `{Collaborators}.

Lemma createElementGroup_body_run hash teamId (elements : list Element) w r w' :
  (elementGroup <- client_query (insert_elementgroup hash teamId) ;;
   for_each (λ element, client_query (insert_element element (ElementGroup.id elementGroup)))
     elements) w = (r, w') →
  kafka w' = kafka w
  ∧ match r with
    | Ok _ =>
        ¬ group_known teamId hash (tables w)
        ∧ tables w' = with_group teamId hash elements w
    | Throw e =>
        (e = DatabaseError unique_violation ∧ group_known teamId hash (tables w))
        ∨ ∃ f, e = fault_error f
    | OutOfFuel => False
    end.
Proof.
  unfold bind at 1. rewrite client_query_unfold.
  destruct (faults w (tick w)) as [f|]; [intros [= <- <-]; simpl; eauto|].
  unfold insert_elementgroup, bind, nextval, gets, throw, modify_tables, modify, ret.
  simpl. fold (group_known teamId hash (tables w)).
  destruct (decide (group_known teamId hash (tables w))) as [Hknown|Hnew].
  - rewrite bool_decide_eq_true_2 by done. intros [= <- <-]. simpl. eauto.
  - rewrite bool_decide_eq_false_2 by done. simpl. intros Hr.
    apply insert_elements_run in Hr as (Hk & _ & Hr). split; [done|].
    destruct r as [[]|e|]; [|by right|done]. split; [done|]. by rewrite Hr.
Qed.

Lemma createElementGroup_run (elements : list Element) (teamId : Z) w r w' :
  createElementGroup elements teamId w = (r, w') →
  let hash := hashElements (with_order elements) in
  let known := group_known teamId hash (tables w) in
  kafka w' = kafka w
  ∧ match r with
    | Ok returned =>
        returned = hash
        ∧ ((known ∧ tables w' = tables w)
           ∨ (¬ known ∧ tables w' = with_group teamId hash (with_order elements) w))
    | Throw e => (∃ f, e = fault_error f) ∧ tables w' = tables w
    | OutOfFuel => False
    end.
Proof.
  intros Hr hash known. unfold createElementGroup in Hr.
  fold (with_order elements) in Hr. fold hash in Hr.
  set (body := (elementGroup <- client_query (insert_elementgroup hash teamId) ;; _))
    in Hr.
  assert (Hkeeps : keeps (kafka_is (kafka w)) (postgresTransaction body)).
  { apply keeps_postgresTransaction; try apply _.
    intros w0 Hw0. destruct (body w0) as [r0 w1] eqn:Hrun.
    apply createElementGroup_body_run in Hrun as [Hk _]. unfold kafka_is in *.
    simpl. congruence. }
  specialize (Hkeeps w eq_refl). unfold kafka_is in Hkeeps.
  pose proof (postgresTransaction_run body w) as Htx.
  pose proof (postgresTransaction_throws body w) as Hthrows.
  apply bind_run in Hr as [([] & w1 & Hcatch & Hr)|[(e & Hcatch & ->)|[Hcatch ->]]].
  - apply ret_run in Hr as [-> ->].
    apply try_catch_run in Hcatch as [(e & w2 & Hrun & Hcatch)|[Hrun _]].
    + rewrite Hrun in Hkeeps. simpl in Hkeeps.
      specialize (Htx _ _ Hrun). specialize (Hthrows _ _ Hrun). simpl in Htx.
      case_bool_decide as Hunique; [|done]. apply ret_run in Hcatch as [_ ->].
      split; [done|]. split; [done|]. left. split; [|done].
      destruct Hthrows as [[f ->]|(w3 & Hbody)]; [by destruct f|].
      apply createElementGroup_body_run in Hbody as [_ [[_ Hknown]|[f ->]]];
        [done|by destruct f].
    + rewrite Hrun in Hkeeps. simpl in Hkeeps.
      specialize (Htx _ _ Hrun). simpl in Htx. destruct Htx as (w2 & Hbody & ->).
      apply createElementGroup_body_run in Hbody as [_ [Hnew Ht]].
      split; [done|]. split; [done|]. right. split; [done|]. simpl. by rewrite Ht.
  - apply try_catch_run in Hcatch as [(e' & w2 & Hrun & Hcatch)|[Hrun Hne]];
      [|by destruct (Hne e)].
    rewrite Hrun in Hkeeps. simpl in Hkeeps.
    specialize (Htx _ _ Hrun). specialize (Hthrows _ _ Hrun). simpl in Htx.
    case_bool_decide as Hunique; [done|]. injection Hcatch as <- <-.
    split; [done|]. split; [|done].
    destruct Hthrows as [Hfault|(w3 & Hbody)]; [done|].
    by apply createElementGroup_body_run in Hbody as [_ [[? _]|?]].
  - apply try_catch_run in Hcatch as [(e' & w2 & Hrun & Hcatch)|[Hrun _]].
    + by case_bool_decide.
    + specialize (Htx _ _ Hrun). simpl in Htx. destruct Htx as (w2 & Hbody).
      by apply createElementGroup_body_run in Hbody as [_ ?].
Qed.

(** X10. The outcomes of [createElementGroup]. The elements are stored with
    their position in the list as [order], whatever order they carried, and
    the hash is taken of the elements so numbered. When the call returns it
    returns that hash, and either a group of the team with the hash existed
    and the tables are as they were (the unique violation is swallowed), or
    none existed and the tables have gained the group, with the next
    identifier of the sequence, and one row per element, in order, each of
    that group. When it throws, the pool failed and the tables are as they
    were. *)
Theorem createElementGroup_outcome (elements : list Element) (teamId : Z) (w : World) :
  let run := createElementGroup elements teamId w in
  let hash := hashElements (with_order elements) in
  let known := group_known teamId hash (tables w) in
  kafka run.2 = kafka w
  ∧ (∀ i element, elements !! i = Some element →
       ∃ numbered,
         with_order elements !! i = Some numbered
         ∧ element_row numbered (sequence w) !! "order" = Some (VNum (Z.of_nat i))
         ∧ element_row numbered (sequence w) !! "group_id" = Some (VNum (sequence w)))
  ∧ match run.1 with
    | Ok returned =>
        returned = hash
        ∧ ((known ∧ tables run.2 = tables w)
           ∨ (¬ known ∧ tables run.2 = with_group teamId hash (with_order elements) w))
    | Throw e => (∃ f, e = fault_error f) ∧ tables run.2 = tables w
    | OutOfFuel => False
    end.
Proof.
  intros run hash known.
  destruct (createElementGroup_run elements teamId w run.1 run.2) as [Hk Hr];
    [apply surjective_pairing|].
  split; [done|]. split; [|done].
  intros i element Hi. exists (<["order" := VNum (Z.of_nat i)]> element).
  split; [|split].
  - unfold with_order. by rewrite list_lookup_imap, Hi.
  - by rewrite element_row_order, lookup_insert_eq.
  - apply element_row_group_id.
Qed.
End ElementGroups.

(** ** Where an event goes *)

Section EventSink.
Context `{Collaborators}.

Lemma createEvent_run uuid event teamId distinctId properties timestamp elements siteUrl
    w r w' :
  createEvent uuid event teamId distinctId properties timestamp elements siteUrl w
  = (r, w') →
  let payload :=
    event_payload uuid event teamId distinctId properties timestamp elements (clock w) in
  if kafkaProducer
  then
    tables w' = tables w
    ∧ match r with
      | Ok result =>
          result = (payload, None, elements)
          ∧ kafka w'
            = (kafka w ++ [ProducerRecord.mk KAFKA_EVENTS
                             [Message.mk (Some uuid) (BufferProto payload)]])%list
      | Throw e => (∃ f, e = fault_error f) ∧ kafka w' = kafka w
      | OutOfFuel => False
      end
  else
    kafka w' = kafka w
    ∧ match r with
      | Ok result =>
          ∃ id, result = (payload, Some id, elements)
                ∧ posthog_event (tables w')
                  = (posthog_event (tables w) ++ [event_row id payload elements])%list
      | Throw e =>
          (∃ f, e = fault_error f)
          ∧ posthog_event (tables w') = posthog_event (tables w)
      | OutOfFuel => False
      end.
Proof.
  intros Hr payload. unfold createEvent, bind at 1, gets in Hr. simpl in Hr.
  fold sink_format in Hr.
  change (IEvent.mk uuid event _ _ teamId distinctId _ _) with payload in Hr.
  destruct kafkaProducer eqn:Hproducer.
  - apply bind_run in Hr as [([] & w1 & Hq & Hr)|[(e & Hq & ->)|[Hq ->]]].
    + apply ret_run in Hr as [-> ->].
      by apply queueMessage_run in Hq as [Ht [[_ Hk]|[[f [=]] _]]].
    + apply queueMessage_run in Hq as [Ht [[[=] _]|[[f [= ->]] Hk]]]. eauto.
    + by apply queueMessage_run in Hq as [_ [[[=] _]|[[f [=]] _]]].
  - assert (Hgroup : ∀ r1 w1,
              (if negb (bool_decide (elements = []))
               then createElementGroup elements teamId else ret "") w = (r1, w1) →
              kafka w1 = kafka w ∧ posthog_event (tables w1) = posthog_event (tables w)
              ∧ match r1 with
                | Ok hash =>
                    hash = if negb (bool_decide (elements = []))
                           then hashElements (with_order elements) else ""
                | Throw e => ∃ f, e = fault_error f
                | OutOfFuel => False
                end).
    { intros r1 w1 Hrun. destruct (negb (bool_decide (elements = []))).
      - apply createElementGroup_run in Hrun as [Hk Hrun]. split; [done|].
        destruct r1 as [hash|e|]; [|by destruct Hrun as [? ->]|done].
        destruct Hrun as [-> [[_ ->]|[_ ->]]]; done.
      - by apply ret_run in Hrun as [-> ->]. }
    apply bind_run in Hr as [(hash & w1 & Hrun & Hr)|[(e & Hrun & ->)|[Hrun ->]]];
      apply Hgroup in Hrun as (Hk & Ht & Hrun); [| |done].
    + subst hash. rewrite <-Hk, <-Ht. clear Hk Ht Hgroup.
      unfold bind at 1 in Hr. rewrite postgresQuery_unfold in Hr.
      destruct (faults w1 (tick w1)) as [f|]; [injection Hr as <- <-; simpl; eauto|].
      unfold insert_event, bind, nextval, modify_tables, modify, ret in Hr.
      simpl in Hr. injection Hr as <- <-. simpl. split; [done|].
      by exists (sequence w1).
    + split; [done|]. by split.
Qed.

(** X11. [createEvent] writes to one sink. With a producer the tables are
    never touched: the event is queued on the events topic, keyed by its
    uuid, and no event id is returned. Without a producer nothing is ever
    queued: the event is appended to [posthog_event] as one row, whose
    identifier is the event id returned and whose elements hash is that of
    the element group, or empty when there are no elements. When the call
    throws, the pool or the producer failed, and neither the producer log
    nor the events table has changed. *)
Theorem createEvent_sink (uuid event : string) (teamId : Z) (distinctId : string)
    (properties : option Properties) (timestamp : option DateTime)
    (elements : list Element) (siteUrl : string) (w : World) :
  let run :=
    createEvent uuid event teamId distinctId properties timestamp elements siteUrl w in
  let payload :=
    event_payload uuid event teamId distinctId properties timestamp elements (clock w) in
  if kafkaProducer
  then
    tables run.2 = tables w
    ∧ match run.1 with
      | Ok result =>
          result = (payload, None, elements)
          ∧ kafka run.2
            = (kafka w ++ [ProducerRecord.mk KAFKA_EVENTS
                             [Message.mk (Some uuid) (BufferProto payload)]])%list
      | Throw e => (∃ f, e = fault_error f) ∧ kafka run.2 = kafka w
      | OutOfFuel => False
      end
  else
    kafka run.2 = kafka w
    ∧ match run.1 with
      | Ok result =>
          ∃ id, result = (payload, Some id, elements)
                ∧ posthog_event (tables run.2)
                  = (posthog_event (tables w) ++ [event_row id payload elements])%list
      | Throw e =>
          (∃ f, e = fault_error f)
          ∧ posthog_event (tables run.2) = posthog_event (tables w)
      | OutOfFuel => False
      end.
Proof.
  intros run. apply (createEvent_run _ _ _ _ _ _ _ siteUrl w). apply surjective_pairing.
Qed.
End EventSink.

(** ** Updating a person *)

Lemma fetchPerson_unfold teamId distinctId w :
  fetchPerson teamId distinctId w
  = (after_fault w (Ok (person_of teamId distinctId (tables w))),
     set_tick (S (tick w)) w).
Proof.
  unfold fetchPerson, bind, after_fault, person_of. rewrite postgresQuery_unfold.
  by destruct (faults w (tick w)).
Qed.

Lemma select_person_by_distinct_id_persons teamId distinctId t t' :
  posthog_person t' = posthog_person t →
  posthog_persondistinctid t' = posthog_persondistinctid t →
  select_person_by_distinct_id teamId distinctId t'
  = select_person_by_distinct_id teamId distinctId t.
Proof. unfold select_person_by_distinct_id. by intros -> ->. Qed.

(** An update of rows that keeps their identifier and team commutes with
    the join of [fetchPerson]. *)
Lemma select_person_by_distinct_id_fmap teamId distinctId t (f : Person.t → Person.t) :
  (∀ p, Person.id (f p) = Person.id p ∧ Person.team_id (f p) = Person.team_id p) →
  select_person_by_distinct_id teamId distinctId
    (set_posthog_person (f <$> posthog_person t) t)
  = f <$> select_person_by_distinct_id teamId distinctId t.
Proof.
  intros Hf. unfold select_person_by_distinct_id. simpl.
  induction (posthog_person t) as [|p l IH]; [done|].
  rewrite fmap_cons, !bind_cons, fmap_app, <-IH. f_equal. clear IH.
  induction (posthog_persondistinctid t) as [|d ds IHd]; [done|].
  rewrite !bind_cons, fmap_app, <-IHd. f_equal.
  destruct (Hf p) as [-> ->]. by case_bool_decide.
Qed.

Lemma person_of_with_update teamId distinctId update pid t :
  person_of teamId distinctId (with_update update pid t)
  = (λ p, if bool_decide (Person.id p = pid) then PersonUpdate.apply update p else p)
      <$> person_of teamId distinctId t.
Proof.
  unfold person_of, with_update. rewrite select_person_by_distinct_id_fmap.
  - by destruct (select_person_by_distinct_id teamId distinctId t).
  - intros p. by case_bool_decide.
Qed.

Section UpdatePerson.
Context `{Collaborators}.

Lemma updatePerson_run person update w r w' :
  updatePerson person update w = (r, w') →
  match r with
  | Ok p =>
      p = PersonUpdate.apply update person
      ∧ PersonUpdate.is_empty update = false
      ∧ tables w' = with_update update (Person.id person) (tables w)
      ∧ if kafkaProducer
        then ∃ m, kafka w' = (kafka w ++ [m])%list
                  ∧ person_record (Person.uuid person) m
        else kafka w' = kafka w
  | Throw e =>
      kafka w' = kafka w
      ∧ ((e = DatabaseError syntax_error ∧ PersonUpdate.is_empty update = true
          ∧ tables w' = tables w)
         ∨ ((∃ f, e = fault_error f)
            ∧ (tables w' = tables w
               ∨ (kafkaProducer = true
                  ∧ tables w' = with_update update (Person.id person) (tables w)))))
  | OutOfFuel => False
  end.
Proof.
  unfold updatePerson, bind at 1. rewrite postgresQuery_unfold.
  destruct (faults w (tick w)) as [f|].
  { intros [= <- <-]. simpl. split; [done|]. right. split; [by exists f|]. by left. }
  unfold update_person_where_id.
  destruct (PersonUpdate.is_empty update) eqn:Hempty.
  { intros [= <- <-]. simpl. split; [done|]. by left. }
  unfold modify_tables, modify, bind, gets. simpl.
  destruct kafkaProducer; simpl; [|by intros [= <- <-]].
  match goal with |- context [queueMessage ?m ?w1] =>
    pose proof (queueMessage_run m w1) as Hq;
    destruct (queueMessage m w1) as [[[]|e|] w2]; simpl;
    destruct (Hq _ _ eq_refl) as [Ht [[Hr Hk]|[[f Hr] Hk]]]; try done
  end.
  - intros [= <- <-]. split_and!; try done. eexists. split; [exact Hk|].
    eexists. split; [done|]. unfold person_json.
    by rewrite !lookup_insert_ne, lookup_insert_eq by done.
  - injection Hr as ->. intros [= <- <-]. split; [done|]. right.
    split; [by exists f|]. by right.
Qed.
End UpdatePerson.

(** ** Marking a person as identified *)

Section Identified.
Context `{Collaborators}.

(** The person [setIsIdentified] works on: the one found, or created when
    none was found, or found on a second read when the creation failed. It
    is the person [fetchPerson] returns on the tables so reached. *)
Lemma find_or_create_run teamId (distinctId : string) properties isIdentified w o w1
    found w2 :
  fetchPerson teamId (Some distinctId) w = (Ok o, w1) →
  sequence w ∉ Person.id <$> posthog_person (tables w) →
  match o with
  | Some p => ret (Some p)
  | None =>
      try_catch
        (now <- DateTime_utc ;;
         uuid <- new_UUIDT ;;
         created <- createPerson now properties teamId None isIdentified uuid
                      [Some distinctId] ;;
         ret (Some created))
        (λ _, fetchPerson teamId (Some distinctId))
  end w1 = (Ok found, w2) →
  found = person_of teamId (Some distinctId) (tables w2).
Proof.
  rewrite fetchPerson_unfold. unfold after_fault.
  destruct (faults w (tick w)); [done|]. intros [= <- <-] Hfresh Hfind.
  destruct (person_of teamId (Some distinctId) (tables w)) as [p|] eqn:Hp.
  - apply ret_run in Hfind as [[= ->] ->]. by rewrite <-Hp.
  - apply try_catch_ok in Hfind as [Hcreate|(e & w3 & _ & Hfetch)].
    + apply bind_ok in Hcreate as (now & wa & Hnow & Hcreate).
      apply gets_run in Hnow as [_ ->].
      apply bind_ok in Hcreate as (uuid & wb & Huuid & Hcreate).
      injection Huuid as <- <-.
      apply bind_ok in Hcreate as (created & wc & Hcreate & Hret).
      apply ret_run in Hret as [[= ->] ->].
      apply (createPerson_run _ _ _ _ _ _ [distinctId]) in Hcreate
        as [(e & [=] & _)|Hcreate].
      destruct Hcreate as (ms & rows & _ & Ht & Hvalues & Hrows & Hfree & Hr).
      destruct Hr as [[[= ->] _]|[_ [f [=]]]]. simpl in *.
      unfold person_of. rewrite Ht. symmetry. apply head_select_new; try done.
      * intros q Hq Hid. apply Hfresh. apply list_elem_of_fmap. exists q. by split.
      * apply Hfree. by left.
      * rewrite Hvalues. by left.
    + rewrite fetchPerson_unfold in Hfetch. unfold after_fault in Hfetch.
      destruct (faults w3 (tick w3)); [done|]. by injection Hfetch as <- <-.
Qed.

(** X12. [setIsIdentified] leaves the person of the distinct id identified.
    After a call that returned normally, the person [fetchPerson] finds for
    the team and the distinct id is identified, whether it was found and
    updated, found already identified, or created by the call. A person
    found already identified is not written again, whatever flag is passed:
    the call is the one read. The identifier the sequence hands out must not
    be the id of an existing person. *)
Theorem setIsIdentified_identifies (teamId : Z) (distinctId : string) (w w' : World) :
  setIsIdentified teamId distinctId true w = (Ok tt, w') →
  sequence w ∉ Person.id <$> posthog_person (tables w) →
  (∀ q w'', fetchPerson teamId (Some distinctId) w' = (Ok (Some q), w'') →
     Person.is_identified q = true)
  ∧ (∀ p isIdentified,
       person_of teamId (Some distinctId) (tables w) = Some p →
       Person.is_identified p = true →
       setIsIdentified teamId distinctId isIdentified w
       = (after_fault w (Ok tt), set_tick (S (tick w)) w)).
Proof.
  intros Hrun Hfresh. split.
  - intros q w'' Hq. rewrite fetchPerson_unfold in Hq. unfold after_fault in Hq.
    destruct (faults w' (tick w')); [done|]. injection Hq as Hq _.
    unfold setIsIdentified in Hrun.
    apply bind_ok in Hrun as (o & w1 & Hfetch & Hrun).
    apply bind_ok in Hrun as (found & w2 & Hfind & Hrun).
    apply (find_or_create_run _ _ _ _ _ _ _ _ _ Hfetch Hfresh) in Hfind.
    destruct found as [p|].
    + destruct (Person.is_identified p) eqn:Hidentified; simpl in Hrun.
      * apply ret_run in Hrun as [_ ->]. rewrite <-Hfind in Hq. by injection Hq as <-.
      * apply bind_ok in Hrun as (updated & w3 & Hupdate & Hrun).
        apply ret_run in Hrun as [_ ->].
        apply updatePerson_run in Hupdate as (_ & _ & Ht & _).
        rewrite Ht, person_of_with_update, <-Hfind in Hq. simpl in Hq.
        rewrite bool_decide_eq_true_2 in Hq by done. by injection Hq as <-.
    + apply ret_run in Hrun as [_ ->]. by rewrite <-Hfind in Hq.
  - intros p isIdentified Hp Hidentified.
    unfold setIsIdentified, bind. rewrite fetchPerson_unfold. unfold after_fault.
    destruct (faults w (tick w)); [done|]. rewrite Hp. simpl. by rewrite Hidentified.
Qed.
End Identified.

Lemma setIsIdentified_identifies_witness :
  ∃ w',
    @setIsIdentified (Reference.collaborators true false) 2 "d1" true s6_world
    = (Ok tt, w')
    ∧ fetchPerson 2 (Some "d1") w'
      = (Ok (Some (Person.with_is_identified true s6_person)), set_tick (S (tick w')) w')
    ∧ Person.is_identified (Person.with_is_identified true s6_person) = true.
Proof.
  assert (∃ w', @setIsIdentified (Reference.collaborators true false) 2 "d1" true
                  s6_world = (Ok tt, w')
                ∧ fetchPerson 2 (Some "d1") w'
                  = (Ok (Some (Person.with_is_identified true s6_person)),
                     set_tick (S (tick w')) w'))
    as (w' & Hrun & Hfetch).
  { vm_compute. eexists. split; reflexivity. }
  exists w'. split; [exact Hrun|]. split; [exact Hfetch|].
  destruct (@setIsIdentified_identifies (Reference.collaborators true false) 2 "d1"
              s6_world w' Hrun) as [Hidentified _].
  - simpl. intros Hin. apply list_elem_of_singleton in Hin. discriminate.
  - exact (Hidentified _ _ Hfetch).
Defined.

(** ** Creating the person of a new distinct id *)

Section NewPerson.
Context `{Collaborators}.

(** X13. [createPersonIfDistinctIdIsNew] never fails because of the
    creation. When the person manager says the distinct id is known, nothing
    else happens. When it says the distinct id is new, [createPerson] is
    called once, with no properties, not identified, the given uuid and the
    single distinct id; if it throws, the error is reported to the error
    sink with the arguments attached, and the call returns normally all the
    same. Only an error of the person manager itself is propagated. *)
Theorem createPersonIfDistinctIdIsNew_swallows (teamId : Z) (distinctId : string)
    (sentAt : DateTime) (personUuid : string) (w : World) :
  let create :=
    createPerson sentAt ∅ teamId None false personUuid [Some distinctId] in
  createPersonIfDistinctIdIsNew teamId distinctId sentAt personUuid w
  = match isNewPerson teamId distinctId w with
    | (Ok true, w1) =>
        (Ok tt,
         match (create w1).1 with
         | Throw e =>
             new_person_failure_reported teamId distinctId sentAt personUuid e
               (create w1).2
         | _ => (create w1).2
         end)
    | (Ok false, w1) => (Ok tt, w1)
    | (Throw e, w1) => (Throw e, w1)
    | (OutOfFuel, w1) => (OutOfFuel, w1)
    end.
Proof.
  intros create. unfold createPersonIfDistinctIdIsNew, bind at 1.
  destruct (isNewPerson teamId distinctId w) as [[[]|e|] w1]; try done.
  unfold when, try_catch, bind. fold create.
  pose proof (any_createPerson (λ _, True) sentAt ∅ teamId None false personUuid
                [Some distinctId] w1 I) as [_ Hterminates].
  fold create in Hterminates.
  by destruct (create w1) as [[p|e|] w2].
Qed.
End NewPerson.

(** ** Aliasing *)

Section Alias.
Context `{Collaborators}.

(** X14. Aliasing two distinct ids of one person is a no-op. When
    [fetchPerson] finds persons with the same identifier for both distinct
    ids, [alias] does its two reads and nothing else: it returns normally
    unless the pool fails on a read, and the world is as it was but for the
    count of calls to the pool. *)
Theorem alias_same_person (fuel : nat) (previousDistinctId : option string)
    (distinctId : string) (teamId : Z) (retryIfFailed : bool) (totalMergeAttempts : Z)
    (w : World) (oldPerson newPerson : Person.t) :
  person_of teamId previousDistinctId (tables w) = Some oldPerson →
  person_of teamId (Some distinctId) (tables w) = Some newPerson →
  Person.id oldPerson = Person.id newPerson →
  alias (S fuel) previousDistinctId distinctId teamId retryIfFailed totalMergeAttempts w
  = match faults w (tick w) with
    | Some f => (Throw (fault_error f), set_tick (S (tick w)) w)
    | None =>
        (after_fault (set_tick (S (tick w)) w) (Ok tt), set_tick (S (S (tick w))) w)
    end.
Proof.
  intros Hold Hnew Hsame. simpl. unfold bind at 1.
  rewrite fetchPerson_unfold. unfold after_fault.
  destruct (faults w (tick w)) as [f|] eqn:Hfirst; simpl; [done|].
  rewrite Hold. unfold bind at 1. rewrite fetchPerson_unfold. unfold after_fault. simpl.
  destruct (faults w (S (tick w))) as [f|] eqn:Hsecond; simpl; [done|].
  rewrite Hnew. by rewrite bool_decide_eq_false_2 by (by intros Hne).
Qed.
End Alias.

Lemma alias_same_person_witness :
  let w :=
    world_of
      (mkTables [s6_person]
         [PersonDistinctId.mk 10 1 "d1" 2; PersonDistinctId.mk 11 1 "d2" 2] [] [] [] [] []
         [])
      20 no_faults in
  @alias (Reference.collaborators true false) 1 (Some "d1") "d2" 2 true 0 w
  = (Ok tt, set_tick 2 w).
Proof.
  intros w.
  by rewrite (@alias_same_person (Reference.collaborators true false) 0 (Some "d1") "d2"
                2 true 0 w s6_person s6_person).
Defined.

Lemma person_of_row teamId distinctId t p :
  person_of teamId distinctId t = Some p →
  person_exists (Person.id p) t = true ∧ Person.team_id p = teamId.
Proof.
  unfold person_of. intros Hhead. apply head_Some_elem_of in Hhead.
  apply select_person_by_distinct_id_spec in Hhead as (Hp & d & _ & _ & Hteam & _).
  split; [|done]. apply bool_decide_eq_true. by apply list_elem_of_fmap_2.
Qed.

Section AliasAttaches.
Context `{Collaborators}.

Lemma addDistinctId_reliable person (distinctId : string) w :
  reliable w →
  person_exists (Person.id person) (tables w) = true →
  ¬ distinct_id_taken (Person.team_id person) distinctId (tables w) →
  ∃ w', addDistinctId person (Some distinctId) w = (Ok tt, w')
        ∧ tables w' = with_distinct_id person distinctId w
        ∧ sentry w' = sentry w.
Proof.
  intros Hreliable Hexists Hfree.
  unfold addDistinctId, addDistinctIdPooled, bind. rewrite client_query_unfold.
  rewrite Hreliable, insert_persondistinctid_unfold. simpl.
  rewrite bool_decide_eq_false_2 by done. rewrite Hexists. simpl.
  destruct kafkaProducer; simpl; [|by eexists].
  unfold queueMessage, bind, storage_call, modify. simpl. rewrite Hreliable. by eexists.
Qed.

Lemma addDistinctIdPooled_reliable person (distinctId : string) w :
  reliable w →
  person_exists (Person.id person) (tables w) = true →
  ¬ distinct_id_taken (Person.team_id person) distinctId (tables w) →
  ∃ o, addDistinctIdPooled person (Some distinctId) w
       = (Ok o,
          set_tables (with_distinct_id person distinctId w)
            (set_sequence (sequence w + 1) (set_tick (S (tick w)) w))).
Proof.
  intros Hreliable Hexists Hfree.
  unfold addDistinctIdPooled, bind. rewrite client_query_unfold.
  rewrite Hreliable, insert_persondistinctid_unfold. simpl.
  rewrite bool_decide_eq_false_2 by done. rewrite Hexists. simpl.
  destruct kafkaProducer; by eexists.
Qed.

Lemma for_each_queueMessage_reliable records w :
  reliable w →
  ∃ w', for_each queueMessage records w = (Ok tt, w')
        ∧ tables w' = tables w ∧ sentry w' = sentry w.
Proof.
  revert w. induction records as [|record l IH]; intros w Hreliable; simpl.
  - by exists w.
  - unfold bind, queueMessage at 1, bind, storage_call, modify. rewrite Hreliable.
    simpl.
    destruct (IH (set_kafka (kafka w ++ [record]) (set_tick (S (tick w)) w)))
      as (w' & -> & Ht & Hs); [done|].
    by exists w'.
Qed.

Lemma postgresTransaction_reliable {A} (transaction : M A) w a w2 :
  reliable w →
  transaction (set_tick (S (S (tick w))) w) = (Ok a, w2) →
  faults w2 = faults w →
  postgresTransaction transaction w = (Ok a, set_tick (S (tick w2)) w2).
Proof.
  intros Hreliable Hbody Hfaults.
  unfold postgresTransaction, bind, gets, try_catch, storage_call, modify, throw, ret.
  unfold set_tick in *. simpl in *.
  rewrite (Hreliable (tick w)). simpl. rewrite (Hreliable (S (tick w))). simpl.
  rewrite Hbody. simpl.
  by rewrite Hfaults, Hreliable.
Qed.

(** [createPerson] for two distinct ids that are free, when nothing fails. *)
Lemma createPerson_pair_reliable ms uuid teamId (distinctId previousDistinctId : string)
    w :
  reliable w →
  previousDistinctId ≠ distinctId →
  ¬ distinct_id_taken teamId distinctId (tables w) →
  ¬ distinct_id_taken teamId previousDistinctId (tables w) →
  ¬ Exists (λ p, Person.team_id p = teamId ∧ Person.uuid p = uuid)
      (posthog_person (tables w)) →
  ∃ person w',
    createPerson (Valid ms) ∅ teamId None false uuid
      [Some distinctId; Some previousDistinctId] w
    = (Ok person, w')
    ∧ posthog_person (tables w')
      = (posthog_person (tables w)
         ++ [Person.mk (sequence w) uuid teamId ms ∅ None false])%list
    ∧ posthog_persondistinctid (tables w')
      = (posthog_persondistinctid (tables w)
         ++ [PersonDistinctId.mk (sequence w + 1) (sequence w) distinctId teamId;
             PersonDistinctId.mk (sequence w + 1 + 1) (sequence w) previousDistinctId
               teamId])%list
    ∧ tables w'
      = set_posthog_persondistinctid (posthog_persondistinctid (tables w'))
          (set_posthog_person (posthog_person (tables w')) (tables w))
    ∧ sentry w' = sentry w.
Proof.
  intros Hreliable Hdiffer Hfree Hfree' Huuid.
  set (person := Person.mk (sequence w) uuid teamId ms ∅ None false).
  set (wa := set_tables
               (set_posthog_person (posthog_person (tables w) ++ [person]) (tables w))
               (set_sequence (sequence w + 1)
                  (set_tick (S (S (S (tick w)))) (set_tick (S (S (tick w))) w)))).
  assert (Hexists : ∀ t, person ∈ posthog_person t →
            person_exists (Person.id person) t = true).
  { intros t Hin. apply bool_decide_eq_true. by apply list_elem_of_fmap_2. }
  destruct (addDistinctIdPooled_reliable person distinctId wa) as [o1 Hfirst];
    [done| |done|].
  { apply Hexists. simpl. apply elem_of_app. right. by left. }
  set (wb := set_tables _ _) in Hfirst.
  destruct (addDistinctIdPooled_reliable person previousDistinctId wb) as [o2 Hsecond];
    [done| | |].
  { apply Hexists. simpl. apply elem_of_app. right. by left. }
  { simpl. intros Htaken. apply Exists_app in Htaken as [Htaken|Htaken]; [done|].
    apply Exists_cons in Htaken as [[_ Heq]|Htaken]; [by simpl in Heq|].
    by apply Exists_nil in Htaken. }
  set (wc := set_tables _ _) in Hsecond.
  unfold createPerson.
  match goal with |- context [postgresTransaction ?b] => set (body := b) end.
  assert (∃ msgs, body (set_tick (S (S (tick w))) w) = (Ok (person, msgs), wc))
    as [msgs Hbody].
  { unfold body, bind at 1. rewrite client_query_unfold.
    change (faults (set_tick (S (S (tick w))) w)) with (faults w). rewrite Hreliable.
    rewrite insert_person_unfold. simpl. rewrite bool_decide_eq_false_2 by done.
    fold person. fold wa. unfold createPerson_distinctIds, bind, gets, ret.
    cbv beta iota. rewrite Hfirst. cbv beta iota. rewrite Hsecond. cbv beta iota.
    by eexists. }
  unfold bind at 1.
  rewrite (postgresTransaction_reliable body w _ wc Hreliable Hbody eq_refl).
  destruct (for_each_queueMessage_reliable msgs (set_tick (S (tick wc)) wc))
    as (w' & Hq & Ht & Hs); [done|].
  unfold bind, when. cbn [fst snd]. destruct kafkaProducer.
  - rewrite Hq. exists person, w'. rewrite Ht. simpl. split_and!; try done.
    by rewrite <-app_assoc.
  - eexists person, _. unfold wc, wb, wa, with_distinct_id. simpl.
    split_and!; try done.
    by rewrite <-app_assoc.
Qed.

(** X15. What [alias] does for two distinct ids, both given as strings, that
    are not both known, when no call to the storage fails on its own.
    - If the previous distinct id has a person, the new one has none and no
      row of the team holds the new one, the new one is attached to that
      person.
    - If the new distinct id has a person, the previous one has none and no
      row of the team holds the previous one, the previous one is attached to
      that person.
    - If neither has a person, the two differ, no row of the team holds
      either of them, and no person of the team has the uuid that is
      generated next, one person is created, not identified and without
      properties, with both attached.
    In each case [alias] returns normally, changes nothing else in the tables
    and reports nothing to the error sink. Outside these conditions the
    database refuses an insert, and [alias] reports the error instead. *)
Theorem alias_attaches (fuel : nat) (previousDistinctId distinctId : string)
    (teamId : Z) (retryIfFailed : bool) (totalMergeAttempts : Z) (w : World) :
  reliable w →
  let run :=
    alias (S fuel) (Some previousDistinctId) distinctId teamId retryIfFailed
      totalMergeAttempts w in
  let oldPerson := person_of teamId (Some previousDistinctId) (tables w) in
  let newPerson := person_of teamId (Some distinctId) (tables w) in
  (∀ person, oldPerson = Some person → newPerson = None →
     ¬ distinct_id_taken teamId distinctId (tables w) →
     run.1 = Ok tt ∧ tables run.2 = with_distinct_id person distinctId w
     ∧ sentry run.2 = sentry w)
  ∧ (∀ person, oldPerson = None → newPerson = Some person →
       ¬ distinct_id_taken teamId previousDistinctId (tables w) →
       run.1 = Ok tt ∧ tables run.2 = with_distinct_id person previousDistinctId w
       ∧ sentry run.2 = sentry w)
  ∧ (oldPerson = None → newPerson = None →
     previousDistinctId ≠ distinctId →
     ¬ distinct_id_taken teamId distinctId (tables w) →
     ¬ distinct_id_taken teamId previousDistinctId (tables w) →
     ¬ Exists (λ p, Person.team_id p = teamId ∧ Person.uuid p = UUIDT_toString (uuids w))
         (posthog_person (tables w)) →
     run.1 = Ok tt
     ∧ tables run.2
       = with_aliased_person (UUIDT_toString (uuids w)) teamId distinctId
           previousDistinctId w
     ∧ sentry run.2 = sentry w).
Proof.
  intros Hreliable run oldPerson newPerson.
  assert (Hrun : run
            = match oldPerson, newPerson with
              | Some oldPerson, None =>
                  try_catch (addDistinctId oldPerson (Some distinctId))
                    (λ error,
                       Sentry_captureException error NoExtra ;;;
                       when retryIfFailed
                         (alias fuel (Some previousDistinctId) distinctId teamId false
                            0))
                    (set_tick (S (S (tick w))) w)
              | None, Some newPerson =>
                  try_catch (addDistinctId newPerson (Some previousDistinctId))
                    (λ error,
                       Sentry_captureException error NoExtra ;;;
                       when retryIfFailed
                         (alias fuel (Some previousDistinctId) distinctId teamId false
                            0))
                    (set_tick (S (S (tick w))) w)
              | None, None =>
                  try_catch
                    (now <- DateTime_utc ;;
                     uuid <- new_UUIDT ;;
                     createPerson now ∅ teamId None false uuid
                       [Some distinctId; Some previousDistinctId] ;;;
                     ret tt)
                    (λ error,
                       Sentry_captureException error NoExtra ;;;
                       when retryIfFailed
                         (alias fuel (Some previousDistinctId) distinctId teamId false
                            0))
                    (set_tick (S (S (tick w))) w)
              | Some oldPerson, Some newPerson =>
                  (if bool_decide (Person.id oldPerson ≠ Person.id newPerson)
                   then
                     mergePeople_with (alias fuel) (S fuel)
                       (MergeArgs.mk newPerson distinctId oldPerson
                          (Some previousDistinctId) totalMergeAttempts)
                   else ret tt) (set_tick (S (S (tick w))) w)
              end).
  { unfold run. simpl. unfold bind at 1. rewrite fetchPerson_unfold.
    unfold after_fault. rewrite Hreliable. unfold bind at 1.
    rewrite fetchPerson_unfold. unfold after_fault. simpl. rewrite Hreliable.
    fold oldPerson newPerson. by destruct oldPerson, newPerson. }
  assert (Hafter : reliable (set_tick (S (S (tick w))) w)) by done.
  split_and!.
  - intros person Hold Hnew Hfree. rewrite Hrun, Hold, Hnew.
    apply person_of_row in Hold as [Hexists Hteam].
    destruct (addDistinctId_reliable person distinctId _ Hafter)
      as (w' & Hadd & Ht & Hs); [done|by rewrite Hteam|].
    unfold try_catch. by rewrite Hadd.
  - intros person Hold Hnew Hfree. rewrite Hrun, Hold, Hnew.
    apply person_of_row in Hnew as [Hexists Hteam].
    destruct (addDistinctId_reliable person previousDistinctId _ Hafter)
      as (w' & Hadd & Ht & Hs); [done|by rewrite Hteam|].
    unfold try_catch. by rewrite Hadd.
  - intros Hold Hnew Hdiffer Hfree Hfree' Huuid. rewrite Hrun, Hold, Hnew.
    destruct (createPerson_pair_reliable (clock w) (UUIDT_toString (uuids w)) teamId
                distinctId previousDistinctId
                (set_uuids (S (uuids w)) (set_tick (S (S (tick w))) w)))
      as (person & w' & Hcreate & Hpersons & Hrows & Ht & Hs); try done.
    unfold try_catch, bind, DateTime_utc, gets, new_UUIDT. simpl.
    rewrite Hcreate. simpl. split; [done|]. split; [|done].
    rewrite Ht, Hpersons, Hrows. done.
Qed.
End AliasAttaches.

Lemma alias_attaches_witness :
  let run :=
    @alias (Reference.collaborators true false) 1 (Some "d0") "d1" 2 true 0 empty_world in
  run.1 = Ok tt
  ∧ tables run.2 = with_aliased_person "uuidt-0" 2 "d1" "d0" empty_world
  ∧ sentry run.2 = [].
Proof.
  intros run.
  destruct (@alias_attaches (Reference.collaborators true false) 0 "d0" "d1" 2 true 0
              empty_world) as (_ & _ & Hcreate); [done|].
  apply Hcreate; try done; unfold distinct_id_taken; simpl; by intros ?%Exists_nil.
Defined.

(** ** Aliases the database refuses *)

#[global] Instance quiet_since_bookkeeping w0 : Bookkeeping (quiet_since w0).
Proof. by split. Qed.

#[global] Instance quiet_since_tables_free w0 : TablesFree (quiet_since w0).
Proof. by intros w t Hw. Qed.

#[global] Instance quiet_since_quiet w0 : Quiet (quiet_since w0).
Proof. by split. Qed.

Section AliasRefused.
Context `{Collaborators}.

(** A distinct id sent as NULL is refused. *)
Lemma addDistinctIdPooled_null person w :
  ∃ e w',
    addDistinctIdPooled person None w = (Throw e, w')
    ∧ tables w' = tables w ∧ quiet_since w w'.
Proof.
  unfold addDistinctIdPooled, bind. rewrite client_query_unfold.
  destruct (faults w (tick w)) as [f|]; [by eexists _, _|].
  rewrite insert_persondistinctid_unfold. simpl. by eexists _, _.
Qed.

Lemma addDistinctId_null person w :
  ∃ e w',
    addDistinctId person None w = (Throw e, w')
    ∧ tables w' = tables w ∧ quiet_since w w'.
Proof.
  unfold addDistinctId, bind.
  destruct (addDistinctIdPooled_null person w) as (e & w' & -> & Hw'). by eexists _, _.
Qed.

(** The second of two distinct ids is refused when it is missing or the
    first again. *)
Lemma createPerson_distinctIds_refused person (distinctId : string) previousDistinctId
    kafkaMessages w r w' :
  previousDistinctId = None ∨ previousDistinctId = Some distinctId →
  createPerson_distinctIds person [Some distinctId; previousDistinctId] kafkaMessages w
  = (Ok r, w') →
  False.
Proof.
  intros Hprevious Hr. simpl in Hr.
  apply bind_ok in Hr as (o & w1 & Hfirst & Hr).
  apply bind_ok in Hr as (o2 & w2 & Hsecond & _).
  apply addDistinctIdPooled_run in Hfirst as (_ & _ & _ & Ht1 & _).
  destruct Hprevious as [-> | ->].
  - destruct (addDistinctIdPooled_null person w1) as (e & w3 & Hnull & _). congruence.
  - apply addDistinctIdPooled_run in Hsecond as (_ & Hfree & _). apply Hfree.
    rewrite Ht1. apply distinct_id_taken_app. right. by apply Exists_cons_hd.
Qed.

Lemma createPerson_refused createdAt properties teamId isUserId isIdentified uuid
    (distinctId : string) previousDistinctId w :
  previousDistinctId = None ∨ previousDistinctId = Some distinctId →
  ∃ e w',
    createPerson createdAt properties teamId isUserId isIdentified uuid
      [Some distinctId; previousDistinctId] w = (Throw e, w')
    ∧ tables w' = tables w ∧ quiet_since w w'.
Proof.
  intros Hprevious.
  pose proof (any_createPerson (λ _, True) createdAt properties teamId isUserId
                isIdentified uuid [Some distinctId; previousDistinctId] w I)
    as [_ Hends].
  unfold createPerson in Hends |- *.
  match goal with |- context [postgresTransaction ?b] => set (body := b) in * end.
  assert (Hkeeps : keeps (quiet_since w) (postgresTransaction body)).
  { apply keeps_postgresTransaction; try apply _. unfold body.
    apply keeps_bind.
    { apply keeps_client_query; [apply _|]. apply keeps_insert_person; apply _. }
    intros person. apply keeps_bind; [apply keeps_gets|]. intros now.
    apply keeps_bind; [apply keeps_createPerson_distinctIds; apply _|].
    intros msgs. apply keeps_ret. }
  specialize (Hkeeps w (conj eq_refl (conj eq_refl eq_refl))).
  unfold bind at 1 in Hends. unfold bind at 1.
  destruct (postgresTransaction body w) as [[created|e|] w1] eqn:Hrun; [|  |done].
  - exfalso. apply postgresTransaction_run in Hrun as (w2 & Hbody & _).
    unfold body in Hbody.
    apply bind_ok in Hbody as (person & wa & _ & Hbody).
    apply bind_ok in Hbody as (now & wb & _ & Hbody).
    apply bind_ok in Hbody as (msgs & wc & Hids & _).
    by eapply createPerson_distinctIds_refused.
  - apply postgresTransaction_run in Hrun.
    exists e, w1. split_and!; [reflexivity | exact Hrun | exact Hkeeps].
Qed.

(** X21. An alias the database refuses. When the previous distinct id is
    missing from the event ([undefined] or [null]), or is the new distinct
    id again, and has no person, [alias] attaches nothing: whatever the
    storage does and however the call ends, the tables and the producer log
    are left as they were. When moreover no call to the storage fails on its
    own, [alias] returns normally after reporting the refusal to the error
    sink, once, and once more after the retry it makes when [retryIfFailed]
    is set. *)
Theorem alias_refused (fuel : nat) (previousDistinctId : option string)
    (distinctId : string) (teamId : Z) (retryIfFailed : bool) (totalMergeAttempts : Z)
    (w : World) :
  person_of teamId previousDistinctId (tables w) = None →
  previousDistinctId = None ∨ previousDistinctId = Some distinctId →
  let run :=
    alias fuel previousDistinctId distinctId teamId retryIfFailed totalMergeAttempts w in
  tables run.2 = tables w
  ∧ kafka run.2 = kafka w
  ∧ faults run.2 = faults w
  ∧ (reliable w → ((if retryIfFailed then 2 else 1) ≤ fuel)%nat →
     run.1 = Ok tt
     ∧ ∃ e1 e2,
         sentry run.2
         = (sentry w
            ++ SentryReport.mk e1 NoExtra
               :: if retryIfFailed then [SentryReport.mk e2 NoExtra] else [])%list).
Proof.
  intros Hold Hprevious. revert retryIfFailed totalMergeAttempts w Hold.
  induction fuel as [|fuel IH]; intros retryIfFailed totalMergeAttempts w Hold run.
  { subst run. simpl. split_and!; try done. intros _ Hfuel. destruct retryIfFailed; lia. }
  assert (Hhandler : ∀ e w3,
            tables w3 = tables w → quiet_since w w3 →
            let handled :=
              (Sentry_captureException e NoExtra ;;;
               when retryIfFailed
                 (alias fuel previousDistinctId distinctId teamId false 0)) w3 in
            tables handled.2 = tables w
            ∧ kafka handled.2 = kafka w
            ∧ faults handled.2 = faults w
            ∧ (reliable w → ((if retryIfFailed then 2 else 1) ≤ S fuel)%nat →
               handled.1 = Ok tt
               ∧ ∃ e1 e2,
                   sentry handled.2
                   = (sentry w
                      ++ SentryReport.mk e1 NoExtra
                         :: if retryIfFailed then [SentryReport.mk e2 NoExtra]
                            else [])%list)).
  { intros e w3 Ht (Hk & Hs & Hf) handled. subst handled.
    unfold bind, Sentry_captureException, modify.
    destruct retryIfFailed; simpl.
    - set (w4 := set_sentry _ w3).
      destruct (IH false 0 w4) as (Ht' & Hk' & Hf' & Hreliable').
      { simpl. by rewrite Ht. }
      simpl in *. rewrite Ht', Hk', Hf'. split_and!; try done.
      intros Hreliable Hfuel.
      destruct Hreliable' as (Hok & e1 & _ & Hs').
      { intros n. simpl. by rewrite Hf. }
      { lia. }
      split; [exact Hok|]. exists e, e1. rewrite Hs'. simpl. rewrite Hs.
      by rewrite <-app_assoc.
    - split_and!; try done. intros _ _. split; [done|]. exists e, e. by rewrite Hs. }
  assert (Hrun : run
                 = alias (S fuel) previousDistinctId distinctId teamId retryIfFailed
                     totalMergeAttempts w) by done.
  clearbody run. simpl in Hrun.
  unfold bind at 1 in Hrun. rewrite fetchPerson_unfold in Hrun.
  unfold after_fault in Hrun.
  destruct (faults w (tick w)) as [f|] eqn:Hfirst.
  { subst run. simpl. split_and!; try done.
    intros Hreliable. by rewrite Hreliable in Hfirst. }
  rewrite Hold in Hrun.
  unfold bind at 1 in Hrun. rewrite fetchPerson_unfold in Hrun.
  unfold after_fault in Hrun. simpl in Hrun.
  destruct (faults w (S (tick w))) as [f|] eqn:Hsecond.
  { subst run. simpl. split_and!; try done.
    intros Hreliable. by rewrite Hreliable in Hsecond. }
  destruct (person_of teamId (Some distinctId) (tables w)) as [newPerson|] eqn:Hnew.
  - destruct Hprevious as [-> | ->]; [|congruence].
    unfold try_catch in Hrun.
    destruct (addDistinctId_null newPerson
                (set_tick (S (S (tick w))) (set_tick (S (tick w)) w)))
      as (e & w3 & Hnull & Ht & Hquiet).
    rewrite Hnull in Hrun. rewrite Hrun. by apply Hhandler.
  - unfold try_catch, bind at 1, DateTime_utc, gets in Hrun.
    unfold bind at 1, new_UUIDT in Hrun.
    unfold bind at 1 in Hrun.
    match type of Hrun with context [createPerson ?a ?b ?c ?d ?e ?f ?g ?w0] =>
      destruct (createPerson_refused a b c d e f distinctId previousDistinctId w0
                  Hprevious) as (err & w3 & Hrefused & Ht & Hquiet)
    end.
    rewrite Hrefused in Hrun. rewrite Hrun. by apply Hhandler.
Qed.
End AliasRefused.

(** The same unknown distinct id given twice: nobody is created, and the
    unique-key violation is reported for the first try and for the retry. *)
Lemma alias_refused_witness :
  let run :=
    @alias (Reference.collaborators true false) 2 (Some "d1") "d1" 2 true 0 empty_world in
  person_of 2 (Some "d1") (tables empty_world) = None
  ∧ run.1 = Ok tt
  ∧ tables run.2 = tables empty_world
  ∧ sentry run.2
    = [SentryReport.mk (DatabaseError unique_violation) NoExtra;
       SentryReport.mk (DatabaseError unique_violation) NoExtra].
Proof.
  intros run.
  destruct (@alias_refused (Reference.collaborators true false) 2 (Some "d1") "d1" 2
              true 0 empty_world eq_refl (or_intror eq_refl))
    as (Ht & _ & _ & Hreliable).
  destruct Hreliable as (Hok & _); [done | simpl; lia |].
  split_and!; [done | exact Hok | exact Ht | by vm_compute].
Defined.

(** ** Person properties, twice *)

Lemma spread2_again (S E O : Properties) :
  O ⊕ (O ⊕ E ⊕ S) ⊕ S = O ⊕ E ⊕ S.
Proof.
  unfold spread2. apply map_eq. intros k. rewrite !lookup_union.
  by destruct (S !! k), (E !! k), (O !! k).
Qed.

Section Idempotent.
Context `{Collaborators}.

Lemma updatePersonProperties_find_run teamId (distinctId : string) properties w found
    w' :
  updatePersonProperties_find teamId distinctId properties w = (Ok found, w') →
  sequence w ∉ Person.id <$> posthog_person (tables w) →
  person_of teamId (Some distinctId) (tables w') = Some found.
Proof.
  unfold updatePersonProperties_find. intros Hrun Hfresh.
  apply bind_ok in Hrun as (o & w1 & Hfetch & Hrun).
  apply bind_ok in Hrun as (o' & w2 & Hfind & Hrun).
  apply (find_or_create_run _ _ _ _ _ _ _ _ _ Hfetch Hfresh) in Hfind.
  destruct o' as [p|]; [|done]. apply ret_run in Hrun as [[= ->] ->]. done.
Qed.

(** X16. Applying the same person properties twice writes once. After
    [updatePersonProperties] returned a person for [$set] and [$set_once]
    properties without increments, the same call again finds that person,
    leaves its properties as they are, and changes nothing: it is one read,
    with no update and no message. The identifier the sequence hands out
    must not be the id of an existing person. *)
Theorem updatePersonProperties_idempotent (teamId : Z) (distinctId : string)
    (properties propertiesOnce : Properties) (w w' : World) (person : Person.t) :
  updatePersonProperties teamId distinctId properties propertiesOnce ∅ w
  = (Ok person, w') →
  sequence w ∉ Person.id <$> posthog_person (tables w) →
  updatePersonProperties teamId distinctId properties propertiesOnce ∅ w'
  = (after_fault w' (Ok person), set_tick (S (tick w')) w').
Proof.
  intros Hrun Hfresh.
  assert (Hperson : person_of teamId (Some distinctId) (tables w') = Some person
                    ∧ propertiesOnce ⊕ Person.properties person ⊕ properties
                      = Person.properties person).
  { unfold updatePersonProperties in Hrun.
    apply bind_ok in Hrun as (found & w1 & Hfind & Hrun).
    apply updatePersonProperties_find_run in Hfind; [|done].
    rewrite bool_decide_eq_true_2 in Hrun by done. simpl in Hrun.
    unfold bind at 1 in Hrun. simpl in Hrun. rewrite orb_true_r, andb_true_r in Hrun.
    unfold equal in Hrun. case_bool_decide as Hequal.
    - apply ret_run in Hrun as [[= ->] ->]. by rewrite <-Hequal.
    - apply updatePerson_run in Hrun as (-> & _ & Ht & _). split.
      + rewrite Ht, person_of_with_update, Hfind. simpl.
        by rewrite bool_decide_eq_true_2.
      + simpl. apply spread2_again. }
  destruct Hperson as [Hfound Hsame].
  unfold updatePersonProperties, updatePersonProperties_find, bind at 1, bind at 1.
  rewrite fetchPerson_unfold. unfold after_fault.
  destruct (faults w' (tick w')); [done|]. rewrite Hfound. simpl.
  rewrite bool_decide_eq_true_2 by done. unfold bind. simpl.
  rewrite orb_true_r, andb_true_r. unfold equal.
  by rewrite bool_decide_eq_true_2.
Qed.
End Idempotent.

Lemma updatePersonProperties_idempotent_witness :
  ∃ person w',
    @updatePersonProperties (Reference.collaborators true false) 2 "d1" ∅ s6_set_once ∅
      s6_world = (Ok person, w')
    ∧ @updatePersonProperties (Reference.collaborators true false) 2 "d1" ∅ s6_set_once ∅
        w' = (Ok person, set_tick (S (tick w')) w').
Proof.
  assert (∃ person w',
            @updatePersonProperties (Reference.collaborators true false) 2 "d1" ∅
              s6_set_once ∅ s6_world = (Ok person, w')
            ∧ faults w' (tick w') = None)
    as (person & w' & Hrun & Hfault).
  { vm_compute. eexists _, _. split; reflexivity. }
  exists person, w'. split; [exact Hrun|].
  rewrite (@updatePersonProperties_idempotent (Reference.collaborators true false) _ _ _ _
             _ _ _ Hrun).
  - unfold after_fault. by rewrite Hfault.
  - simpl. intros Hin. apply list_elem_of_singleton in Hin. discriminate.
Defined.

(** * Further properties of the event processor *)

(** ** The properties [processEvent] works on *)

(** X17. How [processEvent] merges the top-level [$set] and [$set_once] of
    an event into its properties. Every other property is left as it is. A
    [$set] given at the top level becomes an object under [$set] holding the
    entries the properties already had there, overridden key by key by the
    top-level ones; without it [$set] is left as it is. The same holds for
    [$set_once]. *)
Theorem sanitize_properties_merge (data : PluginEvent.t) :
  let properties := default ∅ (PluginEvent.properties data) in
  let merged (given : option Properties) (key : string) :=
    match given with
    | Some top =>
        ∃ object,
          sanitize_properties data !! key = Some (VObj object)
          ∧ ∀ k, object !! k
                 = match top !! k with
                   | Some v => Some v
                   | None => spread (properties !! key) !! k
                   end
    | None => sanitize_properties data !! key = properties !! key
    end in
  (∀ k, k ≠ "$set" → k ≠ "$set_once" → sanitize_properties data !! k = properties !! k)
  ∧ merged (PluginEvent.set data) "$set"
  ∧ merged (PluginEvent.set_once data) "$set_once".
Proof.
  intros properties merged. unfold merged, sanitize_properties. fold properties.
  assert (Hunion : ∀ (a b : Properties) k,
            (a ⊕ b) !! k = match b !! k with Some v => Some v | None => a !! k end).
  { intros a b k. unfold spread2. rewrite lookup_union. by destruct (b !! k), (a !! k). }
  destruct (PluginEvent.set data) as [s|], (PluginEvent.set_once data) as [o|];
    split_and!;
    try (intros k Hset Honce; by rewrite ?lookup_insert_ne);
    try (by rewrite ?lookup_insert_ne);
    eexists; rewrite ?(lookup_insert_ne _ "$set_once" "$set"), lookup_insert_eq by done;
    (split; [done|]); intros k; rewrite Hunion; by rewrite ?lookup_insert_ne.
Qed.

(** ** What [processEvent] returns *)

Section Returned.
Context `{Collaborators}.

(** X18. [processEvent] returns a result for every event but a session
    recording. When it returns normally, the value is undefined exactly when
    the event is [$snapshot]; for any other event it is the canonical event
    with the event id and the elements that [capture] returned. *)
Theorem processEvent_result (fuel : nat) (distinctId : string) (ip : option string)
    (siteUrl : string) (data : PluginEvent.t) (teamId : Z) (now : DateTime)
    (sentAt : option DateTime) (eventUuid : string) (w w' : World)
    (result : option EventProcessingResult.t) :
  processEvent fuel distinctId ip siteUrl data teamId now sentAt eventUuid w
  = (Ok result, w') →
  UUID_validateString eventUuid = true
  ∧ (result = None ↔ PluginEvent.event data = "$snapshot")
  ∧ ∀ r, result = Some r →
      ∃ personUuid properties ts w1,
        capture eventUuid personUuid ip siteUrl teamId (PluginEvent.event data) distinctId
          properties ts sentAt w1
        = (Ok (EventProcessingResult.event r, EventProcessingResult.eventId r,
               EventProcessingResult.elements r), w').
Proof.
  unfold processEvent. destruct (UUID_validateString eventUuid); [|done]. simpl.
  unfold processEvent_body. intros Hrun. split; [done|].
  apply bind_ok in Hrun as (personUuid & w1 & _ & Hrun).
  apply bind_ok in Hrun as (ts & w2 & _ & Hrun).
  apply bind_ok in Hrun as ([] & w3 & _ & Hrun).
  unfold processEvent_emit in Hrun.
  destruct (String.eqb_spec (PluginEvent.event data) "$snapshot") as [Hsnapshot|Hother].
  - apply bind_ok in Hrun as (recorded & w4 & _ & Hrun).
    apply ret_run in Hrun as [[= ->] ->]. by split.
  - apply bind_ok in Hrun as (captured & w4 & Hcapture & Hrun).
    apply ret_run in Hrun as [[= ->] ->]. split; [by split|].
    intros r [= <-]. simpl. exists personUuid, (sanitize_properties data), ts, w3.
    rewrite Hcapture. by destruct captured as [[? ?] ?].
Qed.
End Returned.

Lemma processEvent_result_witness :
  ∃ r w',
    @processEvent (Reference.collaborators true false) 4 "d1" None "http://localhost"
      s2_event 2 (Valid 1704067205000) None "017dc2cb-9fe0-0000-ceed-ab8b8b89b1ad"
      empty_world
    = (Ok (Some r), w')
    ∧ (Some r = None ↔ PluginEvent.event s2_event = "$snapshot").
Proof.
  assert (∃ r w',
            @processEvent (Reference.collaborators true false) 4 "d1" None
              "http://localhost" s2_event 2 (Valid 1704067205000) None
              "017dc2cb-9fe0-0000-ceed-ab8b8b89b1ad" empty_world
            = (Ok (Some r), w')) as (r & w' & Hrun).
  { vm_compute. eexists _, _. reflexivity. }
  exists r, w'. split; [exact Hrun|].
  by destruct (@processEvent_result (Reference.collaborators true false) _ _ _ _ _ _ _ _
                 _ _ _ _ Hrun) as (_ & Hiff & _).
Defined.

(** * What the identity step touches *)

Lemma person_mutation_record_topics uuid r :
  person_mutation_record uuid r → person_topics r.
Proof. intros [(obj & -> & _)|(obj & -> & _)]; [by left | by right]. Qed.

#[global] Instance identity_footprint_bookkeeping w0 : Bookkeeping (identity_footprint w0).
Proof. by split. Qed.

#[global] Instance identity_footprint_rollback w0 : Rollback (identity_footprint w0).
Proof.
  intros w w' (? & ? & ? & ? & ? & _) (_ & _ & _ & _ & _ & ?). by split_and!.
Qed.

#[global] Instance identity_footprint_person_writes w0 :
  PersonWrites (identity_footprint w0).
Proof. split; intros w l Hw; exact Hw. Qed.

#[global] Instance identity_footprint_cohort_writes w0 :
  CohortWrites (identity_footprint w0).
Proof. intros w l Hw. exact Hw. Qed.

#[global] Instance identity_footprint_quiet w0 : Quiet (identity_footprint w0).
Proof. split; intros w x Hw; exact Hw. Qed.

#[global] Instance identity_footprint_unreported w0 : Unreported (identity_footprint w0).
Proof. intros w x Hw. exact Hw. Qed.

#[global] Instance identity_footprint_publishes w0 :
  Publishes person_topics (identity_footprint w0).
Proof.
  intros w r Hr (? & ? & ? & ? & ? & new & Hk & Hnew). split_and!; try done.
  exists (new ++ [r])%list. simpl. rewrite Hk, app_assoc. split; [done|].
  apply Forall_app. by split; [|apply Forall_singleton].
Qed.

#[global] Instance cohortpeople_are_bookkeeping c : Bookkeeping (cohortpeople_are c).
Proof. by split. Qed.

#[global] Instance cohortpeople_are_silent c : Silent (cohortpeople_are c).
Proof. by split; [apply _|..]. Qed.

#[global] Instance cohortpeople_are_person_writes c : PersonWrites (cohortpeople_are c).
Proof. split; intros w l Hw; exact Hw. Qed.

Section Footprint.
Context `{Collaborators} (I : World → Prop).
Context `{!Bookkeeping I, !Rollback I, !PersonWrites I, !Quiet I,
          !Publishes person_topics I}.

(** The records the transaction of [createPerson] hands over. *)
Lemma createPerson_transaction_records createdAt properties teamId isUserId isIdentified
    uuid distinctIds w :
  match
    (postgresTransaction
       (person <-
          client_query
            (insert_person createdAt properties teamId isUserId isIdentified uuid) ;;
        now <- gets clock ;;
        let kafkaMessages :=
          if kafkaProducer
          then [ProducerRecord.mk KAFKA_PERSON
                  [Message.mk None
                     (BufferJSON
                        (person_json (castTimestampOrNow (Some createdAt) ClickHouse now)
                           properties teamId isIdentified uuid))]]
          else [] in
        kafkaMessages <- createPerson_distinctIds person distinctIds kafkaMessages ;;
        ret (person, kafkaMessages)) w).1
  with
  | Ok created => Forall person_topics created.2
  | _ => True
  end.
Proof.
  match goal with |- match (?m w).1 with _ => _ end =>
    assert (spec (published (person_mutation_record uuid) w) m
              (λ created, Forall (person_mutation_record uuid) created.2) any) as Hspec
  end.
  { apply spec_postgresTransaction; inst; [done|].
    eapply spec_bind.
    { apply spec_client_query; inst; [done | by apply spec_insert_person; inst]. }
    intros person (Huuid & _ & _).
    eapply spec_bind; [by apply (spec_gets _ _ any)|]. intros now _.
    eapply spec_bind with (Q1 := Forall (person_mutation_record uuid)).
    + rewrite <-Huuid. apply spec_createPerson_distinctIds; inst.
      destruct kafkaProducer; [|done]. apply Forall_singleton. left.
      eexists. split; [reflexivity|]. unfold person_json.
      rewrite Huuid. by rewrite !lookup_insert_ne, lookup_insert_eq by done.
    + intros msgs Hmsgs. by apply spec_ret. }
  destruct (Hspec w (published_refl _ w)) as [_ Hresult].
  destruct (_.1) as [created| |]; [|done|done].
  eapply Forall_impl; [exact Hresult|]. apply person_mutation_record_topics.
Qed.

Lemma keeps_createPerson createdAt properties teamId isUserId isIdentified uuid
    distinctIds :
  keeps I (createPerson createdAt properties teamId isUserId isIdentified uuid distinctIds).
Proof.
  intros w Hw. unfold createPerson.
  pose proof (createPerson_transaction_records createdAt properties teamId isUserId
                isIdentified uuid distinctIds w) as Hrecords.
  match type of Hrecords with match (?m w).1 with _ => _ end =>
    assert (keeps I m) as Hkeeps
  end.
  { apply keeps_postgresTransaction; try apply _.
    apply keeps_bind.
    { apply keeps_client_query; try apply _. apply keeps_insert_person; apply _. }
    intros person. apply keeps_bind; [apply keeps_gets|]. intros now.
    apply keeps_bind; [apply keeps_createPerson_distinctIds; apply _|].
    intros msgs. apply keeps_ret. }
  specialize (Hkeeps w Hw). unfold bind at 1.
  destruct (postgresTransaction _ w) as [[created| |] w1]; simpl in *; [|done|done].
  revert w1 Hkeeps.
  change (keeps I (when kafkaProducer (for_each queueMessage created.2) ;;; ret created.1)).
  apply keeps_bind; [|intros _; apply keeps_ret]. apply keeps_when.
  apply keeps_for_each. intros r Hr. apply (keeps_queueMessage I person_topics).
  by eapply Forall_forall in Hrecords.
Qed.

Lemma keeps_updatePerson person update : keeps I (updatePerson person update).
Proof.
  unfold updatePerson. keeps_go.
  - apply keeps_postgresQuery; try apply _. apply keeps_update_person_where_id; apply _.
  - apply (keeps_queueMessage I person_topics). by left.
Qed.

Lemma keeps_addDistinctId person distinctId : keeps I (addDistinctId person distinctId).
Proof.
  intros w Hw. unfold addDistinctId, bind.
  pose proof (keeps_addDistinctIdPooled I person distinctId w Hw) as Hkeeps.
  destruct (spec_addDistinctIdPooled (published person_topics w) person distinctId w
              (published_refl _ w)) as [_ Hrecord].
  destruct (addDistinctIdPooled person distinctId w) as [[[m|]| |] w1];
    simpl in *; try done.
  revert w1 Hkeeps. change (keeps I (when kafkaProducer (queueMessage m))).
  apply keeps_when. apply (keeps_queueMessage I person_topics).
  eapply person_mutation_record_topics. right. by apply Hrecord.
Qed.

Lemma keeps_moveDistinctId person personDistinctId moveToPerson :
  keeps I (moveDistinctId person personDistinctId moveToPerson).
Proof.
  unfold moveDistinctId. keeps_go.
  - apply keeps_postgresQuery; try apply _.
    apply keeps_update_persondistinctid_person; apply _.
  - apply (keeps_queueMessage I person_topics). by right.
Qed.

Lemma keeps_moveDistinctIds source target : keeps I (moveDistinctIds source target).
Proof.
  unfold moveDistinctIds. keeps_go.
  - apply keeps_fetchDistinctIds; apply _.
  - apply keeps_moveDistinctId.
Qed.

Lemma keeps_deletePerson person : keeps I (deletePerson person).
Proof.
  unfold deletePerson. keeps_go.
  - apply keeps_postgresTransaction; try apply _. keeps_go.
    + apply keeps_client_query; try apply _.
      apply keeps_delete_persondistinctid_where_person; apply _.
    + apply keeps_client_query; try apply _. apply keeps_delete_person_where_id; apply _.
  - apply keeps_clickhouseQuery; apply _.
  - apply keeps_clickhouseQuery; apply _.
Qed.

Section Reporting.
Context `{!Unreported I}.

Lemma keeps_mergePeople_loop fuel mergeInto mergeIntoDistinctId otherPerson
    otherPersonDistinctId failedAttempts :
  keeps I (mergePeople_loop fuel mergeInto mergeIntoDistinctId otherPerson
             otherPersonDistinctId failedAttempts).
Proof.
  revert failedAttempts. induction fuel as [|fuel IH]; intros failedAttempts; simpl.
  { apply keeps_ret. }
  apply keeps_bind; [apply keeps_attempt, keeps_moveDistinctIds|].
  intros [[]|error|].
  - apply keeps_bind; [apply keeps_attempt, keeps_deletePerson|].
    intros [[]|error|]; keeps_go. apply IH.
  - keeps_go. apply keeps_Sentry_captureException; apply _.
  - apply keeps_ret.
Qed.

Lemma keeps_find_or_create teamId distinctId properties isIdentified
    (personFound : option Person.t) :
  keeps I
    (match personFound with
     | Some p => ret (Some p)
     | None =>
         try_catch
           (now <- DateTime_utc ;;
            uuid <- new_UUIDT ;;
            created <- createPerson now properties teamId None isIdentified uuid
                         [distinctId] ;;
            ret (Some created))
           (λ _, fetchPerson teamId distinctId)
     end).
Proof.
  destruct personFound; keeps_go.
  - apply keeps_DateTime_utc.
  - apply keeps_new_UUIDT; apply _.
  - apply keeps_createPerson.
  - apply keeps_fetchPerson; apply _.
Qed.

Lemma keeps_setIsIdentified teamId distinctId isIdentified :
  keeps I (setIsIdentified teamId distinctId isIdentified).
Proof.
  unfold setIsIdentified.
  apply keeps_bind; [apply keeps_fetchPerson; apply _|]. intros personFound.
  apply keeps_bind; [apply keeps_find_or_create|]. intros found.
  keeps_go. apply keeps_updatePerson.
Qed.

Section Cohorts.
Context `{!CohortWrites I}.

Lemma keeps_mergePeople_with alias fuel args :
  (∀ previousDistinctId distinctId teamId retryIfFailed total,
     keeps I (alias previousDistinctId distinctId teamId retryIfFailed total)) →
  keeps I (mergePeople_with alias fuel args).
Proof.
  intros Halias. unfold mergePeople_with.
  apply keeps_bind; [apply keeps_updatePerson|]. intros _.
  apply keeps_bind.
  { apply keeps_postgresQuery; try apply _. apply keeps_modify.
    intros w Hw. by apply stable_cohortpeople. }
  intros _. apply keeps_bind; [apply keeps_mergePeople_loop|].
  intros [[] failedAttempts]; keeps_go. apply Halias.
Qed.

Lemma keeps_alias fuel previousDistinctId distinctId teamId retryIfFailed total :
  keeps I (alias fuel previousDistinctId distinctId teamId retryIfFailed total).
Proof.
  revert previousDistinctId distinctId teamId retryIfFailed total.
  induction fuel as [|fuel IH]; intros previousDistinctId distinctId teamId retryIfFailed
    total; simpl.
  { apply keeps_out_of_fuel. }
  assert (Hretry : ∀ e,
            keeps I (Sentry_captureException e NoExtra ;;;
                     when retryIfFailed
                       (alias fuel previousDistinctId distinctId teamId false 0))).
  { intros e. keeps_go; [apply keeps_Sentry_captureException; apply _ | apply IH]. }
  apply keeps_bind; [apply keeps_fetchPerson; apply _|]. intros oldPerson.
  apply keeps_bind; [apply keeps_fetchPerson; apply _|]. intros newPerson.
  destruct oldPerson as [oldPerson|], newPerson as [newPerson|].
  - destruct (bool_decide _); [|apply keeps_ret].
    apply keeps_mergePeople_with. apply IH.
  - apply keeps_try_catch; [apply keeps_addDistinctId | apply Hretry].
  - apply keeps_try_catch; [apply keeps_addDistinctId | apply Hretry].
  - apply keeps_try_catch; [|apply Hretry].
    keeps_go; [apply keeps_DateTime_utc | apply keeps_new_UUIDT; apply _
              | apply keeps_createPerson].
Qed.

Lemma keeps_handleIdentifyOrAlias fuel event properties distinctId teamId :
  keeps I (handleIdentifyOrAlias fuel event properties distinctId teamId).
Proof.
  unfold handleIdentifyOrAlias. keeps_go; try apply keeps_alias.
  apply keeps_setIsIdentified.
Qed.
End Cohorts.
End Reporting.
End Footprint.

(** * The retry budget of the merge protocol *)

#[global] Instance reports_within_bookkeeping n : Bookkeeping (reports_within n).
Proof. by split. Qed.

#[global] Instance reports_within_tables_free n : TablesFree (reports_within n).
Proof. by intros w t Hw. Qed.

#[global] Instance reports_within_quiet n : Quiet (reports_within n).
Proof. by split. Qed.

#[global] Instance reports_within_publishes P n : Publishes P (reports_within n).
Proof. by intros w r _ Hw. Qed.

Section MergeProtocol.
Context `{Collaborators}.










End MergeProtocol.




(** X19. The identity step of [processEvent] ([handleIdentifyOrAlias], with
    [alias], [mergePeople] and [setIsIdentified] under it) touches only the
    persons, their distinct ids and the cohort memberships: however it ends,
    the tables of events, session recordings, element groups, elements and
    organizations are as before, and the producer log is the one before
    followed by records on the person topic or the distinct-id topic. *)
Theorem handleIdentifyOrAlias_footprint `{Collaborators} (fuel : nat) (event : string)
    (properties : Properties) (distinctId : string) (teamId : Z) (w : World) :
  let w' := (handleIdentifyOrAlias fuel event properties distinctId teamId w).2 in
  posthog_event (tables w') = posthog_event (tables w)
  ∧ posthog_sessionrecordingevent (tables w') = posthog_sessionrecordingevent (tables w)
  ∧ posthog_elementgroup (tables w') = posthog_elementgroup (tables w)
  ∧ posthog_element (tables w') = posthog_element (tables w)
  ∧ posthog_organization (tables w') = posthog_organization (tables w)
  ∧ ∃ records,
      kafka w' = (kafka w ++ records)%list
      ∧ Forall (λ r, ProducerRecord.topic_of r = KAFKA_PERSON
                     ∨ ProducerRecord.topic_of r = KAFKA_PERSON_UNIQUE_ID) records.
Proof.
  apply (keeps_handleIdentifyOrAlias (identity_footprint w)).
  split_and!; try done. apply published_refl.
Qed.

(** * Cohort memberships under a merge *)

Section MergeCohorts.
Context `{Collaborators}.

(** X20. After a successful [mergePeople(mergeInto, otherPerson)] on two
    distinct persons, [mergeInto] being a row of the person table, the cohort
    memberships are those from before with every membership of [otherPerson]
    handed to [mergeInto], in the same order and with the same row and cohort
    identifiers; no membership refers to [otherPerson] any more. This holds
    whatever calls to the storage failed and were retried on the way. *)
Theorem mergePeople_moves_memberships (fuel : nat) (args : MergeArgs.t) (w w' : World) :
  let mergeInto := MergeArgs.mergeInto args in
  let otherPerson := MergeArgs.otherPerson args in
  Person.id mergeInto ≠ Person.id otherPerson →
  Person.id mergeInto ∈ Person.id <$> posthog_person (tables w) →
  mergePeople fuel args w = (Ok tt, w') →
  posthog_cohortpeople (tables w')
  = with_memberships_moved (Person.id mergeInto) (Person.id otherPerson)
      (posthog_cohortpeople (tables w))
  ∧ ∀ m, m ∈ posthog_cohortpeople (tables w') →
         CohortPeople.person_id m ≠ Person.id otherPerson.
Proof.
  intros mergeInto otherPerson Hdistinct Hexists Hr.
  assert (Hmoved : posthog_cohortpeople (tables w')
                   = with_memberships_moved (Person.id mergeInto) (Person.id otherPerson)
                       (posthog_cohortpeople (tables w))).
  { unfold mergePeople, mergePeople_with in Hr.
    fold mergeInto otherPerson in Hr.
    apply bind_ok in Hr as (updated & w1 & Hupdate & Hr).
    apply bind_ok in Hr as ([] & w2 & Hcohort & Hr).
    apply bind_ok in Hr as (left & w3 & Hloop & Hr).
    assert (Hkept : cohortpeople_are (posthog_cohortpeople (tables w2)) (Ok left, w3).2).
    { rewrite <-Hloop.
      by apply (keeps_mergePeople_loop
                  (cohortpeople_are (posthog_cohortpeople (tables w2)))). } unfold cohortpeople_are, on_tables in Hkept. simpl in Hkept.
    apply updatePerson_ok in Hupdate as (_ & _ & Ht1). simpl in Ht1.
    apply postgresQuery_ok in Hcohort.
    unfold update_cohortpeople_person, modify_tables, modify in Hcohort.
    injection Hcohort as <-.
    rewrite min_as_computed in Ht1.
    set (update := PersonUpdate.mk
                     (Some (Z.min (Person.created_at mergeInto)
                              (Person.created_at otherPerson)))
                     (Some (Person.properties otherPerson ⊕ Person.properties mergeInto))
                     None) in Ht1.
    set (ps := PersonUpdate.apply update
                 <$> filter (λ p, Person.id p = Person.id mergeInto)
                       (posthog_person (tables w))).
    set (ds := filter (attached otherPerson) (posthog_persondistinctid (tables w))).
    assert (Hps : ∀ p, p ∈ ps → Person.id p = Person.id mergeInto).
    { intros p Hin. apply list_elem_of_fmap in Hin as (q & -> & Hq).
      by apply list_elem_of_filter in Hq as [Hq _]. }
    assert (Hinto : ∃ p, p ∈ ps).
    { apply list_elem_of_fmap in Hexists as (q & Hid & Hq).
      exists (PersonUpdate.apply update q). apply list_elem_of_fmap_2.
      by apply list_elem_of_filter. }
    assert (Hds : ∀ d, d ∈ ds → attached otherPerson d).
    { intros d Hin. by apply list_elem_of_filter in Hin as [Hd _]. }
    eapply (mergePeople_loop_merges mergeInto otherPerson ps ds) in Hloop;
      [|done|done|done|done|done|].
    - destruct Hloop as [Hnoretry _]. destruct left as [exit fa]. simpl in *.
      destruct exit; try done.
      apply ret_run in Hr as [_ ->]. rewrite Hkept. simpl. by rewrite Ht1.
    - split.
      + intros p Hin. simpl. rewrite Ht1. simpl.
        apply list_elem_of_fmap in Hin as (q & -> & Hq).
        apply list_elem_of_filter in Hq as [Hid Hq].
        apply (list_elem_of_fmap_2' _ _ q); [done|].
        by rewrite bool_decide_eq_true_2.
      + intros d Hin. left. simpl. rewrite Ht1. simpl.
        by apply list_elem_of_filter in Hin as [_ Hin]. }
  split; [exact Hmoved|].
  intros m Hm. rewrite Hmoved in Hm.
  apply list_elem_of_fmap in Hm as (m0 & -> & _).
  case_bool_decide as Hm0; [exact Hdistinct | done].
Qed.
End MergeCohorts.

Lemma mergePeople_moves_memberships_witness :
  ∃ w',
    @mergePeople (Reference.collaborators true false) 2 s3_args s3_cohort_world
    = (Ok tt, w')
    ∧ posthog_cohortpeople (tables w')
      = [CohortPeople.mk 30 7 2; CohortPeople.mk 31 8 2; CohortPeople.mk 32 8 2].
Proof.
  assert (∃ w', @mergePeople (Reference.collaborators true false) 2 s3_args
                  s3_cohort_world = (Ok tt, w')) as [w' Hrun].
  { vm_compute. eexists. reflexivity. }
  exists w'. split; [exact Hrun|].
  destruct (@mergePeople_moves_memberships (Reference.collaborators true false) 2 s3_args
              s3_cohort_world w') as [Hmoved _]; [done | | exact Hrun |].
  { apply (bool_decide_unpack _). by vm_compute. }
  exact Hmoved.
Defined.
